(** * Deck maker: the deck-composition logic of [src/App.vue]

    A shallow embedding of the script part of the component: the card
    ordering ([naturalSort], [kindSort], [typeSort] and the two display
    comparators), the filter ([filterCards]), the deck operations
    ([addCardToDeck], [incrementCardCount], [decrementCardCount],
    [removeCardFromDeck], [resetDeck]), the deck code
    ([encodeDeckCode], [decodeDeckCode], [importDeckFromCode],
    [generateAndShowDeckCode]), the tags of the filter dialog ([allTags]),
    the loading of pictures ahead ([preloadImages]) and the storage of the
    deck ([saveDeckToLocalStorage], [loadDeckFromLocalStorage]).

    Conventions.
    - A JavaScript string is held as a [string], the bytes of its UTF-8
      form.  The code tests single characters of a string only against
      ASCII (the digits, the letters A-Z, the slash); these are single
      bytes below 128 in UTF-8 and no byte of a longer sequence equals one
      of them, so the tests read the same on bytes as on UTF-16 code units.
      Whole strings are compared for equality and searched as substrings,
      which for well-formed text is the same in both encodings.
    - A JavaScript number is an integer of [Z].  Counts and indices stay
      far below 2^53, where a double holds an integer exactly.  The values
      of digit runs do not: [parseInt] and the subtraction of [naturalSort]
      round to the nearest double ([toDouble], [subtract]), and [infinity]
      stands for [Infinity].
    - Reading a property that an object does not have gives [JUndefined].
    - A function that can throw returns a [result].
    - What the browser supplies is a parameter: [localeCompare],
      [toLowerCase], [Array.prototype.sort], and the answer to [confirm]. *)

From stdpp Require Import base numbers option list strings gmap.
From Stdlib Require Import Ascii ZArith Lia.

Local Open Scope string_scope.
Local Open Scope list_scope.
Local Open Scope Z_scope.

(** ** JavaScript values and exceptions *)

(** The values a parsed JSON catalog can hold in a field. *)
#[warnings="-register-all"]
Inductive jsval : Type :=
| JUndefined
| JNull
| JBool (b : bool)
| JNum (n : Z)
| JStr (s : string)
| JArr (l : list jsval)
| JObj (fields : list (string * jsval)).

Inductive jserror : Type := TypeError | RangeError.

Inductive result (A : Type) : Type :=
| Return (a : A)
| Throw (e : jserror).
Arguments Return {A} a.
Arguments Throw {A} e.

(** Sequencing: an exception of the first part skips the rest. *)
Definition bind {A B} (m : result A) (k : A → result B) : result B :=
  match m with
  | Return a => k a
  | Throw e => Throw e
  end.

Notation "x <- m ;; k" := (bind m (fun x => k))
  (at level 100, m at next level, right associativity).

(** [Array.isArray(v)]. *)
Definition isArray (v : jsval) : bool :=
  match v with JArr _ => true | _ => false end.

(** The truth value of [v] in a condition ([if (v)], [!v], [v && ...]). *)
Definition truthy (v : jsval) : bool :=
  match v with
  | JUndefined | JNull => false
  | JBool b => b
  | JNum n => negb (n =? 0)
  | JStr s => negb (bool_decide (s = ""))
  | JArr _ | JObj _ => true
  end.

(** [arr.some(f)]: stops at the first element on which [f] is true; an
    exception of [f] leaves the loop. *)
Fixpoint some {A} (f : A → result bool) (arr : list A) : result bool :=
  match arr with
  | [] => Return false
  | x :: rest => b <- f x ;; if b then Return true else some f rest
  end.

(** [arr.filter(f)]. *)
Fixpoint filterM {A} (f : A → result bool) (arr : list A) : result (list A) :=
  match arr with
  | [] => Return []
  | x :: rest =>
      b <- f x ;;
      kept <- filterM f rest ;;
      Return (if b then x :: kept else kept)
  end.

(** [order.indexOf(v)] for an array [order] of strings: strict equality, so
    a value that is not a string is never found. *)
Fixpoint indexOfFrom (order : list string) (s : string) (i : Z) : Z :=
  match order with
  | [] => -1
  | x :: rest => if bool_decide (x = s) then i else indexOfFrom rest s (i + 1)
  end.

Definition indexOf (order : list string) (v : jsval) : Z :=
  match v with
  | JStr s => indexOfFrom order s 0
  | _ => -1
  end.

(** [set.has(v)] for a [Set] built from an array of strings. *)
Definition has (set : gset string) (v : jsval) : bool :=
  match v with
  | JStr s => bool_decide (s ∈ set)
  | _ => false
  end.

(** ** Strings *)

(** [s.includes(t)]: [t] occurs in [s] as a contiguous piece. *)
Fixpoint startsWith (s t : string) : bool :=
  match t, s with
  | EmptyString, _ => true
  | String _ _, EmptyString => false
  | String b t', String a s' => if Ascii.eqb a b then startsWith s' t' else false
  end.

Fixpoint includes (s t : string) : bool :=
  startsWith s t ||
  match s with
  | EmptyString => false
  | String _ s' => includes s' t
  end.

(** [s.split(sep)] for a separator of one character; the empty string
    splits into one empty piece. *)
Fixpoint split (sep : ascii) (s : string) : list string :=
  match s with
  | EmptyString => [EmptyString]
  | String c rest =>
      if Ascii.eqb c sep then EmptyString :: split sep rest
      else match split sep rest with
           | piece :: pieces => String c piece :: pieces
           | [] => [String c EmptyString]
           end
  end.

(** [arr.join(sep)] for an array of strings. *)
Fixpoint join (sep : string) (arr : list string) : string :=
  match arr with
  | [] => ""
  | [x] => x
  | x :: rest => x +:+ sep +:+ join sep rest
  end.

(** The class [\d] of the regular expression: the ten ASCII digits. *)
Definition isDigit (c : ascii) : bool :=
  (48 <=? Z.of_nat (nat_of_ascii c)) && (Z.of_nat (nat_of_ascii c) <=? 57).

Definition headIsDigit (s : string) : bool :=
  match s with
  | String c _ => isDigit c
  | EmptyString => false
  end.

(** All matches of [/(\d+)|(\D+)/g] in [s], left to right: every character
    is in [\d] or in [\D], so the matches are the maximal runs of one
    class. *)
Fixpoint runs (s : string) : list string :=
  match s with
  | EmptyString => []
  | String c rest =>
      match runs rest with
      | run :: more =>
          if Bool.eqb (isDigit c) (headIsDigit run)
          then String c run :: more
          else String c EmptyString :: run :: more
      | [] => [String c EmptyString]
      end
  end.

(** [s.match(/(\d+)|(\D+)/g)]: [null] when nothing matches. *)
Definition matchRuns (s : string) : option (list string) :=
  match runs s with
  | [] => None
  | tokens => Some tokens
  end.

(** The numbers of [naturalSort] are doubles.  Those that [parseInt] and
    the subtraction produce have an integer value or are an infinity: a
    finite one is written as its value, [infinity] (the least power of two
    that no finite double reaches) stands for [Infinity] and [- infinity]
    for [-Infinity].  [NaN] is [None]. *)
Definition infinity : Z := 2 ^ 1024.

Definition isInfinite (x : Z) : bool := Z.abs x =? infinity.

(** The double nearest to an integer: a magnitude below 2^53 is kept; a
    larger one is rounded to 53 significant bits, a tie going to the even
    significand; what rounds to 2^1024 or more is an infinity. *)
Definition toDouble (n : Z) : Z :=
  let a := Z.abs n in
  if a <? 2 ^ 53 then n
  else
    let e := Z.log2 a - 52 in
    let q := a / 2 ^ e in
    let r := a mod 2 ^ e in
    let half := 2 ^ (e - 1) in
    let q' := if r <? half then q
              else if half <? r then q + 1
              else if Z.even q then q else q + 1 in
    let m := q' * 2 ^ e in
    Z.sgn n * (if m <? infinity then m else infinity).

(** [x - y] on two numbers that are not the same infinity (there the
    difference is [NaN]): an infinity wins, and the difference of two
    finite doubles is rounded. *)
Definition subtract (x y : Z) : Z :=
  if isInfinite x then x
  else if isInfinite y then - y
  else toDouble (x - y).

(** [parseInt(s, 10)]; [None] is [NaN].  Leading white space is skipped
    (the ASCII part of it; a string without a digit is [NaN] whatever is
    skipped), then one sign, and the longest run of digits that follows is
    read; the result is the double nearest to the integer that the digits
    spell (the engines round the number as it is written, also where the
    standard would let them drop the digits after the twentieth). *)
Definition isWhiteSpace (c : ascii) : bool :=
  let n := Z.of_nat (nat_of_ascii c) in
  ((9 <=? n) && (n <=? 13)) || (n =? 32).

Fixpoint trimStart (s : string) : string :=
  match s with
  | String c rest => if isWhiteSpace c then trimStart rest else s
  | EmptyString => s
  end.

Definition digitValue (c : ascii) : Z := Z.of_nat (nat_of_ascii c) - 48.

Fixpoint readDigits (acc : option Z) (s : string) : option Z :=
  match s with
  | String c rest =>
      if isDigit c then readDigits (Some (10 * default 0 acc + digitValue c)) rest
      else acc
  | EmptyString => acc
  end.

Definition parseInt (s : string) : option Z :=
  let s1 := trimStart s in
  let '(sign, s2) :=
    match s1 with
    | String c rest =>
        if Ascii.eqb c "-" then (-1, rest)
        else if Ascii.eqb c "+" then (1, rest)
        else (1, s1)
    | EmptyString => (1, s1)
    end in
  (λ n, toDouble (sign * n)) <$> readDigits None s2.

(** [s.charCodeAt(0)]; [None] is [NaN] (the empty string).  For a first
    character outside ASCII this is its first byte, which like its code
    unit lies outside 65..90. *)
Definition charCodeAt0 (s : string) : option Z :=
  match s with
  | String c _ => Some (Z.of_nat (nat_of_ascii c))
  | EmptyString => None
  end.

(** [code >= 65 && code <= 90]; a comparison with [NaN] is false. *)
Definition isUpperCode (code : option Z) : bool :=
  match code with
  | Some c => (65 <=? c) && (c <=? 90)
  | None => false
  end.

(** ** Data *)

(** A card of the catalog.  [id] and [name] are strings; [kind], [type] and
    [tags] are kept as the catalog gives them, since the code itself asks
    for their shape ([Array.isArray], [!cardTypes], [indexOf]). *)
Module Card.
Record t : Type := mk {
  id : string;
  name : string;
  kind : jsval;
  type : jsval;
  tags : jsval
}.
End Card.

(** An entry of the deck: [{ card: card, count: N }]. *)
Module Entry.
Record t : Type := mk {
  card : Card.t;
  count : Z
}.
End Entry.

(** [filterCriteria]: a text and three arrays of strings, filled by the
    text field and the check boxes of the filter dialog. *)
Module Criteria.
Record t : Type := mk {
  text : string;
  kind : list string;
  type : list string;
  tags : list string
}.
End Criteria.

(** The object literals [{ kind: ... }] and [{ type: ... }] of
    [sortedDeckCards]. *)
Module KindOnly.
Record t : Type := mk { kind : jsval }.
End KindOnly.

Module TypeOnly.
Record t : Type := mk { type : jsval }.
End TypeOnly.

(** [kindSort] reads nothing but [.kind] of its arguments and [typeSort]
    nothing but [.type]: any object with that property will do. *)
Class HasKind (A : Type) : Type := getKind : A → jsval.
Class HasType (A : Type) : Type := getType : A → jsval.

#[global] Instance card_has_kind : HasKind Card.t := Card.kind.
#[global] Instance card_has_type : HasType Card.t := Card.type.
#[global] Instance kind_only_has_kind : HasKind KindOnly.t := KindOnly.kind.
#[global] Instance type_only_has_type : HasType TypeOnly.t := TypeOnly.type.

Definition allKinds : list string := ["Artist"; "Song"; "Magic"; "Direction"].
Definition allTypes : list string :=
  ["赤"; "青"; "黄"; "白"; "黒"; "全"; "即時"; "装備"; "設置"].

(** ** Ordering *)

Section Ordering.
(** [a.localeCompare(b)] is the collation of the browser's locale: a
    negative number, zero or a positive number. *)
Variable localeCompare : string → string → Z.

(** [arr.sort(compare)] of the engine. *)
Variable sort : ∀ A : Type, (A → A → Z) → list A → list A.

(** The [for] loop of [naturalSort] over the positions below
    [Math.min(tokensA.length, tokensB.length)], that is over the two token
    lists in step; [Some r] is a [return r] inside the loop, [None] the
    loop running to its end. *)
Fixpoint naturalSortLoop (tokensA tokensB : list string) : option Z :=
  match tokensA, tokensB with
  | tokenA :: restA, tokenB :: restB =>
      let numA := parseInt tokenA in
      let numB := parseInt tokenB in
      match numA, numB with
      | Some nA, Some nB =>
          if negb (nA =? nB) then Some (subtract nA nB)
          else naturalSortLoop restA restB
      | _, _ =>
          let charCodeA := charCodeAt0 tokenA in
          let charCodeB := charCodeAt0 tokenB in
          let isUpperA := isUpperCode charCodeA in
          let isUpperB := isUpperCode charCodeB in
          if negb (Bool.eqb isUpperA isUpperB)
          then Some (if isUpperA then -1 else 1)
          else if negb (bool_decide (tokenA = tokenB))
          then Some (localeCompare tokenA tokenB)
          else naturalSortLoop restA restB
      end
  | _, _ => None
  end.

Definition naturalSort (a b : string) : Z :=
  match matchRuns a, matchRuns b with
  | Some tokensA, Some tokensB =>
      match naturalSortLoop tokensA tokensB with
      | Some r => r
      | None => Z.of_nat (length tokensA) - Z.of_nat (length tokensB)
      end
  | _, _ => localeCompare a b
  end.

Definition kindSort {A B} `{HasKind A} `{HasKind B} (a : A) (b : B) : Z :=
  let order := allKinds in
  let indexA := indexOf order (getKind a) in
  let indexB := indexOf order (getKind b) in
  indexA - indexB.

(** The helper of [typeSort]: the least index in [order] of a type of the
    card, [order.length] when there is none. *)
Definition getEarliestTypeIndex (order : list string) (cardTypes : jsval) : Z :=
  if negb (truthy cardTypes) then Z.of_nat (length order)
  else
    let types := match cardTypes with JArr l => l | _ => [cardTypes] end in
    foldl (λ minIndex type,
             let index := indexOf order type in
             if negb (index =? -1) && (index <? minIndex) then index
             else minIndex)
          (Z.of_nat (length order)) types.

Definition typeSort {A B} `{HasType A} `{HasType B} (a : A) (b : B) : Z :=
  let order := allTypes in
  let indexA := getEarliestTypeIndex order (getType a) in
  let indexB := getEarliestTypeIndex order (getType b) in
  indexA - indexB.

(** The comparator given to [sort] in [sortedAndFilteredAvailableCards]. *)
Definition availableCardsCompare (a b : Card.t) : Z :=
  let kindComparison := kindSort a b in
  if negb (kindComparison =? 0) then kindComparison
  else
    let typeComparison := typeSort a b in
    if negb (typeComparison =? 0) then typeComparison
    else naturalSort (Card.id a) (Card.id b).

(** The comparator given to [sort] in [sortedDeckCards]. *)
Definition deckCardsCompare (a b : Entry.t) : Z :=
  let cardA := Entry.card a in
  let cardB := Entry.card b in
  let kindComparison :=
    kindSort (KindOnly.mk (Card.kind cardA)) (KindOnly.mk (Card.kind cardB)) in
  if negb (kindComparison =? 0) then kindComparison
  else
    let typeComparison :=
      typeSort (TypeOnly.mk (Card.type cardA)) (TypeOnly.mk (Card.type cardB)) in
    if negb (typeComparison =? 0) then typeComparison
    else naturalSort (Card.id cardA) (Card.id cardB).

Definition sortedDeckCards (deckCards : list Entry.t) : list Entry.t :=
  sort _ deckCardsCompare deckCards.
End Ordering.

(** ** Filter *)

Section Filter.
(** [s.toLowerCase()] is the lower-casing of the engine. *)
Variable toLowerCase : string → string.

(** The callback of [card.tags.some] in the text search; a tag that is
    not a string has no [toLowerCase] to call. *)
Definition tagIncludes (textLower : string) (tag : jsval) : result bool :=
  match tag with
  | JStr s => Return (includes (toLowerCase s) textLower)
  | _ => Throw TypeError
  end.

(** [name.includes(t) || id.includes(t) || (isArray(tags) && tags.some(..))] *)
Definition textMatches (textLower : string) (card : Card.t) : result bool :=
  if includes (toLowerCase (Card.name card)) textLower then Return true
  else if includes (toLowerCase (Card.id card)) textLower then Return true
  else match Card.tags card with
       | JArr tags => some (tagIncludes textLower) tags
       | _ => Return false
       end.

(** The callback of [cards.filter] in [filterCards].  [set.has] cannot
    throw, so the two [some] over it are plain [existsb]. *)
Definition keepCard (textLower : string) (kindSet typeSet tagSet : gset string)
    (card : Card.t) : result bool :=
  textFails <- (if negb (bool_decide (textLower = ""))
                then found <- textMatches textLower card ;; Return (negb found)
                else Return false) ;;
  if (textFails : bool) then Return false
  else if (0 <? size kindSet)%nat && negb (has kindSet (Card.kind card))
  then Return false
  else if (0 <? size typeSet)%nat &&
          (let cardTypes :=
             match Card.type card with JArr l => l | v => [v] end in
           negb (existsb (has typeSet) cardTypes))
  then Return false
  else if (0 <? size tagSet)%nat &&
          negb (match Card.tags card with
                | JArr tags => existsb (has tagSet) tags
                | _ => false
                end)
  then Return false
  else Return true.

Definition filterCards (cards : list Card.t) (criteria : Criteria.t)
    : result (list Card.t) :=
  let textLower := toLowerCase (Criteria.text criteria) in
  let kindSet : gset string := list_to_set (Criteria.kind criteria) in
  let typeSet : gset string := list_to_set (Criteria.type criteria) in
  let tagSet : gset string := list_to_set (Criteria.tags criteria) in
  filterM (keepCard textLower kindSet typeSet tagSet) cards.

Definition sortedAndFilteredAvailableCards
    (localeCompare : string → string → Z)
    (sort : ∀ A : Type, (A → A → Z) → list A → list A)
    (availableCards : list Card.t) (filterCriteria : Criteria.t)
    : result (list Card.t) :=
  filtered <- filterCards availableCards filterCriteria ;;
  Return (sort _ (availableCardsCompare localeCompare) filtered).
End Filter.

(** ** Deck store *)

(** The reactive variables the deck operations read and write, the
    browser's [localStorage], and the messages shown by [alert] so far.
    The watchers that save the deck and its name run after an operation has
    returned; they are not part of the operations. *)
Record State : Type := mkState {
  availableCards : list Card.t;
  deckCards : list Entry.t;
  deckName : string;
  importDeckCode : string;
  showDeckCodeModal : bool;
  localStorage : gmap string string;
  alerts : list string
}.

Definition setDeckCards (cards : list Entry.t) (st : State) : State :=
  mkState (availableCards st) cards (deckName st) (importDeckCode st)
          (showDeckCodeModal st) (localStorage st) (alerts st).

Definition setDeckName (name : string) (st : State) : State :=
  mkState (availableCards st) (deckCards st) name (importDeckCode st)
          (showDeckCodeModal st) (localStorage st) (alerts st).

Definition setImportDeckCode (code : string) (st : State) : State :=
  mkState (availableCards st) (deckCards st) (deckName st) code
          (showDeckCodeModal st) (localStorage st) (alerts st).

Definition setShowDeckCodeModal (b : bool) (st : State) : State :=
  mkState (availableCards st) (deckCards st) (deckName st) (importDeckCode st)
          b (localStorage st) (alerts st).

(** [localStorage.removeItem(key)]. *)
Definition removeItem (key : string) (st : State) : State :=
  mkState (availableCards st) (deckCards st) (deckName st) (importDeckCode st)
          (showDeckCodeModal st) (delete key (localStorage st)) (alerts st).

(** [alert(message)]. *)
Definition alert (message : string) (st : State) : State :=
  mkState (availableCards st) (deckCards st) (deckName st) (importDeckCode st)
          (showDeckCodeModal st) (localStorage st) (alerts st ++ [message]).

Definition deckFullMessage : string := "デッキは60枚までです！".
Definition noValidCardMessage : string := "有効なカードが見つかりませんでした".
Definition defaultDeckName : string := "新しいデッキ".

(** [deckCards.reduce((sum, item) => sum + item.count, 0)]. *)
Definition totalOf (deck : list Entry.t) : Z :=
  foldl (λ sum item, sum + Entry.count item) 0 deck.

Definition totalDeckCards (st : State) : Z := totalOf (deckCards st).

(** [item.count++] and [item.count--] on an entry of the deck. *)
Definition countUp (item : Entry.t) : Entry.t :=
  Entry.mk (Entry.card item) (Entry.count item + 1).

Definition countDown (item : Entry.t) : Entry.t :=
  Entry.mk (Entry.card item) (Entry.count item - 1).

(** [deck.find(item => item.card.id === cardId)] together with its position
    ([findIndex]); [None] is [undefined] (index -1). *)
Definition findEntry (cardId : string) (deck : list Entry.t) : option (nat * Entry.t) :=
  list_find (λ item, Card.id (Entry.card item) = cardId) deck.

Definition addCardToDeck (card : Card.t) (st : State) : State :=
  if bool_decide (60 ≤ totalDeckCards st) then alert deckFullMessage st
  else
    match findEntry (Card.id card) (deckCards st) with
    | Some (existingCardIndex, item) =>
        if bool_decide (Entry.count item < 4)
        then setDeckCards (alter countUp existingCardIndex (deckCards st)) st
        else st
    | None => setDeckCards (deckCards st ++ [Entry.mk card 1]) st
    end.

Definition incrementCardCount (cardId : string) (st : State) : State :=
  if bool_decide (60 ≤ totalDeckCards st) then alert deckFullMessage st
  else
    match findEntry cardId (deckCards st) with
    | Some (i, item) =>
        if bool_decide (Entry.count item < 4)
        then setDeckCards (alter countUp i (deckCards st)) st
        else st
    | None => st
    end.

Definition removeCardFromDeck (cardId : string) (st : State) : State :=
  setDeckCards
    (filter (λ item, Card.id (Entry.card item) ≠ cardId) (deckCards st)) st.

Definition decrementCardCount (cardId : string) (st : State) : State :=
  match findEntry cardId (deckCards st) with
  | Some (i, item) =>
      if bool_decide (1 < Entry.count item)
      then setDeckCards (alter countDown i (deckCards st)) st
      else if bool_decide (Entry.count item = 1)
      then removeCardFromDeck cardId st
      else st
  | None => st
  end.

(** [confirmed] is the answer of the user to [confirm(...)]. *)
Definition resetDeck (confirmed : bool) (st : State) : State :=
  if confirmed
  then removeItem "deckName_k"
         (removeItem "deckCards_k"
            (setDeckName defaultDeckName (setDeckCards [] st)))
  else st.

(** The operations of the store, as the user can trigger them. *)
Inductive Op : Type :=
| AddCard (card : Card.t)
| Increment (cardId : string)
| Decrement (cardId : string)
| Remove (cardId : string)
| Reset (confirmed : bool).

Definition step (st : State) (op : Op) : State :=
  match op with
  | AddCard card => addCardToDeck card st
  | Increment cardId => incrementCardCount cardId st
  | Decrement cardId => decrementCardCount cardId st
  | Remove cardId => removeCardFromDeck cardId st
  | Reset confirmed => resetDeck confirmed st
  end.

Definition run (ops : list Op) (st : State) : State := foldl step st ops.

(** ** Deck code *)

(** [Array(n).fill(x)]: a length that is negative or above 2^32 - 1 is a
    [RangeError]. *)
Definition arrayFill {A} (n : Z) (x : A) : result (list A) :=
  if bool_decide (0 ≤ n < 2 ^ 32) then Return (replicate (Z.to_nat n) x)
  else Throw RangeError.

(** [arr.flatMap(f)]. *)
Fixpoint flatMap {A B} (f : A → result (list B)) (arr : list A) : result (list B) :=
  match arr with
  | [] => Return []
  | x :: rest =>
      ys <- f x ;;
      more <- flatMap f rest ;;
      Return (ys ++ more)
  end.

Definition encodeDeckCode (deck : list Entry.t) : result string :=
  cardIds <- flatMap (λ item, arrayFill (Entry.count item) (Card.id (Entry.card item))) deck ;;
  Return (join "/" cardIds).

(** A [Map] from strings to numbers: its entries in the order in which the
    keys were first set, which is the order of [for ... of]. *)
Fixpoint mapGet (m : list (string * Z)) (key : string) : option Z :=
  match m with
  | [] => None
  | (k, v) :: rest => if bool_decide (k = key) then Some v else mapGet rest key
  end.

Fixpoint mapSet (m : list (string * Z)) (key : string) (value : Z) : list (string * Z) :=
  match m with
  | [] => [(key, value)]
  | (k, v) :: rest =>
      if bool_decide (k = key) then (key, value) :: rest
      else (k, v) :: mapSet rest key value
  end.

(** [v || 0] for [v] a number or [undefined]. *)
Definition orZero (v : option Z) : Z :=
  match v with
  | Some n => if n =? 0 then 0 else n
  | None => 0
  end.

(** The callback of [cardIds.forEach]:
    [cardCounts.set(id, (cardCounts.get(id) || 0) + 1)]. *)
Definition countStep (cardCounts : list (string * Z)) (id : string) : list (string * Z) :=
  mapSet cardCounts id (orZero (mapGet cardCounts id) + 1).

Definition countIds (cardIds : list string) : list (string * Z) :=
  foldl countStep [] cardIds.

(** [availableCards.find(c => c.id === id)]. *)
Definition findCard (catalog : list Card.t) (cardId : string) : option Card.t :=
  snd <$> list_find (λ c, Card.id c = cardId) catalog.

(** The body of the [for ... of] loop of [decodeDeckCode]: the entry is
    pushed when the catalog has a card for the id. *)
Definition restoreStep (catalog : list Card.t) (cards : list Entry.t)
    (entry : string * Z) : list Entry.t :=
  match findCard catalog entry.1 with
  | Some card => cards ++ [Entry.mk card entry.2]
  | None => cards
  end.

Definition restoreCards (catalog : list Card.t) (cardCounts : list (string * Z))
    : list Entry.t :=
  foldl (restoreStep catalog) [] cardCounts.

Definition decodeDeckCode (catalog : list Card.t) (code : string) : list Entry.t :=
  let cardIds := split "/" code in
  let cardCounts := countIds cardIds in
  restoreCards catalog cardCounts.

(** Nothing in the [try] block can throw on a string, so the [catch] branch
    is never taken. *)
Definition importDeckFromCode (st : State) : State :=
  let importedCards := decodeDeckCode (availableCards st) (importDeckCode st) in
  if bool_decide (0 < length importedCards)%nat
  then setShowDeckCodeModal false (setImportDeckCode "" (setDeckCards importedCards st))
  else alert noValidCardMessage st.

(** * The tags offered by the filter dialog *)

Definition priorityTags : list string :=
  ["V.W.P"; "花譜"; "理芽"; "春猿火"; "ヰ世界情緒"; "幸祜"; "CIEL"; "V.I.P";
   "可不"; "裏命"; "羽累"; "星界"; "狐子"; "VALIS"; "CHINO"; "MYU"; "NEFFY";
   "RARA"; "VITTE"; "Albemuth"; "明透"; "心世紀"; "佳鏡院"; "御莉姫"; "硝子宮";
   "罪十罰"; "美古途"; "夕凪機"; "氷夏至"; "カフ"; "リメ"; "ハル"; "セカイ";
   "ココ"; "化歩"; "狸眼"; "派流"; "世界"; "此処"; "詩得"; "瓦利斯";
   "阿栖&亜留"].

(** The equality of the elements of a [Set] (SameValueZero): primitive
    values are compared by value; an array or an object is equal to itself
    only, and each array or object inside the data of a card is an object of
    its own. *)
Definition sameValueZero (v w : jsval) : bool :=
  match v, w with
  | JUndefined, JUndefined => true
  | JNull, JNull => true
  | JBool a, JBool b => bool_decide (a = b)
  | JNum a, JNum b => a =? b
  | JStr a, JStr b => bool_decide (a = b)
  | _, _ => false
  end.

(** A [Set] of values, as the list of its elements in insertion order:
    [set.has(v)], [set.add(v)] and [new Set(values)]. *)
Definition setHas (set : list jsval) (v : jsval) : bool :=
  existsb (sameValueZero v) set.

Definition setAdd (set : list jsval) (v : jsval) : list jsval :=
  if setHas set v then set else set ++ [v].

Definition newSet (values : list jsval) : list jsval :=
  foldl setAdd [] values.

Section AllTags.
(** [Array.prototype.sort] without a comparator. *)
Variable defaultSort : list jsval → list jsval.

Definition allTags (availableCards : list Card.t) : list jsval :=
  let tags :=
    foldl (λ tags card,
             match Card.tags card with
             | JArr cardTags => foldl setAdd tags cardTags
             | _ => tags
             end) (newSet []) availableCards in
  let priorityTagSet := newSet (JStr <$> priorityTags) in
  let otherTags :=
    defaultSort (List.filter (λ tag, negb (setHas priorityTagSet tag)) tags) in
  (JStr <$> List.filter (λ tag, setHas tags (JStr tag)) priorityTags) ++ otherTags.
End AllTags.

(** * Loading the pictures ahead *)

Definition getCardImageUrl (cardId : string) : string :=
  "/deck-maker-k/cards/" +:+ cardId +:+ ".avif".

(** [arr.slice(start, end)] for indices that are not negative. *)
Definition slice {A} (arr : list A) (start end_ : Z) : list A :=
  take (Z.to_nat end_ - Z.to_nat start) (drop (Z.to_nat start) arr).

(** [cardCache], a [Map] from the id of a card to its image, an image
    being known by its [src]; and the addresses for which an image was
    made, in the order of the requests. *)
Record Preload : Type := mkPreload {
  cardCache : gmap string string;
  requested : list string
}.

(** The callback of [batch.forEach] in [loadBatch]. *)
Definition preloadCard (p : Preload) (card : Card.t) : Preload :=
  if bool_decide (is_Some (cardCache p !! Card.id card)) then p
  else
    let src := getCardImageUrl (Card.id card) in
    mkPreload (<[Card.id card := src]> (cardCache p)) (requested p ++ [src]).

Definition batchSize : Z := 10.

(** [loadBatch(startIndex)]: the state of the cache after the batch, and
    the index for which a timer is set, if one is. *)
Definition loadBatch (cards : list Card.t) (startIndex : Z) (p : Preload)
    : Preload * option Z :=
  let endIndex := Z.min (startIndex + batchSize) (Z.of_nat (length cards)) in
  let batch := slice cards startIndex endIndex in
  let p := foldl preloadCard p batch in
  (p, if endIndex <? Z.of_nat (length cards) then Some endIndex else None).

(** [loadBatch(startIndex)] and the timers that follow from it, at most
    [timers] of them having fired. *)
Fixpoint runBatches (timers : nat) (cards : list Card.t) (startIndex : Z) (p : Preload)
    : Preload * option Z :=
  match loadBatch cards startIndex p with
  | (p, Some next) =>
      match timers with
      | O => (p, Some next)
      | S timers => runBatches timers cards next p
      end
  | (p, None) => (p, None)
  end.

Definition preloadImages (timers : nat) (cards : list Card.t) (p : Preload)
    : Preload * option Z :=
  runBatches timers cards 0 p.

(** * Keeping the deck in the storage of the browser *)

(** An item of the saved deck: [{ id: item.card.id, count: item.count }]. *)
Module Saved.
Record t : Type := mk { id : string; count : Z }.
End Saved.

Definition newline : string := String "010"%char "".
Definition saveFailedMessage : string := "デッキの保存に失敗しました".
Definition loadFailedMessage : string := "保存されたデッキの読み込みに失敗しました".

(** [localStorage.setItem(key, value)], when it does not throw. *)
Definition setItem (key value : string) (st : State) : State :=
  mkState (availableCards st) (deckCards st) (deckName st) (importDeckCode st)
          (showDeckCodeModal st) (<[key:=value]> (localStorage st)) (alerts st).

(** [handleError(error, message)] for an exception whose [message] is
    [errorMessage]; what goes to the console is not kept. *)
Definition handleError (errorMessage message : string) (st : State) : State :=
  alert (message +:+ newline +:+ errorMessage) st.

(** [deck.map(item => ({ id: item.card.id, count: item.count }))]. *)
Definition simpleDeckOf (deck : list Entry.t) : list Saved.t :=
  (λ item, Saved.mk (Card.id (Entry.card item)) (Entry.count item)) <$> deck.

(** [simpleDeck.map(item => ...).filter(item => item !== null)] in
    [loadDeckFromLocalStorage]: an item is kept, with the card of the pool,
    when the pool has a card with its id. *)
Definition restoreSaved (catalog : list Card.t) (simpleDeck : list Saved.t)
    : list Entry.t :=
  omap (λ item, match findCard catalog (Saved.id item) with
                | Some card => Some (Entry.mk card (Saved.count item))
                | None => None
                end) simpleDeck.

Section Persistence.
(** [JSON.stringify] on an array of saved items. *)
Variable stringify : list Saved.t → string.
(** [JSON.parse] of a stored text, read as an array of saved items whose
    counts are integers: the array, or the message of the exception that
    parsing or reading the value throws inside the [try] block. *)
Variable parse : string → string + list Saved.t.
(** The message of the exception of [localStorage.setItem] for a key and a
    value, when the storage refuses them. *)
Variable setItemError : string → string → option string.

Definition saveDeckToLocalStorage (deck : list Entry.t) (st : State) : State :=
  let simpleDeck := simpleDeckOf deck in
  let text := stringify simpleDeck in
  match setItemError "deckCards_k" text with
  | None => setItem "deckCards_k" text st
  | Some message => handleError message saveFailedMessage st
  end.

(** The watchers on [deckCards] and [deckName] run after the function and
    are not part of it. *)
Definition loadDeckFromLocalStorage (st : State) : State :=
  let savedDeck := localStorage st !! "deckCards_k" in
  let savedName := localStorage st !! "deckName_k" in
  let st :=
    match savedName with
    | Some name => if bool_decide (name = "") then st else setDeckName name st
    | None => st
    end in
  match savedDeck with
  | Some text =>
      if bool_decide (text = "") then st
      else match parse text with
           | inr simpleDeck =>
               setDeckCards (restoreSaved (availableCards st) simpleDeck) st
           | inl message =>
               removeItem "deckName_k"
                 (removeItem "deckCards_k" (handleError message loadFailedMessage st))
           end
  | None => st
  end.
End Persistence.

(** * Showing the code of the deck *)

Definition generateFailedMessage : string := "デッキコードの生成に失敗しました。".

(** [deckCode] is a ref of its own: its value is passed in, and is returned
    beside the state. *)
Definition generateAndShowDeckCode (deckCode : string) (st : State) : string * State :=
  match encodeDeckCode (deckCards st) with
  | Return code => (code, setShowDeckCodeModal true st)
  | Throw _ => (deckCode, alert generateFailedMessage st)
  end.

(** * Vocabulary of the properties *)

(** ** The invariants of a deck *)

Definition entryId (item : Entry.t) : string := Card.id (Entry.card item).

(** Every count is between 1 and 4, the counts add up to at most 60, no
    entry has count 0, and no two entries are for the same card id. *)
Record deckInvariant (deck : list Entry.t) : Prop := {
  inv_counts : Forall (λ item, 1 ≤ Entry.count item ≤ 4) deck;
  inv_total : totalOf deck ≤ 60;
  inv_no_zero : Forall (λ item, Entry.count item ≠ 0) deck;
  inv_one_entry : NoDup (entryId <$> deck)
}.

(** ** Sample data *)

Module Sample.
Definition cardA : Card.t :=
  Card.mk "AA-1" "Kaf" (JStr "Artist") (JStr "赤") (JArr [JStr "V.W.P"; JStr "花譜"]).
Definition cardB : Card.t :=
  Card.mk "AA-2" "Rim song" (JStr "Song") (JArr [JStr "青"; JStr "赤"]) JUndefined.
Definition cardC : Card.t :=
  Card.mk "AA-10" "Stage" (JStr "Direction") (JStr "設置") (JStr "VALIS").

Definition catalog : list Card.t := [cardA; cardB; cardC].

Definition cardX : Card.t :=
  Card.mk "X-1" "X" (JStr "Magic") (JStr "即時") (JArr []).
Definition cardY : Card.t :=
  Card.mk "Y-2" "Y" (JStr "Magic") (JStr "装備") (JArr []).
Definition catalogXY : list Card.t := [cardX; cardY].

(** A card whose id is the empty string. *)
Definition blankCard : Card.t :=
  Card.mk "" "blank" (JStr "Magic") (JStr "全") (JArr []).

Definition stateWith (deck : list Entry.t) : State :=
  mkState catalog deck defaultDeckName "" false ∅ [].

(** Two entries, the second at the limit of four copies. *)
Definition smallDeck : list Entry.t := [Entry.mk cardA 2; Entry.mk cardB 4].

(** Fifteen cards with the ids "A" to "O", four copies of each. *)
Definition fullDeck : list Entry.t :=
  (λ n, Entry.mk (Card.mk (String (ascii_of_nat (65 + n)) "") "filler"
                    (JStr "Magic") (JStr "即時") (JArr [])) 4)
    <$> seq 0 15.

(** A collation for the examples: the order of the bytes. *)
Fixpoint byteCompare (a b : string) : Z :=
  match a, b with
  | EmptyString, EmptyString => 0
  | EmptyString, String _ _ => -1
  | String _ _, EmptyString => 1
  | String x a', String y b' =>
      if (nat_of_ascii x <? nat_of_ascii y)%nat then -1
      else if (nat_of_ascii y <? nat_of_ascii x)%nat then 1
      else byteCompare a' b'
  end.

(** A lower-casing for the examples: the letters A-Z only. *)
Fixpoint asciiLower (s : string) : string :=
  match s with
  | EmptyString => EmptyString
  | String c rest =>
      let n := nat_of_ascii c in
      String (if (65 <=? n)%nat && (n <=? 90)%nat then ascii_of_nat (n + 32) else c)
             (asciiLower rest)
  end.
End Sample.

(** ** The deck code *)

(** The pair of an entry that a deck code carries. *)
Definition idCount (item : Entry.t) : string * Z := (entryId item, Entry.count item).

(** How often [id] occurs among [ids]. *)
Definition occurrences (id : string) (ids : list string) : Z :=
  Z.of_nat (length (filter (λ x, x = id) ids)).

(** The character [c] occurs in [s]. *)
Fixpoint hasChar (c : ascii) (s : string) : bool :=
  match s with
  | EmptyString => false
  | String x rest => Ascii.eqb x c || hasChar c rest
  end.

(** The ids of a deck, each as often as its count says. *)
Definition repeatedIds (deck : list Entry.t) : list string :=
  concat ((λ item, replicate (Z.to_nat (Entry.count item)) (entryId item)) <$> deck).

(** The entry that the loop of [decodeDeckCode] makes of an entry of the
    [Map], if any. *)
Definition restored (catalog : list Card.t) (entry : string * Z) : option Entry.t :=
  (λ card, Entry.mk card entry.2) <$> findCard catalog entry.1.

(** ** Runs of digits and of other characters *)

Fixpoint allChars (p : ascii → bool) (s : string) : bool :=
  match s with
  | EmptyString => true
  | String c rest => p c && allChars p rest
  end.

Definition nonEmpty (s : string) : bool :=
  match s with
  | EmptyString => false
  | String _ _ => true
  end.

(** A run of digits, and a run of characters that are not digits. *)
Definition digitRun (s : string) : bool := nonEmpty s && allChars isDigit s.
Definition nonDigitRun (s : string) : bool :=
  nonEmpty s && allChars (λ c, negb (isDigit c)) s.

(** The number that a string of digits denotes in base ten. *)
Fixpoint numericValueFrom (acc : Z) (s : string) : Z :=
  match s with
  | EmptyString => acc
  | String c rest => numericValueFrom (10 * acc + digitValue c) rest
  end.

Definition numericValue (s : string) : Z := numericValueFrom 0 s.

(** The string starts with one of the letters A to Z. *)
Definition startsUpper (s : string) : bool :=
  match s with
  | String c _ => (nat_of_ascii "A" <=? nat_of_ascii c)%nat &&
                  (nat_of_ascii c <=? nat_of_ascii "Z")%nat
  | EmptyString => false
  end.

Definition concatStrings (pieces : list string) : string :=
  foldr String.append "" pieces.

(** A run is not empty and all of its characters are of the class of its
    first one. *)
Definition uniform (t : string) : bool :=
  nonEmpty t && allChars (λ c, Bool.eqb (isDigit c) (headIsDigit t)) t.

(** Neighbouring runs are of different classes. *)
Fixpoint alternates (tokens : list string) : bool :=
  match tokens with
  | t :: (u :: _) as rest => negb (Bool.eqb (headIsDigit t) (headIsDigit u)) && alternates rest
  | _ => true
  end.

(** Two tokens between which [naturalSort] does not decide: equal tokens,
    and runs of digits of one value. *)
Definition tied (t u : string) : Prop :=
  t = u ∨ (digitRun t = true ∧ digitRun u = true ∧ numericValue t = numericValue u).

(** The value of a run of digits as the program has it: the double nearest
    to the number that the digits denote. *)
Definition roundedValue (s : string) : Z := toDouble (numericValue s).

(** Two tokens that the program cannot tell apart: equal tokens, and runs
    of digits whose values are the same double. *)
Definition sameNumber (t u : string) : Prop :=
  t = u ∨ (digitRun t = true ∧ digitRun u = true ∧ roundedValue t = roundedValue u).

(** ** Kinds and types *)

(** The types a card carries, as [getEarliestTypeIndex] reads them: none
    for a falsy [type], the elements of an array, the value itself
    otherwise. *)
Definition typesOf (cardTypes : jsval) : list jsval :=
  if truthy cardTypes
  then match cardTypes with JArr l => l | _ => [cardTypes] end
  else [].

(** The value is one of the strings of the enumeration. *)
Definition recognized (order : list string) (v : jsval) : Prop :=
  v ∈ JStr <$> order.

(** [t] is the type of the card that comes first in the enumeration of the
    types: a recognized type of the card, with no recognized type of the
    card before it. *)
Definition earliestType (cardTypes t : jsval) : Prop :=
  t ∈ typesOf cardTypes ∧ recognized allTypes t ∧
  ∀ u, u ∈ typesOf cardTypes → recognized allTypes u →
       indexOf allTypes t ≤ indexOf allTypes u.

(** ** The filter *)

(** The tags of a card that are strings; none when [tags] is not an
    array. *)
Definition tagStrings (card : Card.t) : list string :=
  match Card.tags card with
  | JArr tags => omap (λ tag, match tag with JStr s => Some s | _ => None end) tags
  | _ => []
  end.

(** [tags], when it is an array, holds strings only. *)
Definition tagsAreStrings (card : Card.t) : Prop :=
  match Card.tags card with
  | JArr tags => Forall (λ tag, ∃ s, tag = JStr s) tags
  | _ => True
  end.

(** The type or types of a card, as the filter reads them. *)
Definition cardTypes (card : Card.t) : list jsval :=
  match Card.type card with
  | JArr types => types
  | v => [v]
  end.

(** The value is the string [s]. *)
Definition isString (v : jsval) (s : string) : bool :=
  match v with
  | JStr x => bool_decide (x = s)
  | _ => false
  end.

Definition isEmpty {A} (l : list A) : bool :=
  match l with
  | [] => true
  | _ => false
  end.

(** The same card with another [tags] field. *)
Definition withTags (tags : jsval) (card : Card.t) : Card.t :=
  Card.mk (Card.id card) (Card.name card) (Card.kind card) (Card.type card) tags.

(** The three filters on kinds, types and tags: each is passed when its
    list is empty or holds a kind, type or tag of the card. *)
Definition setFilters (card : Card.t) (criteria : Criteria.t) : bool :=
  (isEmpty (Criteria.kind criteria) ||
   existsb (isString (Card.kind card)) (Criteria.kind criteria)) &&
  (isEmpty (Criteria.type criteria) ||
   existsb (λ type, existsb (isString type) (Criteria.type criteria)) (cardTypes card)) &&
  (isEmpty (Criteria.tags criteria) ||
   existsb (λ tag, bool_decide (tag ∈ Criteria.tags criteria)) (tagStrings card)).

Section Matches.
Variable toLowerCase : string → string.

(** [text] occurs in [s], the case of letters set aside. *)
Definition occursIn (text s : string) : bool :=
  includes (toLowerCase s) (toLowerCase text).

(** The contract of the filter, in the words of the specification: the
    text is empty or occurs in the name, the id or a tag; the kinds are
    empty or hold the kind of the card; the types are empty or hold a
    type of the card; the tags are empty or hold a tag of the card. *)
Definition matches (card : Card.t) (criteria : Criteria.t) : bool :=
  (bool_decide (Criteria.text criteria = "") ||
   occursIn (Criteria.text criteria) (Card.name card) ||
   occursIn (Criteria.text criteria) (Card.id card) ||
   existsb (occursIn (Criteria.text criteria)) (tagStrings card)) &&
  (isEmpty (Criteria.kind criteria) ||
   existsb (isString (Card.kind card)) (Criteria.kind criteria)) &&
  (isEmpty (Criteria.type criteria) ||
   existsb (λ type, existsb (isString type) (Criteria.type criteria)) (cardTypes card)) &&
  (isEmpty (Criteria.tags criteria) ||
   existsb (λ tag, bool_decide (tag ∈ Criteria.tags criteria)) (tagStrings card)).

(** What is left of the contract for a card without tags: the text is
    looked for in the name and the id only, and a filter on tags excludes
    the card. *)
Definition matchesWithoutTags (card : Card.t) (criteria : Criteria.t) : bool :=
  (bool_decide (toLowerCase (Criteria.text criteria) = "") ||
   occursIn (Criteria.text criteria) (Card.name card) ||
   occursIn (Criteria.text criteria) (Card.id card)) &&
  (isEmpty (Criteria.kind criteria) ||
   existsb (isString (Card.kind card)) (Criteria.kind criteria)) &&
  (isEmpty (Criteria.type criteria) ||
   existsb (λ type, existsb (isString type) (Criteria.type criteria)) (cardTypes card)) &&
  isEmpty (Criteria.tags criteria).
End Matches.

(** * Vocabulary of the further properties *)

(** Bounds that the five operations keep on any deck, also on one that
    breaks the limits of 4 and 60 (an imported deck): counts stay between 0
    and the bound they had, ids stay distinct, and the total does not rise
    above the larger of 60 and what it was. *)
Record looseInvariant (bound total : Z) (deck : list Entry.t) : Prop := {
  loose_counts : Forall (λ item, 0 ≤ Entry.count item ≤ bound) deck;
  loose_ids : NoDup (entryId <$> deck);
  loose_total : totalOf deck ≤ total
}.

(** The pieces of a deck code that are ids of catalog cards. *)
Definition knownIds (catalog : list Card.t) (code : string) : list string :=
  filter (λ id, is_Some (findCard catalog id)) (split "/" code).

(** ** A sort for the examples *)

Module SampleSort.
(** Insertion sort with a comparator, keeping the order of elements that
    compare as equal. *)
Fixpoint insert {A} (compare : A → A → Z) (x : A) (sorted : list A) : list A :=
  match sorted with
  | [] => [x]
  | y :: rest =>
      if compare x y <? 0 then x :: sorted else y :: insert compare x rest
  end.

Definition sort (A : Type) (compare : A → A → Z) (arr : list A) : list A :=
  foldr (insert compare) [] arr.

(** A sort without a comparator, for lists of strings. *)
Definition defaultSort (values : list jsval) : list jsval :=
  sort jsval (λ a b, match a, b with
                     | JStr x, JStr y => Sample.byteCompare x y
                     | _, _ => 0
                     end) values.

(** Cards with tags: the second repeats a tag of the first. *)
Definition taggedCards : list Card.t :=
  [withTags (JArr [JStr "zeta"; JStr "花譜"; JStr "alpha"]) Sample.cardB; Sample.cardA].
End SampleSort.

(** ** Tags *)

(** The strings among the values of a list. *)
Definition tagNames (values : list jsval) : list string :=
  omap (λ v, match v with JStr s => Some s | _ => None end) values.

(** ** A storage for the examples *)

Module SampleStorage.
Definition quote : string := String "034"%char "".

(** The text [{"id":<id>,"count":<count>}], the count given in digits. *)
Definition itemText (id count : string) : string :=
  "{" +:+ quote +:+ "id" +:+ quote +:+ ":" +:+ quote +:+ id +:+ quote +:+ "," +:+
  quote +:+ "count" +:+ quote +:+ ":" +:+ count +:+ "}".

Definition smallDeckText : string :=
  "[" +:+ itemText "AA-1" "2" +:+ "," +:+ itemText "AA-2" "4" +:+ "]".

Definition sameItem (a b : Saved.t) : bool :=
  bool_decide (Saved.id a = Saved.id b) && (Saved.count a =? Saved.count b).

Fixpoint sameItems (a b : list Saved.t) : bool :=
  match a, b with
  | [], [] => true
  | x :: a, y :: b => sameItem x y && sameItems a b
  | _, _ => false
  end.

(** A [JSON.stringify] and a [JSON.parse] that know the small deck and the
    empty deck. *)
Definition stringify (simpleDeck : list Saved.t) : string :=
  if sameItems simpleDeck (simpleDeckOf Sample.smallDeck) then smallDeckText else "[]".

Definition parse (text : string) : string + list Saved.t :=
  if bool_decide (text = smallDeckText) then inr (simpleDeckOf Sample.smallDeck)
  else if bool_decide (text = "[]") then inr []
  else inl "Unexpected token".

(** A storage with room. *)
Definition setItemError (key value : string) : option string := None.
End SampleStorage.

(** A state whose storage holds [text] as the saved deck. *)
Definition stateWithSaved (catalog : list Card.t) (text : string) : State :=
  mkState catalog [] defaultDeckName "" false {[ "deckCards_k" := text ]} [].

(** * Properties *)

(** ** Deck store *)

Lemma totalOf_from (deck : list Entry.t) (a : Z) :
  foldl (λ sum item, sum + Entry.count item) a deck = a + totalOf deck.
Proof.
  unfold totalOf. revert a.
  induction deck as [|item deck IH]; intros a; simpl; [lia|].
  rewrite (IH (a + Entry.count item)), (IH (0 + Entry.count item)). lia.
Qed.

Lemma totalOf_nil : totalOf [] = 0.
Proof. reflexivity. Qed.

Lemma totalOf_cons item deck : totalOf (item :: deck) = Entry.count item + totalOf deck.
Proof. unfold totalOf at 1. simpl. rewrite totalOf_from. lia. Qed.

Lemma totalOf_app deck1 deck2 : totalOf (deck1 ++ deck2) = totalOf deck1 + totalOf deck2.
Proof.
  induction deck1 as [|item deck1 IH]; simpl.
  - rewrite totalOf_nil. lia.
  - rewrite !totalOf_cons, IH. lia.
Qed.

Lemma totalOf_filter_le (P : Entry.t → Prop) `{∀ x, Decision (P x)} deck :
  Forall (λ item, 0 ≤ Entry.count item) deck →
  totalOf (filter P deck) ≤ totalOf deck.
Proof.
  induction 1 as [|item deck Hitem _ IH]; [done|].
  rewrite filter_cons. destruct (decide (P item)); rewrite !totalOf_cons; lia.
Qed.

(** What [find] and [findIndex] return: the first entry for the id, the
    entries before it being for other ids. *)
Lemma findEntry_Some cardId deck i item :
  findEntry cardId deck = Some (i, item) →
  ∃ before after,
    deck = before ++ item :: after ∧ length before = i ∧
    entryId item = cardId ∧
    Forall (λ other, entryId other ≠ cardId) before ∧
    ∀ f, alter f i deck = before ++ f item :: after.
Proof.
  unfold findEntry. intros (Hi & Hid & Hfirst)%list_find_Some.
  destruct (list_elem_of_split_length _ _ _ Hi) as (before & after & -> & ->).
  exists before, after. repeat split; try done.
  - apply Forall_forall. intros other Hother.
    apply list_elem_of_lookup in Hother as [j Hj].
    apply (Hfirst j).
    + rewrite lookup_app_l; [done|]. by eapply lookup_lt_Some.
    + by eapply lookup_lt_Some.
  - intros f. rewrite alter_app_r_alt by lia.
    by replace (length before - length before)%nat with 0%nat by lia.
Qed.

Lemma findEntry_None cardId deck :
  findEntry cardId deck = None ↔ cardId ∉ entryId <$> deck.
Proof.
  unfold findEntry. rewrite list_find_None, Forall_forall, list_elem_of_fmap.
  split.
  - intros Hno (item & -> & Hin). by apply (Hno item).
  - intros Hno item Hin Hid. apply Hno. exists item. by rewrite <- Hid.
Qed.

(** Changing the count of one entry keeps the ids; the invariants then
    depend on the new count and the new total only. *)
Lemma deckInvariant_change_count before item after n :
  deckInvariant (before ++ item :: after) →
  1 ≤ n ≤ 4 →
  totalOf (before ++ Entry.mk (Entry.card item) n :: after) ≤ 60 →
  deckInvariant (before ++ Entry.mk (Entry.card item) n :: after).
Proof.
  intros [Hc Ht Hz Hd] Hn Htotal.
  apply Forall_app in Hc as [Hc1 Hc2]. apply Forall_cons in Hc2 as [_ Hc2].
  apply Forall_app in Hz as [Hz1 Hz2]. apply Forall_cons in Hz2 as [_ Hz2].
  split.
  - apply Forall_app; split; [done|]. by apply Forall_cons.
  - done.
  - apply Forall_app; split; [done|]. apply Forall_cons; split; [simpl; lia|done].
  - by rewrite fmap_app, fmap_cons in *.
Qed.

Lemma deckInvariant_nil : deckInvariant [].
Proof.
  split; try by constructor.
  rewrite totalOf_nil. lia.
Qed.

Lemma Forall_filter_keep {A} (Q P : A → Prop) `{∀ x, Decision (P x)} (l : list A) :
  Forall Q l → Forall Q (filter P l).
Proof.
  rewrite !Forall_forall. intros HQ x [_ Hx]%list_elem_of_filter. by apply HQ.
Qed.

Lemma deckInvariant_filter (P : Entry.t → Prop) `{∀ x, Decision (P x)} deck :
  deckInvariant deck → deckInvariant (filter P deck).
Proof.
  intros [Hc Ht Hz Hd]. split.
  - by apply Forall_filter_keep.
  - etrans; [|exact Ht]. apply totalOf_filter_le.
    eapply Forall_impl; [exact Hc|]. simpl. lia.
  - by apply Forall_filter_keep.
  - eapply sublist_NoDup; [exact Hd|].
    apply fmap_sublist, sublist_filter.
Qed.

Lemma deckInvariant_push deck card :
  deckInvariant deck →
  totalOf deck < 60 →
  Card.id card ∉ entryId <$> deck →
  deckInvariant (deck ++ [Entry.mk card 1]).
Proof.
  intros [Hc Ht Hz Hd] Hroom Hfresh. split.
  - apply Forall_app; split; [done|]. apply Forall_singleton. simpl. lia.
  - rewrite totalOf_app, totalOf_cons, totalOf_nil. simpl. lia.
  - apply Forall_app; split; [done|]. by apply Forall_singleton.
  - rewrite fmap_app. apply NoDup_app. repeat split; [done| |].
    + intros x Hx ->%list_elem_of_singleton. done.
    + apply NoDup_singleton.
Qed.

Lemma addCardToDeck_invariant card st :
  deckInvariant (deckCards st) → deckInvariant (deckCards (addCardToDeck card st)).
Proof.
  intros Hinv. unfold addCardToDeck, totalDeckCards.
  case_bool_decide as Hfull; [done|].
  destruct (findEntry (Card.id card) (deckCards st)) as [[i item]|] eqn:Hfind.
  - case_bool_decide as Hcount; [|done]. simpl.
    destruct (findEntry_Some _ _ _ _ Hfind) as (before & after & Hdeck & _ & _ & _ & Halter).
    rewrite Halter. rewrite Hdeck in Hinv, Hfull.
    assert (1 ≤ Entry.count item) as Hlow.
    { destruct Hinv as [Hc _ _ _].
      apply Forall_app in Hc as [_ Hc]. apply Forall_cons in Hc as [Hc _]. lia. }
    apply deckInvariant_change_count; [done|lia|].
    rewrite totalOf_app, totalOf_cons in *. simpl. lia.
  - simpl. apply deckInvariant_push; [done|lia|]. by apply findEntry_None.
Qed.

Lemma incrementCardCount_invariant cardId st :
  deckInvariant (deckCards st) → deckInvariant (deckCards (incrementCardCount cardId st)).
Proof.
  intros Hinv. unfold incrementCardCount, totalDeckCards.
  case_bool_decide as Hfull; [done|].
  destruct (findEntry cardId (deckCards st)) as [[i item]|] eqn:Hfind; [|done].
  case_bool_decide as Hcount; [|done]. simpl.
  destruct (findEntry_Some _ _ _ _ Hfind) as (before & after & Hdeck & _ & _ & _ & Halter).
  rewrite Halter. rewrite Hdeck in Hinv, Hfull.
  assert (1 ≤ Entry.count item) as Hlow.
  { destruct Hinv as [Hc _ _ _].
    apply Forall_app in Hc as [_ Hc]. apply Forall_cons in Hc as [Hc _]. lia. }
  apply deckInvariant_change_count; [done|lia|].
  rewrite totalOf_app, totalOf_cons in *. simpl. lia.
Qed.

Lemma removeCardFromDeck_invariant cardId st :
  deckInvariant (deckCards st) → deckInvariant (deckCards (removeCardFromDeck cardId st)).
Proof. intros Hinv. unfold removeCardFromDeck. simpl. by apply deckInvariant_filter. Qed.

Lemma decrementCardCount_invariant cardId st :
  deckInvariant (deckCards st) → deckInvariant (deckCards (decrementCardCount cardId st)).
Proof.
  intros Hinv. unfold decrementCardCount.
  destruct (findEntry cardId (deckCards st)) as [[i item]|] eqn:Hfind; [|done].
  case_bool_decide as Hcount.
  - simpl.
    destruct (findEntry_Some _ _ _ _ Hfind) as (before & after & Hdeck & _ & _ & _ & Halter).
    rewrite Halter. rewrite Hdeck in Hinv.
    assert (Entry.count item ≤ 4) as Hhigh.
    { destruct Hinv as [Hc _ _ _].
      apply Forall_app in Hc as [_ Hc]. apply Forall_cons in Hc as [Hc _]. lia. }
    apply deckInvariant_change_count; [done|lia|].
    destruct Hinv as [_ Ht _ _].
    rewrite totalOf_app, totalOf_cons in *. simpl. lia.
  - case_bool_decide; [|done]. by apply removeCardFromDeck_invariant.
Qed.

Lemma resetDeck_invariant confirmed st :
  deckInvariant (deckCards st) → deckInvariant (deckCards (resetDeck confirmed st)).
Proof.
  intros Hinv. destruct confirmed; [|done]. simpl. apply deckInvariant_nil.
Qed.

Lemma step_invariant st op :
  deckInvariant (deckCards st) → deckInvariant (deckCards (step st op)).
Proof.
  intros Hinv. destruct op; cbn [step].
  - by apply addCardToDeck_invariant.
  - by apply incrementCardCount_invariant.
  - by apply decrementCardCount_invariant.
  - by apply removeCardFromDeck_invariant.
  - by apply resetDeck_invariant.
Qed.

(** C1. From a deck that satisfies the invariants (every count in 1..4,
    total at most 60, no entry of count 0, at most one entry per card id),
    every sequence of [addCardToDeck], [incrementCardCount],
    [decrementCardCount], [removeCardFromDeck] and [resetDeck] leads to a
    deck that satisfies them. *)
Theorem store_operations_preserve_invariants (ops : list Op) (st : State) :
  deckInvariant (deckCards st) → deckInvariant (deckCards (run ops st)).
Proof.
  unfold run. revert st.
  induction ops as [|op ops IH]; intros st Hinv; simpl; [done|].
  apply IH. by apply step_invariant.
Qed.

Lemma store_operations_preserve_invariants_witness :
  let cardA := Card.mk "AA-1" "a" (JStr "Song") (JStr "赤") (JArr [JStr "花譜"]) in
  let cardB := Card.mk "AA-2" "b" (JStr "Artist") (JArr [JStr "青"]) JUndefined in
  let st := mkState [cardA; cardB] [Entry.mk cardA 4; Entry.mk cardB 1]
              defaultDeckName "" false ∅ [] in
  let ops := [AddCard cardA; AddCard cardB; Decrement "AA-1"; Increment "AA-2";
              Decrement "AA-2"; Decrement "AA-2"; Decrement "AA-2";
              Remove "AA-1"; Reset false; AddCard cardB] in
  deckInvariant (deckCards st) ∧ deckInvariant (deckCards (run ops st)).
Proof.
  assert (deckInvariant
            [Entry.mk (Card.mk "AA-1" "a" (JStr "Song") (JStr "赤") (JArr [JStr "花譜"])) 4;
             Entry.mk (Card.mk "AA-2" "b" (JStr "Artist") (JArr [JStr "青"]) JUndefined) 1])
    as Hstart.
  { split.
    - repeat constructor; simpl; lia.
    - vm_compute. discriminate.
    - repeat constructor; simpl; lia.
    - simpl. apply NoDup_cons. split; [|apply NoDup_singleton].
      intros Hsame%list_elem_of_singleton. discriminate. }
  split; [exact Hstart|].
  apply store_operations_preserve_invariants. exact Hstart.
Defined.

Lemma findEntry_first cardId deck i item :
  deck !! i = Some item →
  entryId item = cardId →
  (∀ j other, deck !! j = Some other → (j < i)%nat → entryId other ≠ cardId) →
  findEntry cardId deck = Some (i, item).
Proof. intros Hi Hid Hfirst. unfold findEntry. by apply list_find_Some. Qed.

Lemma alter_found {A} (f : A → A) (l : list A) i x :
  l !! i = Some x → alter f i l = <[i := f x]> l.
Proof.
  intros Hi. rewrite list_insert_alter.
  apply list_alter_ext; [|done]. intros y Hy. congruence.
Qed.

Lemma addCardToDeck_empty card st :
  addCardToDeck card (setDeckCards [] st) = setDeckCards [Entry.mk card 1] st.
Proof. reflexivity. Qed.

Lemma addCardToDeck_single card n st :
  n < 60 →
  addCardToDeck card (setDeckCards [Entry.mk card n] st) =
    setDeckCards [Entry.mk card (if bool_decide (n < 4) then n + 1 else n)] st.
Proof.
  intros Hn. unfold addCardToDeck, totalDeckCards, findEntry.
  cbn [deckCards setDeckCards]. rewrite totalOf_cons, totalOf_nil.
  rewrite bool_decide_eq_false_2 by (simpl; lia).
  cbn [list_find Entry.card Entry.count fmap option_fmap option_map].
  rewrite decide_True by done.
  cbn [Entry.count]. by destruct (bool_decide (n < 4)).
Qed.

(** C3. [addCardToDeck(card)]: with 60 cards or more in the deck it shows
    the capacity message and changes nothing else; otherwise, when the deck
    has an entry for the id of the card (the first one, at position [i]),
    the count of that entry goes up by one if it is below 4 and nothing at
    all happens if it is 4; otherwise an entry of count 1 is appended.
    Five calls with one card on an empty deck leave the single entry of
    count 4, the fifth call changing nothing. *)
Theorem addCardToDeck_spec (card : Card.t) (st : State) :
  (60 ≤ totalDeckCards st →
     addCardToDeck card st = alert deckFullMessage st ∧
     deckCards (addCardToDeck card st) = deckCards st ∧
     alerts (addCardToDeck card st) = alerts st ++ [deckFullMessage]) ∧
  (totalDeckCards st < 60 →
     ∀ i item,
       deckCards st !! i = Some item →
       entryId item = Card.id card →
       (∀ j other, deckCards st !! j = Some other → (j < i)%nat →
                   entryId other ≠ Card.id card) →
       (Entry.count item < 4 →
          deckCards (addCardToDeck card st) =
            <[i := Entry.mk (Entry.card item) (Entry.count item + 1)]> (deckCards st) ∧
          alerts (addCardToDeck card st) = alerts st) ∧
       (Entry.count item = 4 → addCardToDeck card st = st)) ∧
  (totalDeckCards st < 60 →
     Card.id card ∉ entryId <$> deckCards st →
     deckCards (addCardToDeck card st) = deckCards st ++ [Entry.mk card 1] ∧
     alerts (addCardToDeck card st) = alerts st) ∧
  (let empty := setDeckCards [] st in
   let four := run (replicate 4 (AddCard card)) empty in
   deckCards four = [Entry.mk card 4] ∧
   addCardToDeck card four = four ∧
   deckCards (run (replicate 5 (AddCard card)) empty) = [Entry.mk card 4]).
Proof.
  split; [|split; [|split]].
  - intros Hfull. unfold addCardToDeck.
    by rewrite bool_decide_eq_true_2.
  - intros Hroom i item Hi Hid Hfirst.
    unfold addCardToDeck.
    rewrite bool_decide_eq_false_2 by lia.
    rewrite (findEntry_first _ _ i item) by done.
    split; intros Hcount.
    + rewrite bool_decide_eq_true_2 by done. simpl.
      split; [|done]. by rewrite (alter_found _ _ i item).
    + by rewrite bool_decide_eq_false_2 by lia.
  - intros Hroom Hfresh. unfold addCardToDeck.
    rewrite bool_decide_eq_false_2 by lia.
    by rewrite (proj2 (findEntry_None _ _)) by done.
  - unfold run. cbn [replicate foldl step].
    rewrite addCardToDeck_empty.
    rewrite !addCardToDeck_single by (by vm_compute).
    vm_compute. done.
Qed.

Lemma addCardToDeck_spec_witness :
  (60 ≤ totalDeckCards (Sample.stateWith Sample.fullDeck) ∧
   deckCards (addCardToDeck Sample.cardA (Sample.stateWith Sample.fullDeck)) = Sample.fullDeck) ∧
  (totalDeckCards (Sample.stateWith Sample.smallDeck) < 60 ∧
   deckCards (addCardToDeck Sample.cardA (Sample.stateWith Sample.smallDeck)) =
     [Entry.mk Sample.cardA 3; Entry.mk Sample.cardB 4]) ∧
  addCardToDeck Sample.cardB (Sample.stateWith Sample.smallDeck) =
    Sample.stateWith Sample.smallDeck ∧
  deckCards (addCardToDeck Sample.cardC (Sample.stateWith Sample.smallDeck)) =
    [Entry.mk Sample.cardA 2; Entry.mk Sample.cardB 4; Entry.mk Sample.cardC 1].
Proof.
  assert (totalDeckCards (Sample.stateWith Sample.smallDeck) < 60) as Hroom
    by (vm_compute; reflexivity).
  split; [|split; [|split]].
  - destruct (addCardToDeck_spec Sample.cardA (Sample.stateWith Sample.fullDeck))
      as (Hfull & _).
    assert (60 ≤ totalDeckCards (Sample.stateWith Sample.fullDeck)) as H60
      by (vm_compute; discriminate).
    split; [exact H60|]. exact (proj1 (proj2 (Hfull H60))).
  - destruct (addCardToDeck_spec Sample.cardA (Sample.stateWith Sample.smallDeck))
      as (_ & Hexisting & _).
    split; [exact Hroom|].
    refine (proj1 (proj1 (Hexisting Hroom 0%nat (Entry.mk Sample.cardA 2) _ _ _) _)).
    + reflexivity.
    + reflexivity.
    + intros j other _ Hj. lia.
    + simpl. lia.
  - destruct (addCardToDeck_spec Sample.cardB (Sample.stateWith Sample.smallDeck))
      as (_ & Hexisting & _).
    refine (proj2 (Hexisting Hroom 1%nat (Entry.mk Sample.cardB 4) _ _ _) _).
    + reflexivity.
    + reflexivity.
    + intros [|j] other Hother Hj; [|lia].
      simpl in Hother. injection Hother as <-. vm_compute. discriminate.
    + reflexivity.
  - destruct (addCardToDeck_spec Sample.cardC (Sample.stateWith Sample.smallDeck))
      as (_ & _ & Hfresh & _).
    refine (proj1 (Hfresh Hroom _)).
    simpl. intros Hin. repeat (apply elem_of_cons in Hin as [Hin|Hin]; [discriminate|]).
    by apply elem_of_nil in Hin.
Defined.

(** ** Deck code *)

Lemma orZero_Some v : orZero (Some v) = v.
Proof. unfold orZero. destruct (Z.eqb_spec v 0); congruence. Qed.

Lemma mapGet_mapSet m key value key' :
  mapGet (mapSet m key value) key' =
    if bool_decide (key = key') then Some value else mapGet m key'.
Proof.
  induction m as [|[k v] m IH]; simpl.
  - done.
  - destruct (bool_decide_reflect (k = key)) as [->|Hk]; simpl.
    + by destruct (bool_decide (key = key')).
    + rewrite IH. destruct (bool_decide_reflect (k = key')) as [->|Hk']; [|done].
      by rewrite bool_decide_eq_false_2.
Qed.

Lemma mapGet_None m key : mapGet m key = None ↔ key ∉ m.*1.
Proof.
  induction m as [|[k v] m IH]; simpl.
  - split; [|done]. intros _ Hin. by apply elem_of_nil in Hin.
  - rewrite not_elem_of_cons.
    destruct (bool_decide_reflect (k = key)) as [->|Hk].
    + split; [done|]. by intros [Hne _].
    + rewrite IH. split; [|by intros [_ Hin]]. intros Hin. split; [congruence|done].
Qed.

Lemma mapGet_elem_of m key value :
  NoDup m.*1 → (key, value) ∈ m ↔ mapGet m key = Some value.
Proof.
  induction m as [|[k v] m IH]; simpl; intros Hnd.
  - split; [|done]. intros Hin. by apply elem_of_nil in Hin.
  - apply NoDup_cons in Hnd as [Hk Hnd]. rewrite elem_of_cons, (IH Hnd).
    destruct (bool_decide_reflect (k = key)) as [->|Hne].
    + split.
      * intros [Heq|Hget]; [congruence|].
        exfalso. apply Hk. apply (proj2 (IH Hnd)) in Hget.
        by apply (list_elem_of_fmap_2 fst) in Hget.
      * intros [= ->]. by left.
    + split.
      * intros [Heq|Hget]; [congruence|done].
      * intros Hget. by right.
Qed.

Lemma keys_mapSet m key value :
  (mapSet m key value).*1 = if bool_decide (key ∈ m.*1) then m.*1 else m.*1 ++ [key].
Proof.
  induction m as [|[k v] m IH]; [done|].
  cbn [mapSet]. rewrite fmap_cons. cbn [fst].
  destruct (bool_decide_reflect (k = key)) as [->|Hk].
  - rewrite fmap_cons. cbn [fst].
    rewrite bool_decide_eq_true_2; [done|]. apply elem_of_cons; by left.
  - rewrite fmap_cons, IH. cbn [fst].
    destruct (bool_decide_reflect (key ∈ m.*1)) as [Hin|Hin].
    + rewrite bool_decide_eq_true_2; [done|]. apply elem_of_cons; by right.
    + rewrite bool_decide_eq_false_2; [done|].
      rewrite not_elem_of_cons. split; [congruence|done].
Qed.

Lemma keys_countStep_NoDup m id : NoDup m.*1 → NoDup (countStep m id).*1.
Proof.
  intros Hnd. unfold countStep. rewrite keys_mapSet.
  case_bool_decide as Hin; [done|].
  apply NoDup_app. repeat split; [done| |apply NoDup_singleton].
  intros x Hx ->%list_elem_of_singleton. done.
Qed.

Lemma keys_count_NoDup ids m : NoDup m.*1 → NoDup (foldl countStep m ids).*1.
Proof.
  revert m. induction ids as [|id ids IH]; intros m Hnd; simpl; [done|].
  by apply IH, keys_countStep_NoDup.
Qed.

Lemma occurrences_cons id x ids :
  occurrences id (x :: ids) = (if bool_decide (x = id) then 1 else 0) + occurrences id ids.
Proof.
  unfold occurrences. rewrite filter_cons.
  destruct (decide (x = id)) as [Heq|Hne].
  - rewrite bool_decide_eq_true_2 by done. simpl. lia.
  - rewrite bool_decide_eq_false_2 by done. lia.
Qed.

Lemma occurrences_absent id ids : id ∉ ids → occurrences id ids = 0.
Proof.
  induction ids as [|x ids IH]; intros Hin; [done|].
  apply not_elem_of_cons in Hin as [Hne Hin].
  rewrite occurrences_cons, IH by done.
  by rewrite bool_decide_eq_false_2 by congruence.
Qed.

(** The state of the [Map] after the [forEach]: each id that occurred is
    mapped to what it had before plus its number of occurrences. *)
Lemma mapGet_count ids m key :
  mapGet (foldl countStep m ids) key =
    if bool_decide (key ∈ ids)
    then Some (orZero (mapGet m key) + occurrences key ids)
    else mapGet m key.
Proof.
  revert m. induction ids as [|id ids IH]; intros m; simpl.
  - done.
  - rewrite IH. unfold countStep at 1 2. rewrite mapGet_mapSet, occurrences_cons.
    destruct (bool_decide_reflect (id = key)) as [->|Hne].
    + rewrite orZero_Some.
      rewrite (bool_decide_eq_true_2 (key ∈ key :: ids)) by (apply elem_of_cons; by left).
      case_bool_decide as Hin.
      * f_equal; lia.
      * rewrite occurrences_absent by done. f_equal; lia.
    + destruct (bool_decide_reflect (key ∈ ids)) as [Hin|Hin].
      * rewrite bool_decide_eq_true_2 by (apply elem_of_cons; by right).
        f_equal; lia.
      * rewrite bool_decide_eq_false_2; [done|].
        rewrite not_elem_of_cons. split; [congruence|done].
Qed.

(** The entries of the [Map] built by [decodeDeckCode]: one for each
    distinct id of the code, with its number of occurrences. *)
Lemma countIds_elem_of ids key value :
  (key, value) ∈ countIds ids ↔ key ∈ ids ∧ value = occurrences key ids.
Proof.
  unfold countIds.
  rewrite mapGet_elem_of by (apply keys_count_NoDup; constructor).
  rewrite mapGet_count. simpl.
  case_bool_decide as Hin.
  - split; [intros [= <-]; split; [done|lia]|]. intros [_ ->]. f_equal; lia.
  - split; [done|]. by intros [? _].
Qed.

Lemma countIds_NoDup ids : NoDup (countIds ids).*1.
Proof. apply keys_count_NoDup. constructor. Qed.

Lemma findCard_Some catalog cardId card :
  findCard catalog cardId = Some card → Card.id card = cardId ∧ card ∈ catalog.
Proof.
  unfold findCard. destruct (list_find _ catalog) as [[i c]|] eqn:Hfind; [|done].
  intros [= <-]. apply list_find_Some in Hfind as (Hi & Hid & _).
  split; [done|]. by eapply list_elem_of_lookup_2.
Qed.

Lemma findCard_None catalog cardId :
  findCard catalog cardId = None ↔ cardId ∉ Card.id <$> catalog.
Proof.
  unfold findCard. destruct (list_find _ catalog) as [[i c]|] eqn:Hfind; simpl.
  - apply list_find_Some in Hfind as (Hi & Hid & _).
    split; [done|]. intros Hno. exfalso. apply Hno.
    apply list_elem_of_fmap. exists c. split; [done|]. by eapply list_elem_of_lookup_2.
  - apply list_find_None in Hfind. split; [|done]. intros _.
    rewrite list_elem_of_fmap. intros (c & -> & Hc).
    rewrite Forall_forall in Hfind. by apply (Hfind c).
Qed.

Lemma restoreCards_from catalog cardCounts cards :
  foldl (restoreStep catalog) cards cardCounts =
    cards ++ omap (restored catalog) cardCounts.
Proof.
  revert cards. induction cardCounts as [|entry cardCounts IH]; intros cards; simpl.
  - by rewrite app_nil_r.
  - rewrite IH. unfold restoreStep, restored.
    destruct (findCard catalog entry.1); simpl; [|done].
    by rewrite <- app_assoc.
Qed.

Lemma restoreCards_omap catalog cardCounts :
  restoreCards catalog cardCounts = omap (restored catalog) cardCounts.
Proof. unfold restoreCards. by rewrite restoreCards_from. Qed.

Lemma restored_id catalog entry item :
  restored catalog entry = Some item → entryId item = entry.1.
Proof.
  unfold restored. destruct (findCard catalog entry.1) as [card|] eqn:Hfind; [|done].
  intros [= <-]. unfold entryId. simpl. by apply findCard_Some in Hfind as [? _].
Qed.

Lemma restoreCards_NoDup catalog cardCounts :
  NoDup cardCounts.*1 → NoDup (entryId <$> restoreCards catalog cardCounts).
Proof.
  rewrite restoreCards_omap.
  induction cardCounts as [|entry cardCounts IH]; intros Hnd; [constructor|].
  rewrite fmap_cons in Hnd. apply NoDup_cons in Hnd as [Hfresh Hnd].
  cbn [omap list_omap].
  destruct (restored catalog entry) as [item|] eqn:Hitem; [|by apply IH].
  rewrite fmap_cons. apply NoDup_cons. split; [|by apply IH].
  rewrite (restored_id _ _ _ Hitem).
  intros (other & Hid & Hother)%list_elem_of_fmap.
  apply list_elem_of_omap in Hother as (entry' & Hin & Hrestored).
  apply restored_id in Hrestored. apply Hfresh.
  apply list_elem_of_fmap. exists entry'. split; [congruence|done].
Qed.

Lemma decodeDeckCode_elem_of catalog code item :
  item ∈ decodeDeckCode catalog code ↔
  ∃ id, id ∈ split "/" code ∧
        findCard catalog id = Some (Entry.card item) ∧
        Entry.count item = occurrences id (split "/" code).
Proof.
  unfold decodeDeckCode. rewrite restoreCards_omap, list_elem_of_omap. split.
  - intros ([id n] & Hin & Hitem). apply countIds_elem_of in Hin as [Hin ->].
    exists id. unfold restored in Hitem. simpl in Hitem.
    destruct (findCard catalog id) as [card|]; [|done].
    injection Hitem as <-. done.
  - intros (id & Hin & Hcard & Hcount).
    exists (id, occurrences id (split "/" code)). split.
    + by apply countIds_elem_of.
    + unfold restored. simpl. rewrite Hcard. simpl.
      destruct item as [card n]. simpl in *. by rewrite Hcount.
Qed.

Lemma decodeDeckCode_nil catalog code :
  decodeDeckCode catalog code = [] ↔
  ∀ id, id ∈ split "/" code → findCard catalog id = None.
Proof.
  split.
  - intros Hnil id Hin.
    destruct (findCard catalog id) as [card|] eqn:Hcard; [|done].
    assert (Entry.mk card (occurrences id (split "/" code)) ∈ decodeDeckCode catalog code)
      as Hitem by (apply decodeDeckCode_elem_of; eauto).
    rewrite Hnil in Hitem. by apply elem_of_nil in Hitem.
  - intros Hnone. destruct (decodeDeckCode catalog code) as [|item items] eqn:Hdec; [done|].
    assert (item ∈ decodeDeckCode catalog code) as Hitem
      by (rewrite Hdec; apply elem_of_cons; by left).
    apply decodeDeckCode_elem_of in Hitem as (id & Hin & Hcard & _).
    rewrite (Hnone id Hin) in Hcard. done.
Qed.

Lemma split_no_sep sep s : hasChar sep s = false → split sep s = [s].
Proof.
  induction s as [|c s IH]; simpl; [done|].
  intros [Hc Hs]%orb_false_iff. rewrite Hc, (IH Hs). done.
Qed.

Lemma split_app_sep sep s rest :
  hasChar sep s = false → split sep (s +:+ String sep rest) = s :: split sep rest.
Proof.
  induction s as [|c s IH]; simpl.
  - intros _. by rewrite Ascii.eqb_refl.
  - intros [Hc Hs]%orb_false_iff. rewrite Hc, (IH Hs). done.
Qed.

(** Splitting undoes joining, for a list that is not empty and whose
    strings are free of the separator. *)
Lemma split_join sep (arr : list string) :
  arr ≠ [] →
  Forall (λ s, hasChar sep s = false) arr →
  split sep (join (String sep "") arr) = arr.
Proof.
  intros Hne Hfree. induction Hfree as [|x arr Hx Hfree IH]; [done|].
  destruct arr as [|y arr].
  - simpl. by apply split_no_sep.
  - cbn [join]. change (String sep "" +:+ ?r) with (String sep r).
    rewrite split_app_sep by done. f_equal. by apply IH.
Qed.

Lemma countStep_fresh m id : id ∉ m.*1 → countStep m id = m ++ [(id, 1)].
Proof.
  intros Hfresh. unfold countStep.
  rewrite (proj2 (mapGet_None m id) Hfresh). simpl.
  induction m as [|[k v] m IH]; [done|].
  rewrite fmap_cons in Hfresh. apply not_elem_of_cons in Hfresh as [Hne Hfresh].
  cbn [mapSet]. rewrite bool_decide_eq_false_2 by (simpl in Hne; congruence).
  by rewrite IH.
Qed.

Lemma countStep_last m id n :
  id ∉ m.*1 → countStep (m ++ [(id, n)]) id = m ++ [(id, n + 1)].
Proof.
  intros Hfresh. unfold countStep.
  induction m as [|[k v] m IH].
  - simpl. rewrite !bool_decide_eq_true_2 by done. by rewrite orZero_Some.
  - rewrite fmap_cons in Hfresh. apply not_elem_of_cons in Hfresh as [Hne Hfresh].
    simpl in Hne. cbn [app mapGet mapSet].
    rewrite !bool_decide_eq_false_2 by congruence.
    by rewrite IH.
Qed.

Lemma count_replicate_last m id n k :
  id ∉ m.*1 →
  foldl countStep (m ++ [(id, n)]) (replicate k id) = m ++ [(id, n + Z.of_nat k)].
Proof.
  intros Hfresh. revert n. induction k as [|k IH]; intros n; simpl.
  - by rewrite Z.add_0_r.
  - rewrite countStep_last by done. rewrite IH. do 3 f_equal. lia.
Qed.

(** A run of one id that the [Map] has not seen yet adds one entry at the
    end, with the length of the run. *)
Lemma count_replicate_fresh m id k :
  id ∉ m.*1 → (0 < k)%nat →
  foldl countStep m (replicate k id) = m ++ [(id, Z.of_nat k)].
Proof.
  intros Hfresh Hk. destruct k as [|k]; [lia|]. simpl.
  rewrite countStep_fresh by done. rewrite count_replicate_last by done.
  do 3 f_equal. lia.
Qed.

Lemma count_repeatedIds deck m :
  NoDup (m.*1 ++ (entryId <$> deck)) →
  Forall (λ item, 1 ≤ Entry.count item) deck →
  foldl countStep m (repeatedIds deck) = m ++ (idCount <$> deck).
Proof.
  intros Hnd Hcounts. revert m Hnd.
  induction Hcounts as [|item deck Hitem _ IH]; intros m Hnd.
  - simpl. by rewrite app_nil_r.
  - unfold repeatedIds. rewrite fmap_cons. cbn [concat]. rewrite foldl_app.
    fold (repeatedIds deck).
    rewrite fmap_cons in Hnd.
    rewrite count_replicate_fresh; [| |lia].
    + rewrite IH.
      * rewrite <- app_assoc. simpl. unfold idCount at 2.
        by rewrite Z2Nat.id by lia.
      * rewrite fmap_app. simpl. by rewrite <- app_assoc.
    + apply NoDup_app in Hnd as (_ & Hdisj & _).
      intros Hin. apply (Hdisj _ Hin). apply elem_of_cons. by left.
Qed.

Lemma encodeDeckCode_ok deck :
  Forall (λ item, 0 ≤ Entry.count item < 2 ^ 32) deck →
  encodeDeckCode deck = Return (join "/" (repeatedIds deck)).
Proof.
  intros Hcounts. unfold encodeDeckCode.
  assert (flatMap (λ item, arrayFill (Entry.count item) (Card.id (Entry.card item))) deck
          = Return (repeatedIds deck)) as ->; [|done].
  induction Hcounts as [|item deck Hitem _ IH]; [done|].
  cbn [flatMap]. rewrite IH. unfold arrayFill.
  by rewrite bool_decide_eq_true_2 by done.
Qed.

Lemma repeatedIds_no_sep sep deck :
  Forall (λ item, hasChar sep (entryId item) = false) deck →
  Forall (λ s, hasChar sep s = false) (repeatedIds deck).
Proof.
  induction 1 as [|item deck Hitem _ IH]; [constructor|].
  unfold repeatedIds. rewrite fmap_cons. cbn [concat].
  apply Forall_app. split; [|done]. by apply Forall_replicate.
Qed.

Lemma restoreCards_idCount catalog deck :
  Forall (λ item, is_Some (findCard catalog (entryId item))) deck →
  idCount <$> restoreCards catalog (idCount <$> deck) = idCount <$> deck.
Proof.
  rewrite restoreCards_omap.
  induction 1 as [|item deck [card Hcard] _ IH]; [done|].
  rewrite fmap_cons. cbn [omap list_omap].
  change (restored catalog (idCount item))
    with ((λ card, Entry.mk card (Entry.count item)) <$> findCard catalog (entryId item)).
  rewrite Hcard. cbn [fmap option_fmap option_map].
  rewrite fmap_cons, IH. f_equal.
  unfold idCount, entryId. simpl. by apply findCard_Some in Hcard as [-> _].
Qed.

(** C4. [decodeDeckCode] splits the code at the slashes and counts each
    id; its result has exactly one entry for each distinct id that the
    catalog knows, holding the card found and the number of occurrences of
    the id; an id that the catalog does not know gives no entry; the counts
    are not cut at 4 or 60 (a run of [n] ids gives the count [n], whatever
    [n]).  "X-1/X-1/Y-2" decodes to X-1 twice and Y-2 once, and "Z-9" to
    nothing when the catalog has no such card. *)
Theorem decodeDeckCode_spec (catalog : list Card.t) (code : string) :
  let ids := split "/" code in
  let cards := decodeDeckCode catalog code in
  NoDup (entryId <$> cards) ∧
  (∀ item, item ∈ cards ↔
     ∃ id, id ∈ ids ∧ findCard catalog id = Some (Entry.card item) ∧
           entryId item = id ∧ Entry.count item = occurrences id ids) ∧
  (∀ id, findCard catalog id = None → id ∉ entryId <$> cards) ∧
  (∀ card n,
     (0 < n)%nat → hasChar "/" (Card.id card) = false →
     findCard catalog (Card.id card) = Some card →
     decodeDeckCode catalog (join "/" (replicate n (Card.id card))) =
       [Entry.mk card (Z.of_nat n)]) ∧
  (∀ cardX cardY,
     findCard catalog "X-1" = Some cardX → findCard catalog "Y-2" = Some cardY →
     decodeDeckCode catalog "X-1/X-1/Y-2" = [Entry.mk cardX 2; Entry.mk cardY 1]) ∧
  (findCard catalog "Z-9" = None → decodeDeckCode catalog "Z-9" = []).
Proof.
  cbn zeta. split; [|split; [|split; [|split; [|split]]]].
  - unfold decodeDeckCode. apply restoreCards_NoDup, countIds_NoDup.
  - intros item. rewrite decodeDeckCode_elem_of. split.
    + intros (id & Hin & Hcard & Hcount). exists id. repeat split; try done.
      by apply findCard_Some in Hcard as [? _].
    + intros (id & Hin & Hcard & _ & Hcount). by exists id.
  - intros id Hnone (item & -> & Hitem)%list_elem_of_fmap.
    apply decodeDeckCode_elem_of in Hitem as (id & _ & Hcard & _).
    pose proof (findCard_Some _ _ _ Hcard) as [Hid _].
    unfold entryId in Hnone. rewrite Hid in Hnone. congruence.
  - intros card n Hn Hfree Hcard. unfold decodeDeckCode.
    rewrite split_join.
    + unfold countIds. rewrite count_replicate_fresh; [|apply not_elem_of_nil|done].
      unfold restoreCards. simpl. unfold restoreStep. simpl. by rewrite Hcard.
    + destruct n; [lia|done].
    + by apply Forall_replicate.
  - intros cardX cardY HX HY. unfold decodeDeckCode.
    change (countIds (split "/" "X-1/X-1/Y-2")) with [("X-1", 2); ("Y-2", 1)].
    unfold restoreCards. simpl. unfold restoreStep. simpl. by rewrite HX, HY.
  - intros HZ. unfold decodeDeckCode.
    change (countIds (split "/" "Z-9")) with [("Z-9", 1)].
    unfold restoreCards. simpl. unfold restoreStep. simpl. by rewrite HZ.
Qed.

Lemma decodeDeckCode_spec_witness :
  let catalog := Sample.catalogXY in
  (findCard catalog "X-1" = Some Sample.cardX ∧
   findCard catalog "Y-2" = Some Sample.cardY ∧
   decodeDeckCode catalog "X-1/X-1/Y-2" =
     [Entry.mk Sample.cardX 2; Entry.mk Sample.cardY 1]) ∧
  (findCard catalog "Z-9" = None ∧ decodeDeckCode catalog "Z-9" = [] ∧
   "Z-9" ∉ entryId <$> decodeDeckCode catalog "X-1/Z-9/Z-9") ∧
  ((0 < 61)%nat ∧ hasChar "/" (Card.id Sample.cardX) = false ∧
   decodeDeckCode catalog (join "/" (replicate 61 "X-1")) = [Entry.mk Sample.cardX 61]).
Proof.
  cbn zeta.
  assert (findCard Sample.catalogXY "X-1" = Some Sample.cardX) as HX by reflexivity.
  assert (findCard Sample.catalogXY "Y-2" = Some Sample.cardY) as HY by reflexivity.
  assert (findCard Sample.catalogXY "Z-9" = None) as HZ by reflexivity.
  split; [|split].
  - split; [exact HX|]. split; [exact HY|].
    exact (proj1 (proj2 (proj2 (proj2 (proj2
             (decodeDeckCode_spec Sample.catalogXY ""))))) _ _ HX HY).
  - split; [exact HZ|]. split.
    + exact (proj2 (proj2 (proj2 (proj2 (proj2
               (decodeDeckCode_spec Sample.catalogXY ""))))) HZ).
    + exact (proj1 (proj2 (proj2
               (decodeDeckCode_spec Sample.catalogXY "X-1/Z-9/Z-9"))) _ HZ).
  - assert (0 < 61)%nat as Hn by lia.
    assert (hasChar "/" (Card.id Sample.cardX) = false) as Hfree by reflexivity.
    split; [exact Hn|]. split; [exact Hfree|].
    exact (proj1 (proj2 (proj2 (proj2
             (decodeDeckCode_spec Sample.catalogXY ""))))
             Sample.cardX 61%nat Hn Hfree HX).
Defined.

(** C5. [importDeckFromCode]: when the code decodes to no entry (which is
    when none of its pieces is the id of a catalog card: the empty code, or
    a code of unknown ids) the failure message is shown and nothing else
    changes, the deck in particular; when it decodes to at least one entry,
    the decoded entries become the deck. *)
Theorem importDeckFromCode_spec (st : State) :
  let imported := decodeDeckCode (availableCards st) (importDeckCode st) in
  (imported = [] →
     importDeckFromCode st = alert noValidCardMessage st ∧
     deckCards (importDeckFromCode st) = deckCards st ∧
     alerts (importDeckFromCode st) = alerts st ++ [noValidCardMessage]) ∧
  (imported ≠ [] →
     deckCards (importDeckFromCode st) = imported ∧
     alerts (importDeckFromCode st) = alerts st) ∧
  (imported = [] ↔
     ∀ id, id ∈ split "/" (importDeckCode st) → id ∉ Card.id <$> availableCards st).
Proof.
  cbn zeta. split; [|split].
  - intros Hnil. unfold importDeckFromCode. rewrite Hnil. done.
  - intros Hsome. unfold importDeckFromCode.
    destruct (decodeDeckCode _ _) as [|item items]; [done|].
    rewrite bool_decide_eq_true_2 by (simpl; lia). done.
  - rewrite decodeDeckCode_nil. by setoid_rewrite findCard_None.
Qed.

Lemma importDeckFromCode_spec_witness :
  let known := mkState Sample.catalogXY Sample.smallDeck "d" "X-1/X-1/Y-2" true ∅ [] in
  let unknown := mkState Sample.catalogXY Sample.smallDeck "d" "Z-9/Q" true ∅ [] in
  let empty := mkState Sample.catalogXY Sample.smallDeck "d" "" true ∅ [] in
  (decodeDeckCode Sample.catalogXY "X-1/X-1/Y-2" ≠ [] ∧
   deckCards (importDeckFromCode known) =
     [Entry.mk Sample.cardX 2; Entry.mk Sample.cardY 1]) ∧
  (decodeDeckCode Sample.catalogXY "Z-9/Q" = [] ∧
   deckCards (importDeckFromCode unknown) = Sample.smallDeck ∧
   alerts (importDeckFromCode unknown) = [noValidCardMessage]) ∧
  (decodeDeckCode Sample.catalogXY "" = [] ∧
   deckCards (importDeckFromCode empty) = Sample.smallDeck).
Proof.
  cbn zeta. split; [|split].
  - assert (decodeDeckCode Sample.catalogXY "X-1/X-1/Y-2" ≠ []) as Hsome
      by (vm_compute; discriminate).
    split; [exact Hsome|].
    exact (proj1 (proj1 (proj2 (importDeckFromCode_spec
             (mkState Sample.catalogXY Sample.smallDeck "d" "X-1/X-1/Y-2" true ∅ [])))
             Hsome)).
  - assert (decodeDeckCode Sample.catalogXY "Z-9/Q" = []) as Hnil by reflexivity.
    split; [exact Hnil|].
    exact (proj2 (proj1 (importDeckFromCode_spec
             (mkState Sample.catalogXY Sample.smallDeck "d" "Z-9/Q" true ∅ [])) Hnil)).
  - assert (decodeDeckCode Sample.catalogXY "" = []) as Hnil by reflexivity.
    split; [exact Hnil|].
    exact (proj1 (proj2 (proj1 (importDeckFromCode_spec
             (mkState Sample.catalogXY Sample.smallDeck "d" "" true ∅ [])) Hnil))).
Defined.

(** The decoded deck code of a deck that is not empty carries the same
    ids and counts as the deck, in the same order. *)
Lemma decode_encode_nonempty catalog deck :
  deck ≠ [] →
  Forall (λ item, 1 ≤ Entry.count item) deck →
  NoDup (entryId <$> deck) →
  Forall (λ item, hasChar "/" (entryId item) = false) deck →
  Forall (λ item, is_Some (findCard catalog (entryId item))) deck →
  idCount <$> decodeDeckCode catalog (join "/" (repeatedIds deck)) = idCount <$> deck.
Proof.
  intros Hne Hcounts Hnd Hfree Hknown. unfold decodeDeckCode.
  rewrite split_join.
  - unfold countIds. rewrite count_repeatedIds by done. simpl.
    by apply restoreCards_idCount.
  - destruct Hcounts as [|item rest Hitem _]; [done|].
    unfold repeatedIds. rewrite fmap_cons. cbn [concat].
    destruct (Z.to_nat (Entry.count item)) eqn:Hn; [lia|done].
  - by apply repeatedIds_no_sep.
Qed.

(** C2, as amended.  Take a deck whose counts are within 1..4 and whose
    total is within 0..60, with at most one entry per card id, each id being
    free of the slash and the id of a catalog card; if the deck is empty,
    let no catalog card have the empty string as its id.  Then the deck has
    a deck code, and decoding it gives the same multiset of pairs of an id
    and a count as the deck has. *)
Theorem decode_encode_roundtrip (catalog : list Card.t) (deck : list Entry.t) :
  Forall (λ item, 1 ≤ Entry.count item ≤ 4) deck →
  0 ≤ totalOf deck ≤ 60 →
  NoDup (entryId <$> deck) →
  Forall (λ item, hasChar "/" (entryId item) = false) deck →
  Forall (λ item, is_Some (findCard catalog (entryId item))) deck →
  (deck = [] → findCard catalog "" = None) →
  ∃ code, encodeDeckCode deck = Return code ∧
          idCount <$> decodeDeckCode catalog code ≡ₚ idCount <$> deck.
Proof.
  intros Hcounts Htotal Hnd Hfree Hknown Hblank.
  exists (join "/" (repeatedIds deck)). split.
  - apply encodeDeckCode_ok. eapply Forall_impl; [exact Hcounts|]. simpl. lia.
  - destruct deck as [|item deck].
    + unfold decodeDeckCode.
      change (countIds (split "/" (join "/" (repeatedIds [])))) with [("", 1)].
      unfold restoreCards. simpl. unfold restoreStep. simpl.
      by rewrite Hblank.
    + rewrite decode_encode_nonempty; try done.
      eapply Forall_impl; [exact Hcounts|]. simpl. lia.
Qed.

Lemma decode_encode_roundtrip_witness :
  let deck := [Entry.mk Sample.cardA 2; Entry.mk Sample.cardC 4; Entry.mk Sample.cardB 1] in
  (Forall (λ item, 1 ≤ Entry.count item ≤ 4) deck ∧
   0 ≤ totalOf deck ≤ 60 ∧
   NoDup (entryId <$> deck) ∧
   Forall (λ item, hasChar "/" (entryId item) = false) deck ∧
   Forall (λ item, is_Some (findCard Sample.catalog (entryId item))) deck ∧
   (deck = [] → findCard Sample.catalog "" = None)) ∧
  ∃ code, encodeDeckCode deck = Return code ∧
          idCount <$> decodeDeckCode Sample.catalog code ≡ₚ idCount <$> deck.
Proof.
  cbn zeta.
  assert (Forall (λ item, 1 ≤ Entry.count item ≤ 4)
            [Entry.mk Sample.cardA 2; Entry.mk Sample.cardC 4; Entry.mk Sample.cardB 1])
    as Hcounts by (repeat constructor; simpl; lia).
  assert (0 ≤ totalOf [Entry.mk Sample.cardA 2; Entry.mk Sample.cardC 4;
                       Entry.mk Sample.cardB 1] ≤ 60)
    as Htotal by (vm_compute; split; discriminate).
  assert (NoDup (entryId <$> [Entry.mk Sample.cardA 2; Entry.mk Sample.cardC 4;
                              Entry.mk Sample.cardB 1]))
    as Hnd.
  { simpl. repeat (apply NoDup_cons; split); try apply NoDup_nil_2;
      rewrite ?not_elem_of_cons; repeat split; try discriminate; apply not_elem_of_nil. }
  assert (Forall (λ item, hasChar "/" (entryId item) = false)
            [Entry.mk Sample.cardA 2; Entry.mk Sample.cardC 4; Entry.mk Sample.cardB 1])
    as Hfree by (repeat constructor).
  assert (Forall (λ item, is_Some (findCard Sample.catalog (entryId item)))
            [Entry.mk Sample.cardA 2; Entry.mk Sample.cardC 4; Entry.mk Sample.cardB 1])
    as Hknown by (repeat constructor; eexists; reflexivity).
  assert ([Entry.mk Sample.cardA 2; Entry.mk Sample.cardC 4; Entry.mk Sample.cardB 1] = [] →
          findCard Sample.catalog "" = None)
    as Hblank by discriminate.
  split; [done|].
  exact (decode_encode_roundtrip Sample.catalog _ Hcounts Htotal Hnd Hfree Hknown Hblank).
Defined.

(** C2 as stated fails for the empty deck when a card of the catalog has
    the empty string as its id: the empty deck is encoded as the empty
    code, which splits into one empty id, and that id is found. *)
Lemma decode_encode_empty_deck_counterexample :
  let catalog := [Sample.blankCard] in
  let deck : list Entry.t := [] in
  deckInvariant deck ∧
  0 ≤ totalOf deck ≤ 60 ∧
  NoDup (Card.id <$> catalog) ∧
  Forall (λ card, hasChar "/" (Card.id card) = false) catalog ∧
  Forall (λ item, Entry.card item ∈ catalog) deck ∧
  encodeDeckCode deck = Return "" ∧
  decodeDeckCode catalog "" = [Entry.mk Sample.blankCard 1] ∧
  ¬ (idCount <$> decodeDeckCode catalog "" ≡ₚ idCount <$> deck).
Proof.
  cbn zeta. repeat split.
  - constructor.
  - vm_compute. discriminate.
  - constructor.
  - constructor.
  - vm_compute. discriminate.
  - vm_compute. discriminate.
  - apply NoDup_singleton.
  - repeat constructor.
  - constructor.
  - intros Hperm. apply Permutation_length in Hperm. discriminate.
Qed.

(** ** Ordering *)

Lemma runs_concat s : concatStrings (runs s) = s.
Proof.
  induction s as [|c s IH]; [done|].
  cbn [runs]. unfold concatStrings in *. destruct (runs s) as [|run more].
  - simpl in *. by rewrite <- IH.
  - destruct (Bool.eqb (isDigit c) (headIsDigit run));
      simpl; rewrite <- IH; reflexivity.
Qed.

Lemma runs_nil s : runs s = [] ↔ s = "".
Proof.
  split; [|by intros ->].
  destruct s as [|c s]; [done|]. cbn [runs].
  destruct (runs s) as [|run more]; [done|].
  by destruct (Bool.eqb (isDigit c) (headIsDigit run)).
Qed.

Lemma matchRuns_None s : matchRuns s = None ↔ s = "".
Proof.
  unfold matchRuns. rewrite <- runs_nil. by destruct (runs s).
Qed.

Lemma matchRuns_Some s : s ≠ "" → matchRuns s = Some (runs s).
Proof.
  intros Hs. unfold matchRuns.
  destruct (runs s) eqn:Hruns; [|done]. by apply runs_nil in Hruns.
Qed.

Lemma allChars_ext (p q : ascii → bool) s :
  (∀ c, p c = q c) → allChars p s = allChars q s.
Proof. intros Hpq. induction s as [|c s IH]; simpl; [done|]. by rewrite Hpq, IH. Qed.

Lemma runs_uniform s : Forall (λ t, uniform t = true) (runs s).
Proof.
  induction s as [|c s IH]; [constructor|].
  cbn [runs]. destruct (runs s) as [|run more].
  - constructor; [|constructor]. unfold uniform. simpl. by rewrite Bool.eqb_reflx.
  - apply Forall_cons in IH as [Hrun Hmore].
    destruct (Bool.eqb (isDigit c) (headIsDigit run)) eqn:Hclass.
    + constructor; [|done]. apply Bool.eqb_prop in Hclass.
      unfold uniform in *. simpl. rewrite Bool.eqb_reflx. simpl.
      apply andb_true_iff in Hrun as [_ Hrun]. by rewrite Hclass.
    + constructor; [|by constructor].
      unfold uniform. simpl. by rewrite Bool.eqb_reflx.
Qed.

Lemma uniform_class t : uniform t = true → digitRun t = true ∨ nonDigitRun t = true.
Proof.
  unfold uniform, digitRun, nonDigitRun.
  intros [-> Hall]%andb_true_iff. simpl.
  destruct (headIsDigit t).
  - left. rewrite <- Hall. apply allChars_ext. intros c. by destruct (isDigit c).
  - right. rewrite <- Hall. apply allChars_ext. intros c. by destruct (isDigit c).
Qed.

Lemma alternates_cons t u rest :
  alternates (t :: u :: rest) =
    negb (Bool.eqb (headIsDigit t) (headIsDigit u)) && alternates (u :: rest).
Proof. reflexivity. Qed.

Lemma runs_alternates s : alternates (runs s) = true.
Proof.
  induction s as [|c s IH]; [done|].
  cbn [runs]. destruct (runs s) as [|run more]; [done|].
  destruct (Bool.eqb (isDigit c) (headIsDigit run)) eqn:Hclass.
  - apply Bool.eqb_prop in Hclass. destruct more as [|u rest]; [done|].
    rewrite alternates_cons in *. cbn [headIsDigit]. by rewrite Hclass.
  - rewrite alternates_cons. cbn [headIsDigit]. by rewrite Hclass, IH.
Qed.

Lemma isDigit_not_special c :
  isDigit c = true →
  isWhiteSpace c = false ∧ Ascii.eqb c "-" = false ∧ Ascii.eqb c "+" = false.
Proof. by destruct c as [[] [] [] [] [] [] [] []]. Qed.

Lemma isUpperCode_startsUpper t : isUpperCode (charCodeAt0 t) = startsUpper t.
Proof.
  destruct t as [|c t]; [done|]. by destruct c as [[] [] [] [] [] [] [] []].
Qed.

Lemma readDigits_all acc s :
  allChars isDigit s = true → readDigits (Some acc) s = Some (numericValueFrom acc s).
Proof.
  revert acc. induction s as [|c s IH]; intros acc; simpl; [done|].
  intros [-> Hs]%andb_true_iff. by rewrite IH.
Qed.

Lemma readDigits_none s :
  allChars (λ c, negb (isDigit c)) s = true → readDigits None s = None.
Proof.
  destruct s as [|c s]; simpl; [done|].
  intros [Hc _]%andb_true_iff. by destruct (isDigit c).
Qed.

Lemma trimStart_allChars p s : allChars p s = true → allChars p (trimStart s) = true.
Proof.
  induction s as [|c s IH]; simpl; [done|].
  intros Hall. destruct (isWhiteSpace c); [|done].
  apply andb_true_iff in Hall as [_ Hs]. by apply IH.
Qed.

(** Doubles: a magnitude below 2^53 is exact, and rounding and subtraction
    commute with the change of sign. *)
Lemma toDouble_exact n : Z.abs n < 2 ^ 53 → toDouble n = n.
Proof. intros Hsmall. unfold toDouble. by rewrite (proj2 (Z.ltb_lt _ _) Hsmall). Qed.

Lemma toDouble_opp n : toDouble (- n) = - toDouble n.
Proof.
  unfold toDouble. rewrite Z.abs_opp, Z.sgn_opp.
  destruct (Z.abs n <? 2 ^ 53); [done|]. cbn zeta. lia.
Qed.

Lemma exact_below_infinity : 2 ^ 53 < infinity.
Proof. done. Qed.

Lemma subtract_exact x y :
  0 ≤ x < 2 ^ 53 → 0 ≤ y < 2 ^ 53 → subtract x y = x - y.
Proof.
  intros Hx Hy. pose proof exact_below_infinity as Hinf. unfold subtract, isInfinite.
  rewrite (proj2 (Z.eqb_neq (Z.abs x) infinity)) by lia.
  rewrite (proj2 (Z.eqb_neq (Z.abs y) infinity)) by lia.
  apply toDouble_exact. lia.
Qed.

Lemma subtract_opp x y : x ≠ y → subtract y x = - subtract x y.
Proof.
  intros Hne. unfold subtract, isInfinite.
  destruct (Z.eqb_spec (Z.abs x) infinity) as [Hx|Hx],
    (Z.eqb_spec (Z.abs y) infinity) as [Hy|Hy]; try lia.
  rewrite <- toDouble_opp. f_equal. lia.
Qed.

Lemma numericValueFrom_nonneg acc s :
  0 ≤ acc → allChars isDigit s = true → 0 ≤ numericValueFrom acc s.
Proof.
  revert acc. induction s as [|c s IH]; intros acc Hacc; simpl; [done|].
  intros [Hc Hs]%andb_true_iff. apply IH; [|done].
  assert (0 ≤ digitValue c) by (by destruct c as [[] [] [] [] [] [] [] []]). lia.
Qed.

Lemma numericValue_nonneg t : digitRun t = true → 0 ≤ numericValue t.
Proof.
  intros [_ Hdigits]%andb_true_iff. by apply numericValueFrom_nonneg.
Qed.

Lemma roundedValue_exact t :
  digitRun t = true → numericValue t < 2 ^ 53 → roundedValue t = numericValue t.
Proof.
  intros Ht Hsmall. pose proof (numericValue_nonneg t Ht).
  apply toDouble_exact. lia.
Qed.

Lemma tied_sameNumber t u : tied t u → sameNumber t u.
Proof.
  intros [->|(Ht & Hu & Hvalue)]; [by left|]. right.
  unfold roundedValue. by rewrite Hvalue.
Qed.

(** [parseInt] of a run of digits is the double nearest to its value, and
    of a run without a digit it is [NaN]. *)
Lemma parseInt_digitRun t : digitRun t = true → parseInt t = Some (roundedValue t).
Proof.
  destruct t as [|c t]; [done|]. unfold digitRun. simpl.
  intros [Hc Ht]%andb_true_iff.
  destruct (isDigit_not_special c Hc) as (Hw & Hminus & Hplus).
  unfold parseInt. cbn [trimStart]. rewrite Hw, Hminus, Hplus.
  cbn [readDigits]. rewrite Hc, readDigits_all by done.
  cbn [fmap option_fmap option_map]. unfold roundedValue, numericValue.
  cbn [numericValueFrom default]. by rewrite Z.mul_1_l.
Qed.

Lemma parseInt_nonDigitRun t :
  allChars (λ c, negb (isDigit c)) t = true → parseInt t = None.
Proof.
  intros Hall. apply (trimStart_allChars _ t) in Hall.
  unfold parseInt. destruct (trimStart t) as [|c s]; [done|].
  pose proof Hall as Hrest. simpl in Hrest. apply andb_true_iff in Hrest as [_ Hrest].
  destruct (Ascii.eqb c "-"); [by rewrite readDigits_none|].
  destruct (Ascii.eqb c "+"); by rewrite readDigits_none.
Qed.

Section OrderingProperties.
Variable localeCompare : string → string → Z.

Lemma naturalSortLoop_sameNumber t u restA restB :
  sameNumber t u →
  naturalSortLoop localeCompare (t :: restA) (u :: restB) =
    naturalSortLoop localeCompare restA restB.
Proof.
  intros [->|(Ht & Hu & Hvalue)]; cbn [naturalSortLoop].
  - destruct (parseInt u) as [n|].
    + by rewrite Z.eqb_refl.
    + by rewrite Bool.eqb_reflx, bool_decide_eq_true_2.
  - rewrite (parseInt_digitRun t Ht), (parseInt_digitRun u Hu), Hvalue.
    by rewrite Z.eqb_refl.
Qed.

Lemma naturalSortLoop_tied t u restA restB :
  tied t u →
  naturalSortLoop localeCompare (t :: restA) (u :: restB) =
    naturalSortLoop localeCompare restA restB.
Proof. intros Htied. by apply naturalSortLoop_sameNumber, tied_sameNumber. Qed.

Lemma naturalSortLoop_sameNumber_prefix beforeA beforeB restA restB :
  Forall2 sameNumber beforeA beforeB →
  naturalSortLoop localeCompare (beforeA ++ restA) (beforeB ++ restB) =
    naturalSortLoop localeCompare restA restB.
Proof.
  induction 1 as [|t u beforeA beforeB Hsame _ IH]; [done|].
  rewrite <- !app_comm_cons. by rewrite naturalSortLoop_sameNumber.
Qed.

Lemma naturalSortLoop_tied_prefix beforeA beforeB restA restB :
  Forall2 tied beforeA beforeB →
  naturalSortLoop localeCompare (beforeA ++ restA) (beforeB ++ restB) =
    naturalSortLoop localeCompare restA restB.
Proof.
  intros Htied. apply naturalSortLoop_sameNumber_prefix.
  eapply Forall2_impl; [exact Htied|]. apply tied_sameNumber.
Qed.

Lemma naturalSortLoop_same tokens extra :
  naturalSortLoop localeCompare tokens (tokens ++ extra) = None ∧
  naturalSortLoop localeCompare (tokens ++ extra) tokens = None.
Proof.
  induction tokens as [|t tokens [IH1 IH2]].
  - split; [done|]. by destruct extra.
  - rewrite <- app_comm_cons.
    rewrite !naturalSortLoop_tied by (by left). done.
Qed.

Lemma naturalSortLoop_rounded tA tB restA restB :
  digitRun tA = true → digitRun tB = true →
  roundedValue tA ≠ roundedValue tB →
  naturalSortLoop localeCompare (tA :: restA) (tB :: restB) =
    Some (subtract (roundedValue tA) (roundedValue tB)).
Proof.
  intros HA HB Hne. cbn [naturalSortLoop].
  rewrite (parseInt_digitRun tA HA), (parseInt_digitRun tB HB).
  by rewrite (proj2 (Z.eqb_neq _ _) Hne).
Qed.

Lemma naturalSortLoop_digits tA tB restA restB :
  digitRun tA = true → digitRun tB = true →
  numericValue tA < 2 ^ 53 → numericValue tB < 2 ^ 53 →
  numericValue tA ≠ numericValue tB →
  naturalSortLoop localeCompare (tA :: restA) (tB :: restB) =
    Some (numericValue tA - numericValue tB).
Proof.
  intros HA HB HsmallA HsmallB Hne.
  pose proof (numericValue_nonneg tA HA). pose proof (numericValue_nonneg tB HB).
  rewrite naturalSortLoop_rounded by (rewrite ?roundedValue_exact; done).
  rewrite !roundedValue_exact by done. by rewrite subtract_exact.
Qed.

Lemma naturalSortLoop_letters tA tB restA restB :
  nonDigitRun tA = true → nonDigitRun tB = true →
  naturalSortLoop localeCompare (tA :: restA) (tB :: restB) =
    if negb (Bool.eqb (startsUpper tA) (startsUpper tB))
    then Some (if startsUpper tA then -1 else 1)
    else if negb (bool_decide (tA = tB)) then Some (localeCompare tA tB)
    else naturalSortLoop localeCompare restA restB.
Proof.
  intros [_ HA]%andb_true_iff [_ HB]%andb_true_iff. cbn [naturalSortLoop].
  rewrite (parseInt_nonDigitRun tA HA). by rewrite !isUpperCode_startsUpper.
Qed.

Lemma naturalSort_at a b beforeA beforeB tA tB restA restB :
  runs a = beforeA ++ tA :: restA →
  runs b = beforeB ++ tB :: restB →
  Forall2 sameNumber beforeA beforeB →
  naturalSort localeCompare a b =
    match naturalSortLoop localeCompare (tA :: restA) (tB :: restB) with
    | Some r => r
    | None => Z.of_nat (length (runs a)) - Z.of_nat (length (runs b))
    end.
Proof.
  intros HA HB Htied.
  assert (a ≠ "") as Ha by (intros ->; by destruct beforeA).
  assert (b ≠ "") as Hb by (intros ->; by destruct beforeB).
  unfold naturalSort. rewrite (matchRuns_Some a Ha), (matchRuns_Some b Hb).
  by rewrite HA, HB, naturalSortLoop_sameNumber_prefix.
Qed.

(** C6. [naturalSort(a, b)]: an id is cut into runs that are not empty,
    are each made of digits only or of other characters only, alternate
    between the two classes and together spell the id; the runs of the
    two ids are compared in pairs, and at the first pair that the program
    can tell apart two runs of digits with values below 2^53 give the
    difference of their values, two runs of other characters give -1 or 1
    when exactly one of them starts with a letter A-Z (that one first) and
    [localeCompare] otherwise; an id without runs (the empty id) on either
    side gives [localeCompare] of the ids; and when the runs of one id are
    the runs of the other followed by more, the shorter id sorts first.
    AA-1 sorts before AA-2 and AA-2 before AA-10.  Runs of digits of any
    length are compared as the doubles nearest to their values: these give
    their difference as doubles when they differ, and the runs are a tie
    when they are the same double. *)
Theorem naturalSort_spec :
  (∀ s, concatStrings (runs s) = s ∧
        Forall (λ t, digitRun t = true ∨ nonDigitRun t = true) (runs s) ∧
        alternates (runs s) = true) ∧
  (∀ a b beforeA beforeB tA tB restA restB,
     runs a = beforeA ++ tA :: restA →
     runs b = beforeB ++ tB :: restB →
     Forall2 sameNumber beforeA beforeB →
     (digitRun tA = true → digitRun tB = true →
      numericValue tA < 2 ^ 53 → numericValue tB < 2 ^ 53 →
      numericValue tA ≠ numericValue tB →
      naturalSort localeCompare a b = numericValue tA - numericValue tB) ∧
     (nonDigitRun tA = true → nonDigitRun tB = true →
      startsUpper tA ≠ startsUpper tB →
      naturalSort localeCompare a b = if startsUpper tA then -1 else 1) ∧
     (nonDigitRun tA = true → nonDigitRun tB = true →
      startsUpper tA = startsUpper tB → tA ≠ tB →
      naturalSort localeCompare a b = localeCompare tA tB) ∧
     (digitRun tA = true → digitRun tB = true →
      roundedValue tA ≠ roundedValue tB →
      naturalSort localeCompare a b = subtract (roundedValue tA) (roundedValue tB))) ∧
  (∀ s, matchRuns s = None ↔ s = "") ∧
  (∀ a b, matchRuns a = None ∨ matchRuns b = None →
          naturalSort localeCompare a b = localeCompare a b) ∧
  (∀ a b extra,
     a ≠ "" → extra ≠ [] → runs b = runs a ++ extra →
     naturalSort localeCompare a b < 0 ∧ 0 < naturalSort localeCompare b a) ∧
  (naturalSort localeCompare "AA-1" "AA-2" < 0 ∧
   naturalSort localeCompare "AA-2" "AA-10" < 0 ∧
   naturalSort localeCompare "AA-1" "AA-10" < 0) ∧
  (∀ t, digitRun t = true → numericValue t < 2 ^ 53 → roundedValue t = numericValue t).
Proof.
  split; [|split; [|split; [|split; [|split; [|split]]]]].
  - intros s. split; [apply runs_concat|]. split; [|apply runs_alternates].
    eapply Forall_impl; [apply runs_uniform|]. apply uniform_class.
  - intros a b beforeA beforeB tA tB restA restB HA HB Htied.
    rewrite (naturalSort_at a b _ _ _ _ _ _ HA HB Htied).
    split; [|split; [|split]].
    + intros HdA HdB HsmallA HsmallB Hne. by rewrite naturalSortLoop_digits.
    + intros HnA HnB Hne. rewrite naturalSortLoop_letters by done.
      by destruct (startsUpper tA), (startsUpper tB).
    + intros HnA HnB Heq Hne. rewrite naturalSortLoop_letters by done.
      rewrite Heq, Bool.eqb_reflx. simpl.
      by rewrite bool_decide_eq_false_2.
    + intros HdA HdB Hne. by rewrite naturalSortLoop_rounded.
  - apply matchRuns_None.
  - intros a b Hnone. unfold naturalSort.
    destruct Hnone as [-> | ->]; [done|]. by destruct (matchRuns a).
  - intros a b extra Ha Hextra Hb.
    assert (b ≠ "") as Hbne.
    { intros ->. simpl in Hb. symmetry in Hb.
      apply app_eq_nil in Hb as [_ ?]. done. }
    unfold naturalSort.
    rewrite (matchRuns_Some a Ha), (matchRuns_Some b Hbne), Hb.
    destruct (naturalSortLoop_same (runs a) extra) as [-> ->].
    rewrite length_app. destruct extra; [done|]. simpl. lia.
  - by vm_compute.
  - apply roundedValue_exact.
Qed.
End OrderingProperties.

Lemma naturalSort_spec_witness :
  let lc := Sample.byteCompare in
  (runs "AA-2" = ["AA-"] ++ "2" :: [] ∧ runs "AA-10" = ["AA-"] ++ "10" :: [] ∧
   Forall2 sameNumber ["AA-"] ["AA-"] ∧
   digitRun "2" = true ∧ digitRun "10" = true ∧
   numericValue "2" < 2 ^ 53 ∧ numericValue "10" < 2 ^ 53 ∧
   numericValue "2" ≠ numericValue "10" ∧
   naturalSort lc "AA-2" "AA-10" = numericValue "2" - numericValue "10") ∧
  (nonDigitRun "Zeta" = true ∧ nonDigitRun "alpha" = true ∧
   startsUpper "Zeta" ≠ startsUpper "alpha" ∧
   naturalSort lc "Zeta" "alpha" = -1 ∧ naturalSort lc "alpha" "Zeta" = 1) ∧
  (startsUpper "ab" = startsUpper "ac" ∧ "ab" ≠ "ac" ∧
   naturalSort lc "ab" "ac" = lc "ab" "ac") ∧
  (matchRuns "" = None ∧ naturalSort lc "" "AA-1" = lc "" "AA-1") ∧
  ("AA-" ≠ "" ∧ ["1"] ≠ [] ∧ runs "AA-1" = runs "AA-" ++ ["1"] ∧
   naturalSort lc "AA-" "AA-1" < 0 ∧ 0 < naturalSort lc "AA-1" "AA-") ∧
  (digitRun "9007199254740995" = true ∧ digitRun "9007199254740992" = true ∧
   roundedValue "9007199254740995" ≠ roundedValue "9007199254740992" ∧
   numericValue "9007199254740995" - numericValue "9007199254740992" = 3 ∧
   subtract (roundedValue "9007199254740995") (roundedValue "9007199254740992") = 4 ∧
   naturalSort lc "AA-9007199254740995" "AA-9007199254740992" = 4).
Proof.
  cbn zeta.
  destruct (naturalSort_spec Sample.byteCompare)
    as (_ & Hpairs & _ & Hfallback & Hprefix & _ & _).
  assert (Forall2 sameNumber ["AA-"] ["AA-"]) as Htied
    by (constructor; [by left|constructor]).
  assert (numericValue "2" ≠ numericValue "10") as Hvalues by (vm_compute; discriminate).
  assert (numericValue "2" < 2 ^ 53) as Hsmall2 by done.
  assert (numericValue "10" < 2 ^ 53) as Hsmall10 by done.
  assert (startsUpper "Zeta" ≠ startsUpper "alpha") as Hupper by (vm_compute; discriminate).
  assert (startsUpper "alpha" ≠ startsUpper "Zeta") as Hlower by (vm_compute; discriminate).
  assert ("ab" ≠ "ac") as Hne by discriminate.
  assert ("AA-" ≠ "") as Hid by discriminate.
  assert (["1"] ≠ []) as Hextra by discriminate.
  assert (Forall2 sameNumber [] []) as Hnil by constructor.
  assert (roundedValue "9007199254740995" ≠ roundedValue "9007199254740992") as Hrounded
    by (vm_compute; discriminate).
  assert (subtract (roundedValue "9007199254740995") (roundedValue "9007199254740992") = 4)
    as Hfour by (by vm_compute).
  split; [|split; [|split; [|split; [|split]]]].
  - do 3 (split; [done|]). do 2 (split; [reflexivity|]).
    split; [exact Hsmall2|]. split; [exact Hsmall10|]. split; [exact Hvalues|].
    exact (proj1 (Hpairs "AA-2" "AA-10" ["AA-"] ["AA-"] "2" "10" [] []
                    eq_refl eq_refl Htied) eq_refl eq_refl Hsmall2 Hsmall10 Hvalues).
  - do 3 (split; [done|]). split.
    + exact (proj1 (proj2 (Hpairs "Zeta" "alpha" [] [] "Zeta" "alpha" [] []
                             eq_refl eq_refl Hnil))
               eq_refl eq_refl Hupper).
    + exact (proj1 (proj2 (Hpairs "alpha" "Zeta" [] [] "alpha" "Zeta" [] []
                             eq_refl eq_refl Hnil))
               eq_refl eq_refl Hlower).
  - do 2 (split; [done|]).
    exact (proj1 (proj2 (proj2 (Hpairs "ab" "ac" [] [] "ab" "ac" [] []
                                  eq_refl eq_refl Hnil)))
             eq_refl eq_refl eq_refl Hne).
  - split; [done|]. exact (Hfallback "" "AA-1" (or_introl eq_refl)).
  - do 3 (split; [done|]). exact (Hprefix "AA-" "AA-1" ["1"] Hid Hextra eq_refl).
  - do 2 (split; [reflexivity|]). split; [exact Hrounded|]. split; [by vm_compute|].
    split; [exact Hfour|]. rewrite <- Hfour.
    exact (proj2 (proj2 (proj2 (Hpairs "AA-9007199254740995" "AA-9007199254740992"
                                  ["AA-"] ["AA-"] "9007199254740995" "9007199254740992"
                                  [] [] eq_refl eq_refl Htied)))
             eq_refl eq_refl Hrounded).
Defined.

(** C6 as stated fails for runs of digits of 2^53 or more: the two ids
    below differ in their numbers, 2^53 + 1 and 2^53, and [parseInt] reads
    both as the double 2^53, so [naturalSort] takes the pair for a tie and
    returns 0, whichever [localeCompare] is. *)
Lemma naturalSort_large_numbers_counterexample :
  digitRun "9007199254740993" = true ∧
  digitRun "9007199254740992" = true ∧
  numericValue "9007199254740993" - numericValue "9007199254740992" = 1 ∧
  parseInt "9007199254740993" = Some (2 ^ 53) ∧
  parseInt "9007199254740992" = Some (2 ^ 53) ∧
  ∀ localeCompare,
    naturalSort localeCompare "AA-9007199254740993" "AA-9007199254740992" = 0 ∧
    naturalSort localeCompare "AA-9007199254740992" "AA-9007199254740993" = 0.
Proof.
  do 5 (split; [by vm_compute|]). intros localeCompare. by vm_compute.
Qed.

Section ComparatorProperties.
Variable localeCompare : string → string → Z.

(** C7. The comparator of [sortedDeckCards] gives, on two entries, what
    the comparator of [sortedAndFilteredAvailableCards] gives on their
    cards: the same number, hence the same sign.  Both are the kind order,
    then the type order when the kinds compare equal, then the natural
    order of the ids when the types compare equal too. *)
Theorem comparators_agree (itemA itemB : Entry.t) :
  let a := Entry.card itemA in
  let b := Entry.card itemB in
  deckCardsCompare localeCompare itemA itemB = availableCardsCompare localeCompare a b ∧
  Z.sgn (deckCardsCompare localeCompare itemA itemB) =
    Z.sgn (availableCardsCompare localeCompare a b) ∧
  (kindSort a b ≠ 0 → availableCardsCompare localeCompare a b = kindSort a b) ∧
  (kindSort a b = 0 → typeSort a b ≠ 0 →
   availableCardsCompare localeCompare a b = typeSort a b) ∧
  (kindSort a b = 0 → typeSort a b = 0 →
   availableCardsCompare localeCompare a b =
     naturalSort localeCompare (Card.id a) (Card.id b)).
Proof.
  cbn zeta. split; [reflexivity|]. split; [reflexivity|].
  unfold availableCardsCompare. split; [|split].
  - intros Hkind. by rewrite (proj2 (Z.eqb_neq _ _) Hkind).
  - intros -> Htype. simpl. by rewrite (proj2 (Z.eqb_neq _ _) Htype).
  - by intros -> ->.
Qed.
End ComparatorProperties.

Lemma comparators_agree_witness :
  let lc := Sample.byteCompare in
  let itemA := Entry.mk Sample.cardA 2 in
  let itemB := Entry.mk Sample.cardB 4 in
  let itemC := Entry.mk Sample.cardC 1 in
  let itemX := Entry.mk Sample.cardX 1 in
  let itemY := Entry.mk Sample.cardY 3 in
  (kindSort Sample.cardA Sample.cardB ≠ 0 ∧
   deckCardsCompare lc itemA itemB = availableCardsCompare lc Sample.cardA Sample.cardB ∧
   availableCardsCompare lc Sample.cardA Sample.cardB = kindSort Sample.cardA Sample.cardB) ∧
  (kindSort Sample.cardX Sample.cardY = 0 ∧ typeSort Sample.cardX Sample.cardY ≠ 0 ∧
   deckCardsCompare lc itemX itemY = typeSort Sample.cardX Sample.cardY) ∧
  (kindSort Sample.cardX Sample.cardX = 0 ∧ typeSort Sample.cardX Sample.cardX = 0 ∧
   deckCardsCompare lc itemX itemX =
     naturalSort lc (Card.id Sample.cardX) (Card.id Sample.cardX)).
Proof.
  cbn zeta.
  assert (kindSort Sample.cardA Sample.cardB ≠ 0) as HkindAB by (vm_compute; discriminate).
  assert (typeSort Sample.cardX Sample.cardY ≠ 0) as HtypeXY by (vm_compute; discriminate).
  split; [|split].
  - destruct (comparators_agree Sample.byteCompare
                (Entry.mk Sample.cardA 2) (Entry.mk Sample.cardB 4))
      as (Hsame & _ & Hkind & _).
    split; [exact HkindAB|]. split; [exact Hsame|]. exact (Hkind HkindAB).
  - destruct (comparators_agree Sample.byteCompare
                (Entry.mk Sample.cardX 1) (Entry.mk Sample.cardY 3))
      as (Hsame & _ & _ & Htype & _).
    split; [reflexivity|]. split; [exact HtypeXY|].
    rewrite Hsame. exact (Htype eq_refl HtypeXY).
  - destruct (comparators_agree Sample.byteCompare
                (Entry.mk Sample.cardX 1) (Entry.mk Sample.cardX 1))
      as (Hsame & _ & _ & _ & Hid).
    split; [reflexivity|]. split; [reflexivity|].
    rewrite Hsame. exact (Hid eq_refl eq_refl).
Defined.

(** ** Kind order and type order *)

Lemma indexOfFrom_found order s i :
  s ∈ order → i ≤ indexOfFrom order s i < i + Z.of_nat (length order).
Proof.
  revert i. induction order as [|x order IH]; intros i Hin.
  - by apply elem_of_nil in Hin.
  - cbn [indexOfFrom length]. case_bool_decide as Hx; [lia|].
    apply elem_of_cons in Hin as [->|Hin]; [done|].
    specialize (IH (i + 1) Hin). lia.
Qed.

Lemma indexOfFrom_lookup order s i :
  s ∈ order → order !! Z.to_nat (indexOfFrom order s i - i) = Some s.
Proof.
  revert i. induction order as [|x order IH]; intros i Hin.
  - by apply elem_of_nil in Hin.
  - cbn [indexOfFrom]. case_bool_decide as Hx.
    + subst. by replace (i - i) with 0 by lia.
    + apply elem_of_cons in Hin as [->|Hin]; [done|].
      pose proof (indexOfFrom_found order s (i + 1) Hin).
      specialize (IH (i + 1) Hin).
      by replace (Z.to_nat (indexOfFrom order s (i + 1) - i))
        with (S (Z.to_nat (indexOfFrom order s (i + 1) - (i + 1)))) by lia.
Qed.

Lemma indexOfFrom_missing order s i : s ∉ order → indexOfFrom order s i = -1.
Proof.
  revert i. induction order as [|x order IH]; intros i Hin; [done|].
  apply not_elem_of_cons in Hin as [Hne Hin].
  cbn [indexOfFrom]. rewrite bool_decide_eq_false_2 by congruence. by apply IH.
Qed.

Lemma indexOf_recognized order v :
  recognized order v → 0 ≤ indexOf order v < Z.of_nat (length order).
Proof.
  intros (s & -> & Hin)%list_elem_of_fmap. simpl.
  pose proof (indexOfFrom_found order s 0 Hin). lia.
Qed.

Lemma indexOf_unknown order v : ¬ recognized order v → indexOf order v = -1.
Proof.
  intros Hno. destruct v as [| | | |s| |]; try done. simpl.
  apply indexOfFrom_missing. intros Hin. apply Hno.
  apply list_elem_of_fmap. by exists s.
Qed.

Lemma indexOf_inj order v w :
  recognized order v → recognized order w → indexOf order v = indexOf order w → v = w.
Proof.
  intros (s & -> & Hs)%list_elem_of_fmap (t & -> & Ht)%list_elem_of_fmap. simpl.
  intros Heq. pose proof (indexOfFrom_lookup order s 0 Hs) as Hlookup.
  pose proof (indexOfFrom_lookup order t 0 Ht). rewrite Heq in Hlookup. congruence.
Qed.

Lemma indexOf_not_found order v : indexOf order v = -1 → ¬ recognized order v.
Proof. intros Hidx Hrec. apply indexOf_recognized in Hrec. lia. Qed.

Lemma indexOf_found order v : indexOf order v ≠ -1 → recognized order v.
Proof.
  destruct v as [| | | |s| |]; try done. simpl. intros Hidx.
  destruct (decide (s ∈ order)) as [Hin|Hout].
  - apply list_elem_of_fmap. by exists s.
  - by apply (indexOfFrom_missing order s 0) in Hout.
Qed.

(** The [forEach] of [getEarliestTypeIndex] keeps the least index seen so
    far below its start value. *)
Lemma earliest_fold order types start :
  let step := λ minIndex type,
    let index := indexOf order type in
    if negb (index =? -1) && (index <? minIndex) then index else minIndex in
  let result := foldl step start types in
  result ≤ start ∧
  (result = start ∨ ∃ t, t ∈ types ∧ recognized order t ∧ indexOf order t = result) ∧
  (∀ t, t ∈ types → recognized order t → result ≤ indexOf order t).
Proof.
  cbn zeta. revert start. induction types as [|type types IH]; intros start.
  - simpl. split; [lia|]. split; [by left|].
    intros t Hin. by apply elem_of_nil in Hin.
  - cbn [foldl].
    set (next := if negb (indexOf order type =? -1) && (indexOf order type <? start)
                 then indexOf order type else start).
    destruct (IH next) as (Hle & Hwhich & Hleast).
    assert (next ≤ start ∧
            (next = start ∨
             (next = indexOf order type ∧ recognized order type)) ∧
            (recognized order type → next ≤ indexOf order type))
      as (Hnext & Hcase & Hbound).
    { unfold next.
      destruct (Z.eqb_spec (indexOf order type) (-1)) as [Hmiss|Hhit]; simpl.
      - split; [lia|]. split; [by left|].
        intros Hrec. by apply indexOf_not_found in Hmiss.
      - assert (recognized order type) as Hrec by (by apply indexOf_found).
        destruct (Z.ltb_spec (indexOf order type) start).
        + split; [lia|]. split; [by right|]. lia.
        + split; [lia|]. split; [by left|]. lia. }
    split; [lia|]. split.
    + destruct Hwhich as [Hsame|(t & Hin & Hrec & Hidx)].
      * destruct Hcase as [Hstart|[Htype Hrec]]; [left; lia|].
        right. exists type. split; [apply elem_of_cons; by left|]. split; [done|lia].
      * right. exists t. split; [apply elem_of_cons; by right|done].
    + intros t [->|Hin]%elem_of_cons Hrec.
      * specialize (Hbound Hrec). lia.
      * by apply Hleast.
Qed.

Lemma getEarliestTypeIndex_spec order cardTypes :
  let result := getEarliestTypeIndex order cardTypes in
  result ≤ Z.of_nat (length order) ∧
  (result = Z.of_nat (length order) ∨
   ∃ t, t ∈ typesOf cardTypes ∧ recognized order t ∧ indexOf order t = result) ∧
  (∀ t, t ∈ typesOf cardTypes → recognized order t → result ≤ indexOf order t).
Proof.
  cbn zeta. unfold getEarliestTypeIndex, typesOf.
  destruct (truthy cardTypes); simpl.
  - apply earliest_fold.
  - split; [lia|]. split; [by left|]. intros t Hin. by apply elem_of_nil in Hin.
Qed.

(** A card without a recognized type gets the length of the enumeration,
    a card with one gets the least index among its recognized types. *)
Lemma getEarliestTypeIndex_none order cardTypes :
  (∀ t, t ∈ typesOf cardTypes → ¬ recognized order t) →
  getEarliestTypeIndex order cardTypes = Z.of_nat (length order).
Proof.
  intros Hnone.
  destruct (getEarliestTypeIndex_spec order cardTypes) as (_ & [Hmax|Hsome] & _); [done|].
  destruct Hsome as (t & Hin & Hrec & _). by destruct (Hnone t Hin).
Qed.

Lemma getEarliestTypeIndex_some order cardTypes :
  (∃ t, t ∈ typesOf cardTypes ∧ recognized order t) →
  let result := getEarliestTypeIndex order cardTypes in
  0 ≤ result < Z.of_nat (length order) ∧
  (∃ t, t ∈ typesOf cardTypes ∧ recognized order t ∧ indexOf order t = result) ∧
  (∀ t, t ∈ typesOf cardTypes → recognized order t → result ≤ indexOf order t).
Proof.
  intros (t & Hin & Hrec). cbn zeta.
  destruct (getEarliestTypeIndex_spec order cardTypes) as (Hle & Hwhich & Hleast).
  pose proof (Hleast t Hin Hrec) as Hbelow.
  pose proof (indexOf_recognized order t Hrec) as Hrange.
  destruct Hwhich as [Hmax|(u & Hu & Hurec & Huidx)]; [lia|].
  pose proof (indexOf_recognized order u Hurec).
  split; [lia|]. split; [|done]. by exists u.
Qed.

(** C9. [kindSort]: a kind outside the enumeration of four kinds has index
    -1, so its card sorts before every card of a recognized kind (also in
    the display comparator, which asks the kind first).  [typeSort]: a card
    with no type, or with none of its types in the enumeration of nine
    types, has the index 9, the largest there is, so it sorts after every
    card with a recognized type; a card with a recognized type has the
    least enumeration index among its recognized types.  Between two cards
    of recognized kinds [kindSort] is the difference of the positions of
    their kinds in the enumeration, and between two cards with recognized
    types [typeSort] is the difference of the positions of their earliest
    types; each is 0 exactly on the same kind or the same earliest type,
    and between two cards without a recognized kind or type. *)
Theorem kind_and_type_order_spec :
  (length allKinds = 4%nat ∧ length allTypes = 9%nat) ∧
  (∀ (A B : Type) `{HasKind A} `{HasKind B} (a : A) (b : B),
     ¬ recognized allKinds (getKind a) →
     indexOf allKinds (getKind a) = -1 ∧
     (recognized allKinds (getKind b) → kindSort a b < 0 ∧ 0 < kindSort b a)) ∧
  (∀ localeCompare (a b : Card.t),
     ¬ recognized allKinds (Card.kind a) → recognized allKinds (Card.kind b) →
     availableCardsCompare localeCompare a b < 0 ∧
     0 < availableCardsCompare localeCompare b a) ∧
  (∀ (A B : Type) `{HasType A} `{HasType B} (a : A) (b : B),
     (∀ t, t ∈ typesOf (getType a) → ¬ recognized allTypes t) →
     getEarliestTypeIndex allTypes (getType a) = 9 ∧
     (∀ cardTypes, getEarliestTypeIndex allTypes cardTypes ≤ 9) ∧
     ((∃ t, t ∈ typesOf (getType b) ∧ recognized allTypes t) →
      0 < typeSort a b ∧ typeSort b a < 0)) ∧
  (∀ cardTypes,
     (∃ t, t ∈ typesOf cardTypes ∧ recognized allTypes t) →
     let earliest := getEarliestTypeIndex allTypes cardTypes in
     0 ≤ earliest < 9 ∧
     (∃ t, t ∈ typesOf cardTypes ∧ recognized allTypes t ∧
           indexOf allTypes t = earliest) ∧
     (∀ t, t ∈ typesOf cardTypes → recognized allTypes t →
           earliest ≤ indexOf allTypes t)) ∧
  (∀ (A B : Type) `{HasKind A} `{HasKind B} (a : A) (b : B),
     (recognized allKinds (getKind a) → recognized allKinds (getKind b) →
      kindSort a b = indexOf allKinds (getKind a) - indexOf allKinds (getKind b) ∧
      (kindSort a b = 0 ↔ getKind a = getKind b)) ∧
     (¬ recognized allKinds (getKind a) → ¬ recognized allKinds (getKind b) →
      kindSort a b = 0)) ∧
  (∀ (A B : Type) `{HasType A} `{HasType B} (a : A) (b : B),
     (∀ tA tB, earliestType (getType a) tA → earliestType (getType b) tB →
               typeSort a b = indexOf allTypes tA - indexOf allTypes tB ∧
               (typeSort a b = 0 ↔ tA = tB)) ∧
     ((∀ t, t ∈ typesOf (getType a) → ¬ recognized allTypes t) →
      (∀ t, t ∈ typesOf (getType b) → ¬ recognized allTypes t) →
      typeSort a b = 0)).
Proof.
  assert (∀ (A B : Type) `{HasKind A} `{HasKind B} (a : A) (b : B),
            ¬ recognized allKinds (getKind a) → recognized allKinds (getKind b) →
            kindSort a b < 0 ∧ 0 < kindSort b a) as Hkinds.
  { intros A B HA HB a b Hunknown Hknown. unfold kindSort.
    rewrite (indexOf_unknown _ _ Hunknown).
    pose proof (indexOf_recognized _ _ Hknown). lia. }
  assert (∀ cardTypes t, earliestType cardTypes t →
            getEarliestTypeIndex allTypes cardTypes = indexOf allTypes t) as Hfirst.
  { intros cardTypes t (Hin & Hrec & Hleast).
    destruct (getEarliestTypeIndex_some allTypes cardTypes) as (_ & Hsome & Hbelow);
      [by exists t|].
    destruct Hsome as (u & Hu & Hurec & Hidx).
    specialize (Hbelow t Hin Hrec). specialize (Hleast u Hu Hurec). lia. }
  split; [done|]. split; [|split; [|split; [|split; [|split]]]].
  - intros A B HA HB a b Hunknown. split; [by apply indexOf_unknown|].
    intros Hknown. by apply Hkinds.
  - intros localeCompare a b Hunknown Hknown.
    destruct (Hkinds Card.t Card.t card_has_kind card_has_kind a b Hunknown Hknown)
      as [Hab Hba].
    unfold availableCardsCompare.
    rewrite (proj2 (Z.eqb_neq (kindSort a b) 0)) by lia.
    rewrite (proj2 (Z.eqb_neq (kindSort b a) 0)) by lia.
    done.
  - intros A B HA HB a b Hnone.
    pose proof (getEarliestTypeIndex_none allTypes (getType a) Hnone) as Hlast.
    split; [done|]. split.
    + intros cardTypes.
      by destruct (getEarliestTypeIndex_spec allTypes cardTypes) as [? _].
    + intros Hsome. unfold typeSort. rewrite Hlast.
      destruct (getEarliestTypeIndex_some allTypes (getType b) Hsome) as [Hrange _].
      change (Z.of_nat (length allTypes)) with 9 in *. lia.
  - intros cardTypes Hsome. by apply getEarliestTypeIndex_some.
  - intros A B HA HB a b. split.
    + intros Ha Hb. split; [done|]. unfold kindSort. split.
      * intros Hzero. apply (indexOf_inj allKinds); [done..|lia].
      * intros ->. lia.
    + intros Ha Hb. unfold kindSort.
      rewrite (indexOf_unknown _ _ Ha), (indexOf_unknown _ _ Hb). done.
  - intros A B HA HB a b. split.
    + intros tA tB HtA HtB. unfold typeSort.
      rewrite (Hfirst _ _ HtA), (Hfirst _ _ HtB). split; [done|].
      destruct HtA as (_ & HrecA & _), HtB as (_ & HrecB & _). split.
      * intros Hzero. apply (indexOf_inj allTypes); [done..|lia].
      * intros ->. lia.
    + intros Ha Hb. unfold typeSort.
      rewrite (getEarliestTypeIndex_none _ _ Ha), (getEarliestTypeIndex_none _ _ Hb). lia.
Qed.

Lemma kind_and_type_order_spec_witness :
  let token := Card.mk "T-1" "Token" (JStr "Token") JUndefined (JArr []) in
  let odd := Card.mk "T-2" "Odd" JNull (JArr [JStr "緑"; JNum 3]) (JArr []) in
  (¬ recognized allKinds (Card.kind token) ∧
   recognized allKinds (Card.kind Sample.cardA) ∧
   indexOf allKinds (Card.kind token) = -1 ∧
   kindSort token Sample.cardA < 0 ∧
   availableCardsCompare Sample.byteCompare token Sample.cardA < 0) ∧
  ((∀ t, t ∈ typesOf (Card.type odd) → ¬ recognized allTypes t) ∧
   (∃ t, t ∈ typesOf (Card.type Sample.cardB) ∧ recognized allTypes t) ∧
   getEarliestTypeIndex allTypes (Card.type odd) = 9 ∧
   0 < typeSort odd Sample.cardB) ∧
  (JStr "赤" ∈ typesOf (Card.type Sample.cardB) ∧ recognized allTypes (JStr "赤") ∧
   getEarliestTypeIndex allTypes (Card.type Sample.cardB) ≤ indexOf allTypes (JStr "赤")) ∧
  (recognized allKinds (Card.kind Sample.cardA) ∧
   recognized allKinds (Card.kind Sample.cardB) ∧
   kindSort Sample.cardA Sample.cardB = 0 - 1) ∧
  (earliestType (Card.type Sample.cardB) (JStr "赤") ∧
   earliestType (Card.type Sample.cardX) (JStr "即時") ∧
   typeSort Sample.cardB Sample.cardX = 0 - 6).
Proof.
  cbn zeta.
  destruct kind_and_type_order_spec
    as (_ & Hkind & Hdisplay & Htype & Hearliest & Hkinds & Htypes).
  assert (∀ order s, s ∈ order → recognized order (JStr s)) as Hrec.
  { intros order s Hin. apply list_elem_of_fmap. by exists s. }
  assert (¬ recognized allKinds (JStr "Token")) as Hunknown.
  { intros (s & [= <-] & Hin)%list_elem_of_fmap.
    repeat (apply elem_of_cons in Hin as [Hin|Hin]; [discriminate|]).
    by apply elem_of_nil in Hin. }
  assert (recognized allKinds (JStr "Artist")) as Hknown
    by (apply Hrec, elem_of_cons; by left).
  assert (∀ t, t ∈ [JStr "緑"; JNum 3] → ¬ recognized allTypes t) as Hnone.
  { intros t Hin (s & -> & Hs)%list_elem_of_fmap.
    apply elem_of_cons in Hin as [[= ->]|Hin].
    - repeat (apply elem_of_cons in Hs as [Hs|Hs]; [discriminate|]).
      by apply elem_of_nil in Hs.
    - apply elem_of_cons in Hin as [?|Hin]; [discriminate|].
      by apply elem_of_nil in Hin. }
  assert (JStr "赤" ∈ [JStr "青"; JStr "赤"]) as Hred
    by (apply elem_of_cons; right; apply elem_of_cons; by left).
  assert (recognized allTypes (JStr "赤")) as Hredrec
    by (apply Hrec, elem_of_cons; by left).
  assert (∃ t, t ∈ [JStr "青"; JStr "赤"] ∧ recognized allTypes t) as Hsome
    by (by exists (JStr "赤")).
  assert (recognized allKinds (JStr "Song")) as Hsong
    by (apply Hrec, elem_of_cons; right; apply elem_of_cons; by left).
  assert (earliestType (JArr [JStr "青"; JStr "赤"]) (JStr "赤")) as HearlyB.
  { split; [exact Hred|]. split; [exact Hredrec|].
    intros u _ Hu. by destruct (indexOf_recognized _ _ Hu). }
  assert (earliestType (JStr "即時") (JStr "即時")) as HearlyX.
  { split; [by apply list_elem_of_singleton|].
    split; [apply Hrec; by repeat (first [by left|right])|].
    intros u ->%list_elem_of_singleton _. done. }
  split; [|split; [|split; [|split]]].
  - split; [exact Hunknown|]. split; [exact Hknown|].
    destruct (Hkind Card.t Card.t card_has_kind card_has_kind
                (Card.mk "T-1" "Token" (JStr "Token") JUndefined (JArr []))
                Sample.cardA Hunknown) as [Hminus Hbefore].
    split; [exact Hminus|]. split; [exact (proj1 (Hbefore Hknown))|].
    exact (proj1 (Hdisplay Sample.byteCompare
                    (Card.mk "T-1" "Token" (JStr "Token") JUndefined (JArr []))
                    Sample.cardA Hunknown Hknown)).
  - split; [exact Hnone|]. split; [exact Hsome|].
    destruct (Htype Card.t Card.t card_has_type card_has_type
                (Card.mk "T-2" "Odd" JNull (JArr [JStr "緑"; JNum 3]) (JArr []))
                Sample.cardB Hnone) as (Hlast & _ & Hafter).
    split; [exact Hlast|]. exact (proj1 (Hafter Hsome)).
  - split; [exact Hred|]. split; [exact Hredrec|].
    exact (proj2 (proj2 (Hearliest (Card.type Sample.cardB) Hsome)) _ Hred Hredrec).
  - split; [exact Hknown|]. split; [exact Hsong|].
    exact (proj1 (proj1 (Hkinds Card.t Card.t card_has_kind card_has_kind
                           Sample.cardA Sample.cardB) Hknown Hsong)).
  - split; [exact HearlyB|]. split; [exact HearlyX|].
    exact (proj1 (proj1 (Htypes Card.t Card.t card_has_type card_has_type
                           Sample.cardB Sample.cardX) _ _ HearlyB HearlyX)).
Defined.

(** ** Filter *)

Lemma startsWith_empty s : startsWith s "" = true.
Proof. by destruct s. Qed.

Lemma includes_empty s : includes s "" = true.
Proof. destruct s; simpl; by rewrite ?startsWith_empty. Qed.

Lemma append_cons c s t : String c s +:+ t = String c (s +:+ t).
Proof. reflexivity. Qed.

Lemma startsWith_spec s t : startsWith s t = true ↔ ∃ q, s = t +:+ q.
Proof.
  revert s. induction t as [|b t IH]; intros s.
  - rewrite startsWith_empty. split; [|done]. intros _. by exists s.
  - destruct s as [|a s]; simpl.
    + split; [done|]. by intros [q Hq].
    + destruct (Ascii.eqb_spec a b) as [->|Hne].
      * rewrite IH. split; intros [q Hq]; exists q; rewrite append_cons in *; congruence.
      * split; [done|]. intros [q Hq]. rewrite append_cons in Hq. congruence.
Qed.

(** [includes] is the substring test. *)
Lemma includes_spec s t : includes s t = true ↔ ∃ p q, s = p +:+ t +:+ q.
Proof.
  induction s as [|a s IH].
  - cbn [includes]. rewrite orb_false_r, startsWith_spec. split.
    + intros [q Hq]. by exists "", q.
    + intros (p & q & Hpq). destruct p; [by exists q|done].
  - cbn [includes]. rewrite orb_true_iff, IH, startsWith_spec. split.
    + intros [[q Hq]|(p & q & Hpq)].
      * by exists "", q.
      * exists (String a p), q. rewrite append_cons. by rewrite Hpq.
    + intros (p & q & Hpq). destruct p as [|a' p].
      * left. by exists q.
      * right. exists p, q. rewrite append_cons in Hpq. congruence.
Qed.

Lemma size_list_to_set (l : list string) :
  (0 <? size (list_to_set l : gset string))%nat = negb (isEmpty l).
Proof.
  destruct l as [|x l]; [done|]. simpl.
  apply Nat.ltb_lt.
  assert (size ({[x]} ∪ list_to_set l : gset string) ≠ 0%nat); [|lia].
  apply size_non_empty_iff. intros Hempty.
  assert (x ∈ ({[x]} ∪ list_to_set l : gset string)) as Hin by set_solver.
  rewrite Hempty in Hin. set_solver.
Qed.

Lemma has_list_to_set (l : list string) v :
  has (list_to_set l) v = existsb (isString v) l.
Proof.
  destruct v as [| | | |s| |]; simpl; try by induction l.
  apply Bool.eq_iff_eq_true.
  rewrite bool_decide_eq_true, elem_of_list_to_set, existsb_exists. split.
  - intros Hin. exists s. split; [by apply list_elem_of_In|by apply bool_decide_eq_true].
  - intros (k & Hin & ->%bool_decide_eq_true). by apply list_elem_of_In.
Qed.

Lemma filterM_pure {A} (f : A → result bool) (g : A → bool) (l : list A) :
  Forall (λ x, f x = Return (g x)) l → filterM f l = Return (List.filter g l).
Proof.
  induction 1 as [|x l Hx _ IH]; [done|].
  cbn [filterM List.filter]. rewrite Hx, IH. simpl. by destruct (g x).
Qed.

Lemma existsb_ext_in {A} (f g : A → bool) (l : list A) :
  (∀ x, f x = g x) → existsb f l = existsb g l.
Proof. intros Hfg. induction l as [|x l IH]; simpl; [done|]. by rewrite Hfg, IH. Qed.

Section FilterProperties.
Variable toLowerCase : string → string.

Lemma some_tagIncludes textLower tags :
  Forall (λ tag, ∃ s, tag = JStr s) tags →
  some (tagIncludes toLowerCase textLower) tags =
    Return (existsb (λ s, includes (toLowerCase s) textLower)
              (omap (λ tag, match tag with JStr s => Some s | _ => None end) tags)).
Proof.
  induction 1 as [|tag tags [s ->] _ IH]; [done|].
  cbn [some tagIncludes omap list_omap existsb]. simpl.
  destruct (includes (toLowerCase s) textLower); [done|]. exact IH.
Qed.

Lemma textMatches_strings textLower card :
  tagsAreStrings card →
  textMatches toLowerCase textLower card =
    Return (includes (toLowerCase (Card.name card)) textLower ||
            includes (toLowerCase (Card.id card)) textLower ||
            existsb (λ s, includes (toLowerCase s) textLower) (tagStrings card)).
Proof.
  intros Htags. unfold textMatches, tagStrings. unfold tagsAreStrings in Htags.
  destruct (includes (toLowerCase (Card.name card)) textLower); [done|].
  destruct (includes (toLowerCase (Card.id card)) textLower); [done|].
  destruct (Card.tags card); try done. simpl. by apply some_tagIncludes.
Qed.

Lemma textMatches_no_array textLower card :
  isArray (Card.tags card) = false →
  textMatches toLowerCase textLower card =
    Return (includes (toLowerCase (Card.name card)) textLower ||
            includes (toLowerCase (Card.id card)) textLower).
Proof.
  intros Htags. unfold textMatches.
  destruct (includes (toLowerCase (Card.name card)) textLower); [done|].
  destruct (includes (toLowerCase (Card.id card)) textLower); [done|].
  by destruct (Card.tags card).
Qed.

Lemma existsb_has_tags (wanted : list string) card :
  match Card.tags card with
  | JArr tags => existsb (has (list_to_set wanted)) tags
  | _ => false
  end = existsb (λ tag, bool_decide (tag ∈ wanted)) (tagStrings card).
Proof.
  unfold tagStrings. destruct (Card.tags card) as [| | | | |tags|]; try done.
  induction tags as [|tag tags IH]; [done|].
  cbn [existsb omap list_omap]. rewrite IH.
  destruct tag as [| | | |s| |]; try done. simpl.
  f_equal. apply bool_decide_ext, elem_of_list_to_set.
Qed.

(** The callback of the filter: the text search, which may throw, and
    then the three set filters. *)
Lemma keepCard_eq card criteria :
  keepCard toLowerCase (toLowerCase (Criteria.text criteria))
    (list_to_set (Criteria.kind criteria)) (list_to_set (Criteria.type criteria))
    (list_to_set (Criteria.tags criteria)) card =
  bind (if negb (bool_decide (toLowerCase (Criteria.text criteria) = ""))
        then bind (textMatches toLowerCase (toLowerCase (Criteria.text criteria)) card)
                  (λ found, Return (negb found))
        else Return false)
       (λ textFails, Return (negb textFails && setFilters card criteria)).
Proof.
  unfold keepCard.
  destruct (if negb (bool_decide (toLowerCase (Criteria.text criteria) = "")) then _ else _)
    as [textFails|e]; [|done].
  cbn [bind]. destruct textFails; [done|].
  rewrite !size_list_to_set, has_list_to_set, existsb_has_tags.
  rewrite (existsb_ext_in (has (list_to_set (Criteria.type criteria)))
             (λ type, existsb (isString type) (Criteria.type criteria)))
    by (intros v; apply has_list_to_set).
  unfold setFilters. fold (cardTypes card).
  destruct (isEmpty (Criteria.kind criteria)),
    (existsb (isString (Card.kind card)) (Criteria.kind criteria)),
    (isEmpty (Criteria.type criteria)),
    (existsb (λ type, existsb (isString type) (Criteria.type criteria)) (cardTypes card)),
    (isEmpty (Criteria.tags criteria)),
    (existsb (λ tag, bool_decide (tag ∈ Criteria.tags criteria)) (tagStrings card));
    reflexivity.
Qed.

Lemma keepCard_matches card criteria :
  toLowerCase "" = "" →
  tagsAreStrings card →
  keepCard toLowerCase (toLowerCase (Criteria.text criteria))
    (list_to_set (Criteria.kind criteria)) (list_to_set (Criteria.type criteria))
    (list_to_set (Criteria.tags criteria)) card =
  Return (matches toLowerCase card criteria).
Proof.
  intros Hlow Htags. rewrite keepCard_eq.
  unfold matches, occursIn, setFilters. rewrite <- !andb_assoc.
  destruct (bool_decide_reflect (toLowerCase (Criteria.text criteria) = "")) as [Hempty|Hfull].
  - cbn [negb bind]. rewrite Hempty, !includes_empty.
    by destruct (bool_decide (Criteria.text criteria = "")).
  - cbn [negb]. rewrite textMatches_strings by done. cbn [bind].
    rewrite bool_decide_eq_false_2 by (intros Htext; rewrite Htext in Hfull; done).
    by rewrite negb_involutive.
Qed.

Lemma keepCard_no_array card criteria :
  isArray (Card.tags card) = false →
  keepCard toLowerCase (toLowerCase (Criteria.text criteria))
    (list_to_set (Criteria.kind criteria)) (list_to_set (Criteria.type criteria))
    (list_to_set (Criteria.tags criteria)) card =
  Return (matchesWithoutTags toLowerCase card criteria).
Proof.
  intros Htags. rewrite keepCard_eq.
  assert (tagStrings card = []) as Hnone
    by (unfold tagStrings; by destruct (Card.tags card)).
  unfold matchesWithoutTags, occursIn, setFilters. rewrite Hnone. cbn [existsb].
  rewrite orb_false_r, <- !andb_assoc.
  destruct (bool_decide_reflect (toLowerCase (Criteria.text criteria) = "")) as [Hempty|Hfull].
  - done.
  - cbn [negb]. rewrite textMatches_no_array by done. cbn [bind].
    by rewrite negb_involutive.
Qed.

Lemma keepCard_empty_tags card criteria :
  keepCard toLowerCase (toLowerCase (Criteria.text criteria))
    (list_to_set (Criteria.kind criteria)) (list_to_set (Criteria.type criteria))
    (list_to_set (Criteria.tags criteria)) (withTags (JArr []) card) =
  Return (matchesWithoutTags toLowerCase card criteria).
Proof.
  rewrite keepCard_eq.
  unfold matchesWithoutTags, occursIn, setFilters, textMatches, tagStrings, cardTypes.
  cbn [withTags Card.tags Card.name Card.id Card.kind Card.type omap list_omap existsb some].
  rewrite orb_false_r, <- !andb_assoc.
  destruct (bool_decide (toLowerCase (Criteria.text criteria) = "")); [done|].
  cbn [negb orb].
  destruct (includes (toLowerCase (Card.name card)) _); [done|].
  by destruct (includes (toLowerCase (Card.id card)) _).
Qed.

Lemma filter_fmap_same {A} (g : A → bool) (f : A → A) (l : list A) :
  (∀ x, g (f x) = g x) → List.filter g (f <$> l) = f <$> List.filter g l.
Proof.
  intros Hgf. induction l as [|x l IH]; [done|].
  rewrite fmap_cons. cbn [List.filter]. rewrite Hgf, IH. by destruct (g x).
Qed.

(** C8. For cards whose tags are strings, [filterCards] keeps exactly
    the cards that satisfy the contract [matches]: the text is empty or
    occurs, the case of letters set aside, in the name, the id or a tag;
    the kinds are empty or hold the kind of the card; the types are empty
    or hold one of its types; the tags are empty or hold one of its tags.
    With empty criteria every card is kept, and with the kinds reduced to
    Song exactly the cards of kind Song are kept. *)
Theorem filterCards_spec :
  toLowerCase "" = "" →
  (∀ cards criteria,
     Forall tagsAreStrings cards →
     filterCards toLowerCase cards criteria =
       Return (List.filter (λ card, matches toLowerCase card criteria) cards) ∧
     ∃ kept, filterCards toLowerCase cards criteria = Return kept ∧
             ∀ card, card ∈ kept ↔
                     card ∈ cards ∧ matches toLowerCase card criteria = true) ∧
  (∀ text s, occursIn toLowerCase text s = true ↔
             ∃ p q, toLowerCase s = p +:+ toLowerCase text +:+ q) ∧
  (∀ cards, filterCards toLowerCase cards (Criteria.mk "" [] [] []) = Return cards) ∧
  (∀ cards, filterCards toLowerCase cards (Criteria.mk "" ["Song"] [] []) =
            Return (List.filter (λ card, isString (Card.kind card) "Song") cards)).
Proof.
  intros Hlow.
  assert (∀ cards criteria,
            Forall tagsAreStrings cards →
            filterCards toLowerCase cards criteria =
              Return (List.filter (λ card, matches toLowerCase card criteria) cards))
    as Hfilter.
  { intros cards criteria Htags. unfold filterCards. apply filterM_pure.
    eapply Forall_impl; [exact Htags|]. intros card Hcard.
    by apply keepCard_matches. }
  split; [|split; [|split]].
  - intros cards criteria Htags. split; [by apply Hfilter|].
    eexists. split; [by apply Hfilter|].
    intros card. rewrite list_elem_of_In, filter_In, <- list_elem_of_In. done.
  - intros text s. apply includes_spec.
  - intros cards. unfold filterCards.
    rewrite (filterM_pure _ (λ _, true)).
    + f_equal. induction cards as [|card cards IH]; [done|]. simpl. by rewrite IH.
    + apply Forall_forall. intros card _.
      rewrite (keepCard_eq card (Criteria.mk "" [] [] [])).
      cbn [Criteria.text]. by rewrite Hlow.
  - intros cards. unfold filterCards.
    apply filterM_pure. apply Forall_forall. intros card _.
    rewrite (keepCard_eq card (Criteria.mk "" ["Song"] [] [])).
    cbn [Criteria.text]. rewrite Hlow. cbn [bool_decide negb bind].
    unfold setFilters. simpl. by rewrite orb_false_r, !andb_true_r.
Qed.

(** C10. On cards whose [tags] field is missing or is not an array,
    [filterCards] returns without an exception and decides as it does
    for the same cards with an empty array of tags: the text is looked
    for in the name and the id only, and criteria that ask for a tag
    exclude every such card. *)
Theorem filterCards_without_tags (cards : list Card.t) (criteria : Criteria.t) :
  Forall (λ card, isArray (Card.tags card) = false) cards →
  let kept := List.filter (λ card, matchesWithoutTags toLowerCase card criteria) cards in
  filterCards toLowerCase cards criteria = Return kept ∧
  filterCards toLowerCase (withTags (JArr []) <$> cards) criteria =
    Return (withTags (JArr []) <$> kept) ∧
  (∀ card, card ∈ cards →
     textMatches toLowerCase (toLowerCase (Criteria.text criteria)) card =
       Return (occursIn toLowerCase (Criteria.text criteria) (Card.name card) ||
               occursIn toLowerCase (Criteria.text criteria) (Card.id card))) ∧
  (Criteria.tags criteria ≠ [] → kept = []).
Proof.
  intros Htags. cbn zeta. split; [|split; [|split]].
  - unfold filterCards. apply filterM_pure.
    eapply Forall_impl; [exact Htags|]. intros card Hcard.
    by apply keepCard_no_array.
  - unfold filterCards.
    rewrite (filterM_pure _ (λ card, matchesWithoutTags toLowerCase card criteria)).
    + f_equal. by apply filter_fmap_same.
    + apply Forall_fmap, Forall_forall. intros card _.
      cbn [compose]. by rewrite keepCard_empty_tags.
  - intros card Hin. rewrite Forall_forall in Htags.
    by apply textMatches_no_array, Htags.
  - intros Hasked. induction cards as [|card cards IH]; [done|].
    apply Forall_cons in Htags as [_ Htags].
    cbn [List.filter]. unfold matchesWithoutTags at 1.
    destruct (Criteria.tags criteria); [done|].
    cbn [isEmpty]. rewrite andb_false_r. by apply IH.
Qed.
End FilterProperties.

Lemma filterCards_spec_witness :
  let low := Sample.asciiLower in
  let byText := Criteria.mk "KAF" [] [] [] in
  let byAll := Criteria.mk "a" ["Artist"; "Song"] ["赤"] ["花譜"; "VALIS"] in
  low "" = "" ∧
  Forall tagsAreStrings Sample.catalog ∧
  filterCards low Sample.catalog byText =
    Return (List.filter (λ card, matches low card byText) Sample.catalog) ∧
  List.filter (λ card, matches low card byText) Sample.catalog = [Sample.cardA] ∧
  filterCards low Sample.catalog byAll =
    Return (List.filter (λ card, matches low card byAll) Sample.catalog) ∧
  List.filter (λ card, matches low card byAll) Sample.catalog = [Sample.cardA] ∧
  filterCards low Sample.catalog (Criteria.mk "" [] [] []) = Return Sample.catalog ∧
  filterCards low Sample.catalog (Criteria.mk "" ["Song"] [] []) = Return [Sample.cardB].
Proof.
  cbn zeta.
  assert (Sample.asciiLower "" = "") as Hlow by reflexivity.
  assert (Forall tagsAreStrings Sample.catalog) as Htags.
  { repeat constructor; unfold tagsAreStrings; simpl; by eexists. }
  destruct (filterCards_spec Sample.asciiLower Hlow) as (Hfilter & _ & Hall & Hsong).
  split; [exact Hlow|]. split; [exact Htags|].
  split; [exact (proj1 (Hfilter Sample.catalog (Criteria.mk "KAF" [] [] []) Htags))|].
  split; [by vm_compute|].
  split; [exact (proj1 (Hfilter Sample.catalog
                          (Criteria.mk "a" ["Artist"; "Song"] ["赤"] ["花譜"; "VALIS"])
                          Htags))|].
  split; [by vm_compute|].
  split; [exact (Hall Sample.catalog)|].
  exact (Hsong Sample.catalog).
Defined.

Lemma filterCards_without_tags_witness :
  let low := Sample.asciiLower in
  let cards := [Sample.cardB; Sample.cardC] in
  let byTag := Criteria.mk "rim" [] [] ["VALIS"] in
  let byText := Criteria.mk "RIM" [] [] [] in
  Forall (λ card, isArray (Card.tags card) = false) cards ∧
  Criteria.tags byTag ≠ [] ∧
  filterCards low cards byTag = Return [] ∧
  filterCards low cards byText = Return [Sample.cardB] ∧
  filterCards low (withTags (JArr []) <$> cards) byText =
    Return [withTags (JArr []) Sample.cardB].
Proof.
  cbn zeta.
  assert (Forall (λ card, isArray (Card.tags card) = false) [Sample.cardB; Sample.cardC])
    as Htags by (by repeat constructor).
  assert (["VALIS"] ≠ @nil string) as Hasked by discriminate.
  split; [exact Htags|]. split; [exact Hasked|].
  split; [|split].
  - destruct (filterCards_without_tags Sample.asciiLower [Sample.cardB; Sample.cardC]
                (Criteria.mk "rim" [] [] ["VALIS"]) Htags) as (Hkept & _ & _ & Hnone).
    rewrite Hkept, (Hnone Hasked). reflexivity.
  - exact (proj1 (filterCards_without_tags Sample.asciiLower [Sample.cardB; Sample.cardC]
                    (Criteria.mk "RIM" [] [] []) Htags)).
  - exact (proj1 (proj2 (filterCards_without_tags Sample.asciiLower
                           [Sample.cardB; Sample.cardC]
                           (Criteria.mk "RIM" [] [] []) Htags))).
Defined.

(** * Further properties *)

(** ** Deck store: the other operations *)

Lemma findEntry_is_Some cardId deck :
  cardId ∈ entryId <$> deck → ∃ i item, findEntry cardId deck = Some (i, item).
Proof.
  intros Hin. destruct (findEntry cardId deck) as [[i item]|] eqn:Hfind; [by eauto|].
  by apply findEntry_None in Hfind.
Qed.

(** X1. [incrementCardCount(id)] leaves the deck as it is when the deck has
    no entry for the id, and does what [addCardToDeck(card)] does when it
    has one and [id] is the id of the card. *)
Theorem incrementCardCount_as_addCardToDeck (cardId : string) (st : State) :
  (cardId ∉ entryId <$> deckCards st →
   deckCards (incrementCardCount cardId st) = deckCards st) ∧
  (∀ card, Card.id card = cardId → cardId ∈ entryId <$> deckCards st →
           incrementCardCount cardId st = addCardToDeck card st).
Proof.
  split.
  - intros Habsent. unfold incrementCardCount.
    rewrite (proj2 (findEntry_None _ _) Habsent). by case_bool_decide.
  - intros card <- Hin. unfold incrementCardCount, addCardToDeck.
    destruct (findEntry_is_Some _ _ Hin) as (i & item & ->). done.
Qed.

Lemma incrementCardCount_as_addCardToDeck_witness :
  (("AA-10" ∉ entryId <$> deckCards (Sample.stateWith Sample.smallDeck)) ∧
   deckCards (incrementCardCount "AA-10" (Sample.stateWith Sample.smallDeck)) =
     Sample.smallDeck) ∧
  (Card.id Sample.cardA = "AA-1" ∧
   "AA-1" ∈ entryId <$> deckCards (Sample.stateWith Sample.smallDeck) ∧
   incrementCardCount "AA-1" (Sample.stateWith Sample.smallDeck) =
     addCardToDeck Sample.cardA (Sample.stateWith Sample.smallDeck)).
Proof.
  destruct (incrementCardCount_as_addCardToDeck "AA-10" (Sample.stateWith Sample.smallDeck))
    as [Habsent _].
  destruct (incrementCardCount_as_addCardToDeck "AA-1" (Sample.stateWith Sample.smallDeck))
    as [_ Hpresent].
  assert ("AA-10" ∉ entryId <$> deckCards (Sample.stateWith Sample.smallDeck)) as Hout.
  { simpl. intros Hin. repeat (apply elem_of_cons in Hin as [Hin|Hin]; [discriminate|]).
    by apply elem_of_nil in Hin. }
  assert ("AA-1" ∈ entryId <$> deckCards (Sample.stateWith Sample.smallDeck)) as Hin
    by (apply elem_of_cons; by left).
  split.
  - split; [exact Hout|]. exact (Habsent Hout).
  - split; [reflexivity|]. split; [exact Hin|]. exact (Hpresent Sample.cardA eq_refl Hin).
Defined.

Lemma setDeckCards_same st : setDeckCards (deckCards st) st = st.
Proof. by destruct st. Qed.

Lemma setDeckCards_twice deck deck' st :
  setDeckCards deck (setDeckCards deck' st) = setDeckCards deck st.
Proof. reflexivity. Qed.

Lemma findEntry_middle cardId before item after :
  Forall (λ other, entryId other ≠ cardId) before →
  entryId item = cardId →
  findEntry cardId (before ++ item :: after) = Some (length before, item).
Proof.
  intros Hbefore Hid. apply findEntry_first; [|done|].
  - by rewrite list_lookup_middle.
  - intros j other Hj Hlt. rewrite lookup_app_l in Hj by done.
    rewrite Forall_forall in Hbefore. apply Hbefore.
    by eapply list_elem_of_lookup_2.
Qed.

Lemma alter_middle {A} (f : A → A) (before : list A) x after :
  alter f (length before) (before ++ x :: after) = before ++ f x :: after.
Proof.
  rewrite alter_app_r_alt by lia.
  by replace (length before - length before)%nat with 0%nat by lia.
Qed.

Lemma filter_other_ids cardId (deck : list Entry.t) :
  cardId ∉ entryId <$> deck →
  filter (λ item, Card.id (Entry.card item) ≠ cardId) deck = deck.
Proof.
  induction deck as [|item deck IH]; [done|].
  rewrite fmap_cons, not_elem_of_cons. intros [Hne Hout].
  rewrite filter_cons_True by (unfold entryId in Hne; congruence).
  by rewrite IH.
Qed.

Lemma filter_one_id cardId (before : list Entry.t) item after :
  entryId item = cardId →
  NoDup (entryId <$> before ++ item :: after) →
  filter (λ other, Card.id (Entry.card other) ≠ cardId) (before ++ item :: after) =
    before ++ after.
Proof.
  intros Hid Hnd. rewrite fmap_app, fmap_cons in Hnd.
  apply NoDup_app in Hnd as (_ & Hdisj & Hnd). apply NoDup_cons in Hnd as [Hafter _].
  rewrite filter_app, filter_cons_False by (unfold entryId in Hid; intros Hne; by apply Hne).
  rewrite !filter_other_ids; [done| |].
  - by rewrite <- Hid.
  - intros Hin. apply (Hdisj _ Hin). rewrite Hid. apply elem_of_cons. by left.
Qed.

(** X2. [decrementCardCount(id)] does nothing when the deck has no entry
    for the id; it lowers the count of the first entry for the id when that
    count is above 1, removes the entries for the id when it is 1, and does
    nothing when it is below 1.  On a deck with one entry per id and a count
    of at least 1 there, the total goes down by exactly one. *)
Theorem decrementCardCount_spec (cardId : string) (st : State) :
  (cardId ∉ entryId <$> deckCards st → decrementCardCount cardId st = st) ∧
  (∀ i item,
     findEntry cardId (deckCards st) = Some (i, item) →
     (1 < Entry.count item →
      deckCards (decrementCardCount cardId st) =
        <[i := Entry.mk (Entry.card item) (Entry.count item - 1)]> (deckCards st)) ∧
     (Entry.count item = 1 →
      decrementCardCount cardId st = removeCardFromDeck cardId st ∧
      cardId ∉ entryId <$> deckCards (decrementCardCount cardId st)) ∧
     (Entry.count item < 1 → decrementCardCount cardId st = st) ∧
     (NoDup (entryId <$> deckCards st) → 1 ≤ Entry.count item →
      totalDeckCards (decrementCardCount cardId st) = totalDeckCards st - 1) ∧
     alerts (decrementCardCount cardId st) = alerts st).
Proof.
  split.
  - intros Habsent. unfold decrementCardCount.
    by rewrite (proj2 (findEntry_None _ _) Habsent).
  - intros i item Hfind.
    destruct (findEntry_Some _ _ _ _ Hfind)
      as (before & after & Hdeck & Hlen & Hid & Hbefore & Halter).
    unfold decrementCardCount. rewrite Hfind.
    split; [|split; [|split; [|split]]].
    + intros Hcount. rewrite bool_decide_eq_true_2 by done. simpl.
      rewrite (alter_found _ _ i item); [done|].
      rewrite Hdeck, <- Hlen. by rewrite list_lookup_middle.
    + intros Hcount. rewrite bool_decide_eq_false_2 by lia.
      rewrite bool_decide_eq_true_2 by done. split; [done|].
      unfold removeCardFromDeck. simpl.
      intros (other & Hother & Hin)%list_elem_of_fmap.
      apply list_elem_of_filter in Hin as [Hne _]. by apply Hne.
    + intros Hcount. by rewrite !bool_decide_eq_false_2 by lia.
    + intros Hnd Hcount. unfold totalDeckCards.
      case_bool_decide as Hmore.
      * simpl. rewrite Halter, Hdeck, !totalOf_app, !totalOf_cons. simpl. lia.
      * rewrite bool_decide_eq_true_2 by lia. unfold removeCardFromDeck. simpl.
        rewrite Hdeck in Hnd |- *. rewrite filter_one_id by done.
        rewrite !totalOf_app, !totalOf_cons. lia.
    + case_bool_decide; [done|]. by case_bool_decide.
Qed.

Lemma decrementCardCount_spec_witness :
  ("AA-10" ∉ entryId <$> Sample.smallDeck) ∧
  decrementCardCount "AA-10" (Sample.stateWith Sample.smallDeck) =
    Sample.stateWith Sample.smallDeck ∧
  findEntry "AA-1" Sample.smallDeck = Some (0%nat, Entry.mk Sample.cardA 2) ∧
  deckCards (decrementCardCount "AA-1" (Sample.stateWith Sample.smallDeck)) =
    [Entry.mk Sample.cardA 1; Entry.mk Sample.cardB 4] ∧
  NoDup (entryId <$> Sample.smallDeck) ∧
  totalDeckCards (decrementCardCount "AA-1" (Sample.stateWith Sample.smallDeck)) =
    totalDeckCards (Sample.stateWith Sample.smallDeck) - 1 ∧
  findEntry "AA-1" [Entry.mk Sample.cardA 1] = Some (0%nat, Entry.mk Sample.cardA 1) ∧
  deckCards (decrementCardCount "AA-1" (Sample.stateWith [Entry.mk Sample.cardA 1])) = [].
Proof.
  assert ("AA-10" ∉ entryId <$> Sample.smallDeck) as Hout.
  { simpl. intros Hin. repeat (apply elem_of_cons in Hin as [Hin|Hin]; [discriminate|]).
    by apply elem_of_nil in Hin. }
  assert (NoDup (entryId <$> Sample.smallDeck)) as Hnd.
  { simpl. apply NoDup_cons. split; [|apply NoDup_singleton].
    intros Hsame%list_elem_of_singleton. discriminate. }
  assert (findEntry "AA-1" Sample.smallDeck = Some (0%nat, Entry.mk Sample.cardA 2))
    as Hfind by reflexivity.
  assert (findEntry "AA-1" [Entry.mk Sample.cardA 1] = Some (0%nat, Entry.mk Sample.cardA 1))
    as Hlast by reflexivity.
  destruct (decrementCardCount_spec "AA-10" (Sample.stateWith Sample.smallDeck))
    as [Habsent _].
  destruct (decrementCardCount_spec "AA-1" (Sample.stateWith Sample.smallDeck))
    as [_ Hpresent].
  destruct (Hpresent _ _ Hfind) as (Hlower & _ & _ & Htotal & _).
  destruct (decrementCardCount_spec "AA-1" (Sample.stateWith [Entry.mk Sample.cardA 1]))
    as [_ Hsingle].
  destruct (Hsingle _ _ Hlast) as (_ & Hremove & _).
  split; [exact Hout|]. split; [exact (Habsent Hout)|].
  split; [exact Hfind|]. split; [exact (Hlower ltac:(simpl; lia))|].
  split; [exact Hnd|]. split; [exact (Htotal Hnd ltac:(simpl; lia))|].
  split; [exact Hlast|].
  rewrite (proj1 (Hremove eq_refl)). reflexivity.
Defined.

(** X3. [decrementCardCount] undoes an [addCardToDeck] that added a copy:
    with fewer than 60 cards in the deck, and the card either new to the deck
    or present with a count from 1 to 3, adding the card and then
    decrementing its id gives back the state.  And [incrementCardCount]
    undoes a decrement of a count from 2 to 4 in a deck of at most 60
    cards. *)
Theorem decrement_and_increment_undo (card : Card.t) (st : State) :
  (totalDeckCards st < 60 →
   (Card.id card ∉ entryId <$> deckCards st ∨
    ∃ i item, findEntry (Card.id card) (deckCards st) = Some (i, item) ∧
              1 ≤ Entry.count item < 4) →
   decrementCardCount (Card.id card) (addCardToDeck card st) = st) ∧
  (totalDeckCards st ≤ 60 →
   (∃ i item, findEntry (Card.id card) (deckCards st) = Some (i, item) ∧
              1 < Entry.count item ≤ 4) →
   incrementCardCount (Card.id card) (decrementCardCount (Card.id card) st) = st).
Proof.
  split.
  - intros Hroom [Hfresh|(i & item & Hfind & Hcount)].
    + unfold addCardToDeck. rewrite bool_decide_eq_false_2 by lia.
      rewrite (proj2 (findEntry_None _ _) Hfresh).
      unfold decrementCardCount. cbn [deckCards setDeckCards].
      rewrite (findEntry_middle (Card.id card) (deckCards st) (Entry.mk card 1) []).
      * rewrite bool_decide_eq_false_2 by (simpl; lia).
        rewrite bool_decide_eq_true_2 by done.
        unfold removeCardFromDeck. cbn [deckCards setDeckCards].
        rewrite filter_app, filter_other_ids by done.
        rewrite filter_cons_False by (simpl; intros Hne; by apply Hne).
        rewrite filter_nil, app_nil_r, setDeckCards_twice. apply setDeckCards_same.
      * apply Forall_forall. intros other Hother Hsame. apply Hfresh.
        apply list_elem_of_fmap. by exists other.
      * done.
    + destruct (findEntry_Some _ _ _ _ Hfind)
        as (before & after & Hdeck & Hlen & Hid & Hbefore & Halter).
      unfold addCardToDeck. rewrite bool_decide_eq_false_2 by lia.
      rewrite Hfind, bool_decide_eq_true_2 by lia.
      unfold decrementCardCount. cbn [deckCards setDeckCards].
      rewrite Halter, (findEntry_middle _ before (countUp item) after) by done.
      rewrite bool_decide_eq_true_2 by (simpl; lia).
      rewrite alter_middle, setDeckCards_twice.
      replace (countDown (countUp item)) with item.
      * rewrite <- Hdeck. apply setDeckCards_same.
      * destruct item as [c n]. unfold countDown, countUp. simpl. f_equal. lia.
  - intros Hroom (i & item & Hfind & Hcount).
    destruct (findEntry_Some _ _ _ _ Hfind)
      as (before & after & Hdeck & Hlen & Hid & Hbefore & Halter).
    unfold decrementCardCount. rewrite Hfind, bool_decide_eq_true_2 by lia.
    unfold incrementCardCount, totalDeckCards in *. cbn [deckCards setDeckCards].
    rewrite Halter.
    rewrite bool_decide_eq_false_2.
    + rewrite (findEntry_middle _ before (countDown item) after) by done.
      rewrite bool_decide_eq_true_2 by (simpl; lia).
      rewrite alter_middle, setDeckCards_twice.
      replace (countUp (countDown item)) with item.
      * rewrite <- Hdeck. apply setDeckCards_same.
      * destruct item as [c n]. unfold countDown, countUp. simpl. f_equal. lia.
    + rewrite Hdeck in Hroom. rewrite !totalOf_app, !totalOf_cons in *. simpl. lia.
Qed.

Lemma decrement_and_increment_undo_witness :
  let st := Sample.stateWith Sample.smallDeck in
  (totalDeckCards st < 60 ∧
   (Card.id Sample.cardC ∉ entryId <$> deckCards st) ∧
   decrementCardCount "AA-10" (addCardToDeck Sample.cardC st) = st) ∧
  (findEntry "AA-1" (deckCards st) = Some (0%nat, Entry.mk Sample.cardA 2) ∧
   decrementCardCount "AA-1" (addCardToDeck Sample.cardA st) = st ∧
   incrementCardCount "AA-1" (decrementCardCount "AA-1" st) = st).
Proof.
  cbn zeta.
  assert (totalDeckCards (Sample.stateWith Sample.smallDeck) < 60) as Hroom
    by (vm_compute; reflexivity).
  assert (totalDeckCards (Sample.stateWith Sample.smallDeck) ≤ 60) as Hroom' by lia.
  assert (Card.id Sample.cardC ∉ entryId <$> deckCards (Sample.stateWith Sample.smallDeck))
    as Hfresh.
  { simpl. intros Hin. repeat (apply elem_of_cons in Hin as [Hin|Hin]; [discriminate|]).
    by apply elem_of_nil in Hin. }
  assert (findEntry "AA-1" (deckCards (Sample.stateWith Sample.smallDeck)) =
            Some (0%nat, Entry.mk Sample.cardA 2)) as Hfind by reflexivity.
  destruct (decrement_and_increment_undo Sample.cardC (Sample.stateWith Sample.smallDeck))
    as [HundoC _].
  destruct (decrement_and_increment_undo Sample.cardA (Sample.stateWith Sample.smallDeck))
    as [HundoA HredoA].
  split.
  - split; [exact Hroom|]. split; [exact Hfresh|]. exact (HundoC Hroom (or_introl Hfresh)).
  - split; [exact Hfind|]. split.
    + apply (HundoA Hroom). right. exists 0%nat, (Entry.mk Sample.cardA 2).
      split; [exact Hfind|]. simpl. lia.
    + apply (HredoA Hroom'). exists 0%nat, (Entry.mk Sample.cardA 2).
      split; [exact Hfind|]. simpl. lia.
Defined.

(** X4. [removeCardFromDeck(id)] leaves no entry for the id and keeps the
    entries for the other ids, in their order; with no entry for the id it
    changes nothing, so a second removal changes nothing; it shows no
    message.  When the counts are not negative the total does not grow. *)
Theorem removeCardFromDeck_spec (cardId : string) (st : State) :
  let after := removeCardFromDeck cardId st in
  (cardId ∉ entryId <$> deckCards after) ∧
  deckCards after `sublist_of` deckCards st ∧
  (∀ item, item ∈ deckCards after ↔ item ∈ deckCards st ∧ entryId item ≠ cardId) ∧
  (cardId ∉ entryId <$> deckCards st → after = st) ∧
  removeCardFromDeck cardId after = after ∧
  alerts after = alerts st ∧
  (Forall (λ item, 0 ≤ Entry.count item) (deckCards st) →
   totalDeckCards after ≤ totalDeckCards st).
Proof.
  cbn zeta. unfold removeCardFromDeck. cbn [deckCards setDeckCards alerts].
  assert (cardId ∉ entryId <$>
            filter (λ item, Card.id (Entry.card item) ≠ cardId) (deckCards st)) as Hgone.
  { intros (other & Hother & Hin)%list_elem_of_fmap.
    apply list_elem_of_filter in Hin as [Hne _]. by apply Hne. }
  split; [exact Hgone|]. split; [apply sublist_filter|]. split; [|split; [|split; [|split]]].
  - intros item. rewrite list_elem_of_filter. unfold entryId. by split; intros [? ?].
  - intros Hout. rewrite filter_other_ids by done. apply setDeckCards_same.
  - rewrite setDeckCards_twice. by rewrite filter_other_ids.
  - done.
  - intros Hcounts. by apply totalOf_filter_le.
Qed.

Lemma removeCardFromDeck_spec_witness :
  let st := Sample.stateWith Sample.smallDeck in
  (Card.id Sample.cardC ∉ entryId <$> deckCards st) ∧
  removeCardFromDeck "AA-10" st = st ∧
  Forall (λ item, 0 ≤ Entry.count item) (deckCards st) ∧
  totalDeckCards (removeCardFromDeck "AA-2" st) ≤ totalDeckCards st.
Proof.
  cbn zeta.
  assert (Card.id Sample.cardC ∉ entryId <$> deckCards (Sample.stateWith Sample.smallDeck))
    as Hout.
  { simpl. intros Hin. repeat (apply elem_of_cons in Hin as [Hin|Hin]; [discriminate|]).
    by apply elem_of_nil in Hin. }
  assert (Forall (λ item, 0 ≤ Entry.count item) (deckCards (Sample.stateWith Sample.smallDeck)))
    as Hcounts by (repeat constructor; simpl; lia).
  split; [exact Hout|].
  split; [exact (proj1 (proj2 (proj2 (proj2
            (removeCardFromDeck_spec "AA-10" (Sample.stateWith Sample.smallDeck))))) Hout)|].
  split; [exact Hcounts|].
  exact (proj2 (proj2 (proj2 (proj2 (proj2 (proj2
           (removeCardFromDeck_spec "AA-2" (Sample.stateWith Sample.smallDeck)))))))
           Hcounts).
Defined.

Lemma looseInvariant_change_count bound total before item after n :
  looseInvariant bound total (before ++ item :: after) →
  0 ≤ n ≤ bound →
  totalOf (before ++ Entry.mk (Entry.card item) n :: after) ≤ total →
  looseInvariant bound total (before ++ Entry.mk (Entry.card item) n :: after).
Proof.
  intros [Hc Hd Ht] Hn Htotal.
  apply Forall_app in Hc as [Hc1 Hc2]. apply Forall_cons in Hc2 as [_ Hc2].
  split; [|by rewrite fmap_app, fmap_cons in *|done].
  apply Forall_app; split; [done|]. by apply Forall_cons.
Qed.

Lemma looseInvariant_filter bound total (P : Entry.t → Prop) `{∀ x, Decision (P x)} deck :
  looseInvariant bound total deck → looseInvariant bound total (filter P deck).
Proof.
  intros [Hc Hd Ht]. split.
  - by apply Forall_filter_keep.
  - eapply sublist_NoDup; [exact Hd|]. apply fmap_sublist, sublist_filter.
  - etrans; [|exact Ht]. apply totalOf_filter_le.
    eapply Forall_impl; [exact Hc|]. simpl. lia.
Qed.

Lemma step_looseInvariant bound total st op :
  4 ≤ bound → 60 ≤ total →
  looseInvariant bound total (deckCards st) →
  looseInvariant bound total (deckCards (step st op)).
Proof.
  intros Hbound Htotal Hinv.
  assert (∀ cardId i item,
            findEntry cardId (deckCards st) = Some (i, item) →
            totalOf (deckCards st) < 60 → Entry.count item < 4 →
            looseInvariant bound total (alter countUp i (deckCards st))) as Hup.
  { intros cardId i item Hfind Hroom Hcount.
    destruct (findEntry_Some _ _ _ _ Hfind) as (before & after & Hdeck & _ & _ & _ & Halter).
    rewrite Halter. rewrite Hdeck in Hinv, Hroom.
    assert (0 ≤ Entry.count item) as Hlow.
    { destruct Hinv as [Hc _ _].
      apply Forall_app in Hc as [_ Hc]. apply Forall_cons in Hc as [Hc _]. lia. }
    apply looseInvariant_change_count; [done|lia|].
    rewrite totalOf_app, totalOf_cons in *. simpl. lia. }
  destruct op as [card|cardId|cardId|cardId|confirmed]; cbn [step].
  - unfold addCardToDeck, totalDeckCards. case_bool_decide as Hfull; [done|].
    destruct (findEntry (Card.id card) (deckCards st)) as [[i item]|] eqn:Hfind.
    + case_bool_decide as Hcount; [|done]. simpl. eapply Hup; [done|lia|done].
    + simpl. destruct Hinv as [Hc Hd Ht]. split.
      * apply Forall_app; split; [done|]. apply Forall_singleton. simpl. lia.
      * rewrite fmap_app. apply NoDup_app. repeat split; [done| |apply NoDup_singleton].
        intros x Hx ->%list_elem_of_singleton. by apply findEntry_None in Hfind.
      * rewrite totalOf_app, totalOf_cons, totalOf_nil. simpl. lia.
  - unfold incrementCardCount, totalDeckCards. case_bool_decide as Hfull; [done|].
    destruct (findEntry cardId (deckCards st)) as [[i item]|] eqn:Hfind; [|done].
    case_bool_decide as Hcount; [|done]. simpl. eapply Hup; [done|lia|done].
  - unfold decrementCardCount.
    destruct (findEntry cardId (deckCards st)) as [[i item]|] eqn:Hfind; [|done].
    case_bool_decide as Hcount.
    + simpl.
      destruct (findEntry_Some _ _ _ _ Hfind) as (before & after & Hdeck & _ & _ & _ & Halter).
      rewrite Halter. rewrite Hdeck in Hinv.
      assert (Entry.count item ≤ bound) as Hhigh.
      { destruct Hinv as [Hc _ _].
        apply Forall_app in Hc as [_ Hc]. apply Forall_cons in Hc as [Hc _]. lia. }
      apply looseInvariant_change_count; [done|lia|].
      destruct Hinv as [_ _ Ht]. rewrite totalOf_app, totalOf_cons in *. simpl. lia.
    + case_bool_decide; [|done]. simpl. by apply looseInvariant_filter.
  - simpl. by apply looseInvariant_filter.
  - destruct confirmed; [|done]. simpl. split; [constructor|constructor|].
    rewrite totalOf_nil. lia.
Qed.

(** X5. The five deck operations keep, on any deck, what they can of the
    limits: if the ids of the deck are distinct and its counts lie between 0
    and some bound of at least 4, then after any sequence of the operations
    the ids are distinct, the counts lie between 0 and that bound, and the
    total is at most the larger of 60 and the total at the start. *)
Theorem store_operations_keep_bounds (bound : Z) (ops : list Op) (st : State) :
  4 ≤ bound →
  Forall (λ item, 0 ≤ Entry.count item ≤ bound) (deckCards st) →
  NoDup (entryId <$> deckCards st) →
  let after := deckCards (run ops st) in
  Forall (λ item, 0 ≤ Entry.count item ≤ bound) after ∧
  NoDup (entryId <$> after) ∧
  totalOf after ≤ Z.max 60 (totalDeckCards st).
Proof.
  intros Hbound Hcounts Hids. cbn zeta.
  assert (looseInvariant bound (Z.max 60 (totalDeckCards st)) (deckCards (run ops st)))
    as [Hc Hd Ht]; [|done].
  assert (looseInvariant bound (Z.max 60 (totalDeckCards st)) (deckCards st)) as Hstart
    by (split; [done|done|unfold totalDeckCards; lia]).
  generalize (Z.max 60 (totalDeckCards st)) (Z.le_max_l 60 (totalDeckCards st)) Hstart.
  clear Hstart Hcounts Hids. intros total Htotal.
  unfold run. revert st.
  induction ops as [|op ops IH]; intros st Hinv; simpl; [done|].
  apply IH. by apply step_looseInvariant.
Qed.

Lemma store_operations_keep_bounds_witness :
  let imported := [Entry.mk Sample.cardX 7; Entry.mk Sample.cardY 61] in
  let ops := [AddCard Sample.cardX; Increment "Y-2"; Decrement "Y-2"; AddCard Sample.cardA;
              Remove "X-1"; AddCard Sample.cardA] in
  4 ≤ 61 ∧
  Forall (λ item, 0 ≤ Entry.count item ≤ 61) imported ∧
  NoDup (entryId <$> imported) ∧
  Forall (λ item, 0 ≤ Entry.count item ≤ 61)
    (deckCards (run ops (Sample.stateWith imported))) ∧
  totalOf (deckCards (run ops (Sample.stateWith imported))) ≤ 68.
Proof.
  cbn zeta.
  assert (4 ≤ 61) as Hbound by lia.
  assert (Forall (λ item, 0 ≤ Entry.count item ≤ 61)
            [Entry.mk Sample.cardX 7; Entry.mk Sample.cardY 61]) as Hcounts
    by (repeat constructor; simpl; lia).
  assert (NoDup (entryId <$> [Entry.mk Sample.cardX 7; Entry.mk Sample.cardY 61])) as Hids.
  { simpl. apply NoDup_cons. split; [|apply NoDup_singleton].
    intros Hsame%list_elem_of_singleton. discriminate. }
  split; [exact Hbound|]. split; [exact Hcounts|]. split; [exact Hids|].
  destruct (store_operations_keep_bounds 61
              [AddCard Sample.cardX; Increment "Y-2"; Decrement "Y-2"; AddCard Sample.cardA;
               Remove "X-1"; AddCard Sample.cardA]
              (Sample.stateWith [Entry.mk Sample.cardX 7; Entry.mk Sample.cardY 61])
              Hbound Hcounts Hids) as (Hafter & _ & Htotal).
  split; [exact Hafter|]. exact Htotal.
Defined.

(** X6. The five deck operations write nothing but the deck, its name and
    the storage: the catalog, the import field and the dialog flag stay as
    they are; the only messages they show are capacity messages; the deck
    name is the old one or the default one; and the storage only loses
    keys. *)
Theorem store_operations_frame (ops : list Op) (st : State) :
  let after := run ops st in
  availableCards after = availableCards st ∧
  importDeckCode after = importDeckCode st ∧
  showDeckCodeModal after = showDeckCodeModal st ∧
  (∃ n, alerts after = alerts st ++ replicate n deckFullMessage) ∧
  (deckName after = deckName st ∨ deckName after = defaultDeckName) ∧
  localStorage after ⊆ localStorage st.
Proof.
  cbn zeta. unfold run. revert st.
  induction ops as [|op ops IH]; intros st; simpl.
  - do 3 (split; [done|]). split; [exists 0%nat; simpl; by rewrite app_nil_r|].
    split; [by left|done].
  - destruct (IH (step st op)) as (Hcat & Hcode & Hmodal & [n Halerts] & Hname & Hstore).
    assert (availableCards (step st op) = availableCards st ∧
            importDeckCode (step st op) = importDeckCode st ∧
            showDeckCodeModal (step st op) = showDeckCodeModal st ∧
            (alerts (step st op) = alerts st ∨
             alerts (step st op) = alerts st ++ [deckFullMessage]) ∧
            (deckName (step st op) = deckName st ∨
             deckName (step st op) = defaultDeckName) ∧
            localStorage (step st op) ⊆ localStorage st)
      as (Hcat1 & Hcode1 & Hmodal1 & Halerts1 & Hname1 & Hstore1).
    { destruct op as [card|cardId|cardId|cardId|confirmed]; cbn [step].
      - unfold addCardToDeck. case_bool_decide; [by repeat split; eauto|].
        destruct (findEntry _ _) as [[i item]|]; [|by repeat split; eauto].
        case_bool_decide; by repeat split; eauto.
      - unfold incrementCardCount. case_bool_decide; [by repeat split; eauto|].
        destruct (findEntry _ _) as [[i item]|]; [|by repeat split; eauto].
        case_bool_decide; by repeat split; eauto.
      - unfold decrementCardCount.
        destruct (findEntry _ _) as [[i item]|]; [|by repeat split; eauto].
        case_bool_decide; [by repeat split; eauto|].
        case_bool_decide; by repeat split; eauto.
      - by repeat split; eauto.
      - destruct confirmed; [|by repeat split; eauto].
        repeat split; eauto. simpl.
        etrans; [apply delete_subseteq|apply delete_subseteq]. }
    rewrite Hcat, Hcode, Hmodal, Halerts. do 3 (split; [done|]).
    split; [|split].
    + destruct Halerts1 as [->| ->].
      * by exists n.
      * exists (S n). by rewrite <- app_assoc.
    + destruct Hname as [->|?]; [done|by right].
    + by etrans.
Qed.

(** ** Deck code: export, import and their composition *)

Lemma occurrences_present id ids : id ∈ ids → 1 ≤ occurrences id ids.
Proof.
  induction ids as [|x ids IH]; intros Hin.
  - by apply elem_of_nil in Hin.
  - rewrite occurrences_cons. apply elem_of_cons in Hin as [->|Hin].
    + rewrite bool_decide_eq_true_2 by done. unfold occurrences. lia.
    + specialize (IH Hin). case_bool_decide; lia.
Qed.

Lemma occurrences_le_length id ids : occurrences id ids ≤ Z.of_nat (length ids).
Proof.
  unfold occurrences. pose proof (length_filter (λ x, x = id) ids). lia.
Qed.

Lemma occurrences_replicate id x n :
  occurrences id (replicate n x) = if bool_decide (x = id) then Z.of_nat n else 0.
Proof.
  induction n as [|n IH]; simpl.
  - by case_bool_decide.
  - rewrite occurrences_cons, IH. case_bool_decide; lia.
Qed.

Lemma occurrences_app id ids1 ids2 :
  occurrences id (ids1 ++ ids2) = occurrences id ids1 + occurrences id ids2.
Proof. unfold occurrences. rewrite filter_app, length_app. lia. Qed.

Lemma repeatedIds_cons item deck :
  repeatedIds (item :: deck) =
    replicate (Z.to_nat (Entry.count item)) (entryId item) ++ repeatedIds deck.
Proof. reflexivity. Qed.

Lemma repeatedIds_length deck :
  Forall (λ item, 0 ≤ Entry.count item) deck →
  Z.of_nat (length (repeatedIds deck)) = totalOf deck.
Proof.
  induction 1 as [|item deck Hitem _ IH]; [done|].
  rewrite repeatedIds_cons, length_app, length_replicate, totalOf_cons. lia.
Qed.

Lemma repeatedIds_occurrences deck item :
  Forall (λ other, 0 ≤ Entry.count other) deck →
  NoDup (entryId <$> deck) →
  item ∈ deck →
  occurrences (entryId item) (repeatedIds deck) = Entry.count item.
Proof.
  intros Hcounts Hnd Hin.
  assert (∀ id rest, id ∉ entryId <$> rest → occurrences id (repeatedIds rest) = 0)
    as Habsent.
  { intros id rest. induction rest as [|other rest IH]; [done|].
    rewrite fmap_cons, not_elem_of_cons. intros [Hne Hout].
    rewrite repeatedIds_cons, occurrences_app, occurrences_replicate, IH by done.
    by rewrite bool_decide_eq_false_2 by congruence. }
  induction Hcounts as [|other deck Hother _ IH].
  - by apply elem_of_nil in Hin.
  - rewrite fmap_cons in Hnd. apply NoDup_cons in Hnd as [Hfresh Hnd].
    rewrite repeatedIds_cons, occurrences_app, occurrences_replicate.
    apply elem_of_cons in Hin as [->|Hin].
    + rewrite bool_decide_eq_true_2, Habsent by done. lia.
    + rewrite IH by done. rewrite bool_decide_eq_false_2; [lia|].
      intros Hsame. apply Hfresh. rewrite Hsame. by apply list_elem_of_fmap_2.
Qed.

Lemma flatMap_arrayFill_throws deck :
  ¬ Forall (λ item, 0 ≤ Entry.count item < 2 ^ 32) deck →
  flatMap (λ item, arrayFill (Entry.count item) (Card.id (Entry.card item))) deck =
    Throw RangeError.
Proof.
  induction deck as [|item deck IH]; intros Hbad.
  - destruct Hbad. constructor.
  - cbn [flatMap]. unfold arrayFill at 1. case_bool_decide as Hitem; simpl; [|done].
    rewrite IH; [done|]. intros Hrest. apply Hbad. by constructor.
Qed.

(** X7. [encodeDeckCode]: when every count is a valid array length (from 0
    to 2^32 - 1) the code is returned, and otherwise a [RangeError] is
    thrown.  For a deck with at least one card whose ids hold no slash, the
    returned code splits into exactly as many ids as the deck has cards,
    and, the ids of the deck being distinct, the id of each entry occurs in
    it as often as the count of the entry says. *)
Theorem encodeDeckCode_spec (deck : list Entry.t) :
  (¬ Forall (λ item, 0 ≤ Entry.count item < 2 ^ 32) deck →
   encodeDeckCode deck = Throw RangeError) ∧
  (Forall (λ item, 0 ≤ Entry.count item < 2 ^ 32) deck →
   ∃ code,
     encodeDeckCode deck = Return code ∧
     (0 < totalOf deck →
      Forall (λ item, hasChar "/" (entryId item) = false) deck →
      Z.of_nat (length (split "/" code)) = totalOf deck ∧
      (NoDup (entryId <$> deck) →
       ∀ item, item ∈ deck →
               occurrences (entryId item) (split "/" code) = Entry.count item))).
Proof.
  split.
  - intros Hbad. unfold encodeDeckCode. by rewrite flatMap_arrayFill_throws.
  - intros Hcounts. exists (join "/" (repeatedIds deck)).
    split; [by apply encodeDeckCode_ok|].
    assert (Forall (λ item, 0 ≤ Entry.count item) deck) as Hnonneg
      by (eapply Forall_impl; [exact Hcounts|]; simpl; lia).
    intros Htotal Hfree.
    rewrite split_join.
    + split; [by apply repeatedIds_length|].
      intros Hnd item Hin. by apply repeatedIds_occurrences.
    + intros Hnil. pose proof (repeatedIds_length deck Hnonneg) as Hlen.
      rewrite Hnil in Hlen. simpl in Hlen. lia.
    + by apply repeatedIds_no_sep.
Qed.

Lemma encodeDeckCode_spec_witness :
  let bad := [Entry.mk Sample.cardA 2; Entry.mk Sample.cardB (-1)] in
  (¬ Forall (λ item, 0 ≤ Entry.count item < 2 ^ 32) bad) ∧
  encodeDeckCode bad = Throw RangeError ∧
  Forall (λ item, 0 ≤ Entry.count item < 2 ^ 32) Sample.smallDeck ∧
  0 < totalOf Sample.smallDeck ∧
  Forall (λ item, hasChar "/" (entryId item) = false) Sample.smallDeck ∧
  NoDup (entryId <$> Sample.smallDeck) ∧
  ∃ code, encodeDeckCode Sample.smallDeck = Return code ∧
          Z.of_nat (length (split "/" code)) = totalOf Sample.smallDeck ∧
          occurrences "AA-2" (split "/" code) = 4.
Proof.
  cbn zeta.
  assert (¬ Forall (λ item, 0 ≤ Entry.count item < 2 ^ 32)
              [Entry.mk Sample.cardA 2; Entry.mk Sample.cardB (-1)]) as Hbad.
  { intros Hall. apply Forall_cons in Hall as [_ Hall].
    apply Forall_cons in Hall as [Hneg _]. simpl in Hneg. lia. }
  assert (Forall (λ item, 0 ≤ Entry.count item < 2 ^ 32) Sample.smallDeck) as Hcounts
    by (repeat constructor; simpl; lia).
  assert (0 < totalOf Sample.smallDeck) as Htotal by (vm_compute; reflexivity).
  assert (Forall (λ item, hasChar "/" (entryId item) = false) Sample.smallDeck) as Hfree
    by (repeat constructor).
  assert (NoDup (entryId <$> Sample.smallDeck)) as Hnd.
  { simpl. apply NoDup_cons. split; [|apply NoDup_singleton].
    intros Hsame%list_elem_of_singleton. discriminate. }
  split; [exact Hbad|].
  split; [exact (proj1 (encodeDeckCode_spec _) Hbad)|].
  split; [exact Hcounts|]. split; [exact Htotal|]. split; [exact Hfree|].
  split; [exact Hnd|].
  destruct (proj2 (encodeDeckCode_spec Sample.smallDeck) Hcounts) as (code & Hcode & Hrest).
  destruct (Hrest Htotal Hfree) as [Hlen Hocc].
  exists code. split; [exact Hcode|]. split; [exact Hlen|].
  apply (Hocc Hnd (Entry.mk Sample.cardB 4)).
  apply elem_of_cons. right. apply elem_of_cons. by left.
Defined.

Lemma split_tokens_no_sep sep s : Forall (λ t, hasChar sep t = false) (split sep s).
Proof.
  induction s as [|c s IH]; [by repeat constructor|].
  cbn [split]. destruct (Ascii.eqb c sep) eqn:Hc.
  - by constructor.
  - destruct (split sep s) as [|piece pieces]; [repeat constructor; simpl; by rewrite Hc|].
    apply Forall_cons in IH as [Hpiece Hpieces].
    constructor; [|done]. simpl. by rewrite Hc, Hpiece.
Qed.

Lemma total_restored_countStep catalog m id :
  totalOf (omap (restored catalog) (countStep m id)) =
    totalOf (omap (restored catalog) m) +
    (if bool_decide (is_Some (findCard catalog id)) then 1 else 0).
Proof.
  assert (∀ n rest,
            totalOf (omap (restored catalog) ((id, n + 1) :: rest)) =
              totalOf (omap (restored catalog) ((id, n) :: rest)) +
              (if bool_decide (is_Some (findCard catalog id)) then 1 else 0)) as Hone.
  { intros n rest. cbn [omap list_omap]. unfold restored. cbn [fst snd].
    destruct (findCard catalog id) as [card|] eqn:Hcard.
    - rewrite bool_decide_eq_true_2 by done. cbn [fmap option_fmap option_map].
      rewrite !totalOf_cons. simpl. lia.
    - rewrite bool_decide_eq_false_2 by (by intros [? ?]).
      cbn [fmap option_fmap option_map]. lia. }
  unfold countStep. induction m as [|[k v] m IH].
  - cbn [mapGet mapSet orZero omap list_omap]. unfold restored. cbn [fst snd].
    destruct (findCard catalog id) as [card|] eqn:Hcard.
    + rewrite bool_decide_eq_true_2 by done. cbn [fmap option_fmap option_map].
      rewrite !totalOf_cons, totalOf_nil. simpl. lia.
    + rewrite bool_decide_eq_false_2 by (by intros [? ?]).
      cbn [fmap option_fmap option_map]. rewrite totalOf_nil. lia.
  - cbn [mapGet mapSet]. destruct (bool_decide_reflect (k = id)) as [->|Hne].
    + rewrite orZero_Some. apply Hone.
    + cbn [omap list_omap]. destruct (restored catalog (k, v)) as [item|].
      * rewrite !totalOf_cons, IH. lia.
      * by rewrite IH.
Qed.

Lemma total_restored_count catalog ids m :
  totalOf (restoreCards catalog (foldl countStep m ids)) =
    totalOf (restoreCards catalog m) +
    Z.of_nat (length (filter (λ id, is_Some (findCard catalog id)) ids)).
Proof.
  rewrite !restoreCards_omap. revert m.
  induction ids as [|id ids IH]; intros m; simpl; [lia|].
  rewrite IH, total_restored_countStep, filter_cons.
  case_bool_decide as Hknown.
  - rewrite decide_True by done. simpl. lia.
  - rewrite decide_False by done. lia.
Qed.

(** X8. A decoded deck has one entry per card id and counts of at least
    1, and its total is the number of pieces of the code that are ids of
    catalog cards.  It satisfies the invariants of the deck store exactly
    when no such id occurs more than 4 times in the code and at most 60
    pieces of the code are such ids.  [importDeckFromCode] makes the
    decoded deck, when it is not empty, the deck without looking at these
    limits: the deck after the import satisfies the invariants under the
    same condition only. *)
Theorem decodeDeckCode_invariant (catalog : list Card.t) (code : string) :
  let deck := decodeDeckCode catalog code in
  NoDup (entryId <$> deck) ∧
  Forall (λ item, 1 ≤ Entry.count item) deck ∧
  totalOf deck = Z.of_nat (length (knownIds catalog code)) ∧
  (deckInvariant deck ↔
   (∀ id, id ∈ knownIds catalog code → occurrences id (split "/" code) ≤ 4) ∧
   (length (knownIds catalog code) ≤ 60)%nat) ∧
  (∀ st, availableCards st = catalog → importDeckCode st = code → deck ≠ [] →
         deckCards (importDeckFromCode st) = deck ∧
         (deckInvariant (deckCards (importDeckFromCode st)) ↔
          (∀ id, id ∈ knownIds catalog code → occurrences id (split "/" code) ≤ 4) ∧
          (length (knownIds catalog code) ≤ 60)%nat)).
Proof.
  cbn zeta.
  enough (NoDup (entryId <$> decodeDeckCode catalog code) ∧
          Forall (λ item, 1 ≤ Entry.count item) (decodeDeckCode catalog code) ∧
          totalOf (decodeDeckCode catalog code) =
            Z.of_nat (length (knownIds catalog code)) ∧
          (deckInvariant (decodeDeckCode catalog code) ↔
           (∀ id, id ∈ knownIds catalog code → occurrences id (split "/" code) ≤ 4) ∧
           (length (knownIds catalog code) ≤ 60)%nat)) as (Hids & Hcounts & Hsum & Hiff).
  { do 4 (split; [done|]). intros st <- <- Hne.
    assert (deckCards (importDeckFromCode st) =
            decodeDeckCode (availableCards st) (importDeckCode st)) as ->; [|done].
    unfold importDeckFromCode.
    destruct (decodeDeckCode (availableCards st) (importDeckCode st)); [done|].
    by rewrite bool_decide_eq_true_2 by (cbn; lia). }
  assert (NoDup (entryId <$> decodeDeckCode catalog code)) as Hnd
    by (unfold decodeDeckCode; apply restoreCards_NoDup, countIds_NoDup).
  assert (Forall (λ item, 1 ≤ Entry.count item) (decodeDeckCode catalog code)) as Hpos.
  { apply Forall_forall. intros item (id & Hin & _ & ->)%decodeDeckCode_elem_of.
    by apply occurrences_present. }
  assert (totalOf (decodeDeckCode catalog code) = Z.of_nat (length (knownIds catalog code)))
    as Htotal.
  { unfold decodeDeckCode, countIds, knownIds. by rewrite total_restored_count. }
  split; [done|]. split; [done|]. split; [done|]. split.
  - intros [Hc Ht _ _]. split; [|lia].
    intros id [[card Hcard] Hin]%list_elem_of_filter.
    rewrite Forall_forall in Hc.
    assert (Entry.mk card (occurrences id (split "/" code)) ∈ decodeDeckCode catalog code)
      as Hitem by (apply decodeDeckCode_elem_of; eauto).
    specialize (Hc _ Hitem). simpl in Hc. lia.
  - intros [Hocc Hlen]. split; [| |by eapply Forall_impl; [exact Hpos|]; simpl; lia|done].
    + apply Forall_forall. intros item Hitem. rewrite Forall_forall in Hpos.
      split; [by apply Hpos|].
      apply decodeDeckCode_elem_of in Hitem as (id & Hin & Hcard & ->).
      apply Hocc. apply list_elem_of_filter. by eauto.
    + lia.
Qed.

Lemma decodeDeckCode_invariant_witness :
  let code := "AA-1/AA-1/AA-1/AA-1/AA-1" in
  let st := mkState Sample.catalog [] defaultDeckName code true ∅ [] in
  availableCards st = Sample.catalog ∧
  importDeckCode st = code ∧
  decodeDeckCode Sample.catalog code ≠ [] ∧
  deckCards (importDeckFromCode st) = [Entry.mk Sample.cardA 5] ∧
  ¬ deckInvariant (deckCards (importDeckFromCode st)).
Proof.
  cbn zeta.
  assert (decodeDeckCode Sample.catalog "AA-1/AA-1/AA-1/AA-1/AA-1" =
          [Entry.mk Sample.cardA 5]) as Hdecoded by (by vm_compute).
  assert (decodeDeckCode Sample.catalog "AA-1/AA-1/AA-1/AA-1/AA-1" ≠ []) as Hne
    by (by rewrite Hdecoded).
  destruct (proj2 (proj2 (proj2 (proj2
              (decodeDeckCode_invariant Sample.catalog "AA-1/AA-1/AA-1/AA-1/AA-1"))))
              (mkState Sample.catalog [] defaultDeckName "AA-1/AA-1/AA-1/AA-1/AA-1"
                 true ∅ [])
              eq_refl eq_refl Hne) as [Hdeck _].
  do 2 (split; [reflexivity|]). split; [exact Hne|].
  rewrite Hdeck, Hdecoded. split; [reflexivity|].
  intros [Hcounts _ _ _]. apply Forall_cons in Hcounts as [Hcount _].
  cbn in Hcount. lia.
Defined.

(** X9. Decoding does not depend on the order of the pieces of the code:
    two codes whose pieces are the same up to their order decode to the
    same entries, up to their order. *)
Theorem decodeDeckCode_order_independent (catalog : list Card.t) (code1 code2 : string) :
  split "/" code1 ≡ₚ split "/" code2 →
  decodeDeckCode catalog code1 ≡ₚ decodeDeckCode catalog code2.
Proof.
  intros Hperm.
  assert (∀ id, occurrences id (split "/" code1) = occurrences id (split "/" code2)) as Hocc.
  { intros id. unfold occurrences. by rewrite Hperm. }
  apply NoDup_Permutation.
  - eapply NoDup_fmap_1. unfold decodeDeckCode. apply restoreCards_NoDup, countIds_NoDup.
  - eapply NoDup_fmap_1. unfold decodeDeckCode. apply restoreCards_NoDup, countIds_NoDup.
  - intros item. rewrite !decodeDeckCode_elem_of.
    split; intros (id & Hin & Hcard & Hcount); exists id.
    + split; [by rewrite <- Hperm|]. by rewrite <- Hocc.
    + split; [by rewrite Hperm|]. by rewrite Hocc.
Qed.

Lemma decodeDeckCode_order_independent_witness :
  split "/" "X-1/Y-2/X-1/Q" ≡ₚ split "/" "Q/X-1/X-1/Y-2" ∧
  decodeDeckCode Sample.catalogXY "X-1/Y-2/X-1/Q" ≡ₚ
    decodeDeckCode Sample.catalogXY "Q/X-1/X-1/Y-2".
Proof.
  assert (split "/" "X-1/Y-2/X-1/Q" ≡ₚ split "/" "Q/X-1/X-1/Y-2") as Hperm.
  { change (["X-1"; "Y-2"; "X-1"; "Q"] ≡ₚ ["Q"; "X-1"; "X-1"; "Y-2"]).
    etrans; [|apply (Permutation_app_comm ["X-1"; "X-1"; "Y-2"] ["Q"])].
    simpl. constructor. apply perm_swap. }
  split; [exact Hperm|].
  exact (decodeDeckCode_order_independent Sample.catalogXY _ _ Hperm).
Defined.

Lemma restoreCards_exact catalog deck :
  Forall (λ item, findCard catalog (entryId item) = Some (Entry.card item)) deck →
  restoreCards catalog (idCount <$> deck) = deck.
Proof.
  rewrite restoreCards_omap.
  induction 1 as [|item deck Hcard _ IH]; [done|].
  rewrite fmap_cons. cbn [omap list_omap].
  change (restored catalog (idCount item))
    with ((λ card, Entry.mk card (Entry.count item)) <$> findCard catalog (entryId item)).
  rewrite Hcard. cbn [fmap option_fmap option_map]. rewrite IH. by destruct item.
Qed.

(** Decoding the code of a deck whose cards are the ones the catalog finds
    for their ids gives the deck back, entry by entry. *)
Lemma decode_encode_exact catalog deck :
  deck ≠ [] →
  Forall (λ item, 1 ≤ Entry.count item) deck →
  NoDup (entryId <$> deck) →
  Forall (λ item, hasChar "/" (entryId item) = false) deck →
  Forall (λ item, findCard catalog (entryId item) = Some (Entry.card item)) deck →
  decodeDeckCode catalog (join "/" (repeatedIds deck)) = deck.
Proof.
  intros Hne Hcounts Hnd Hfree Hknown. unfold decodeDeckCode.
  rewrite split_join.
  - unfold countIds. rewrite count_repeatedIds by done. simpl.
    by apply restoreCards_exact.
  - destruct Hcounts as [|item rest Hitem _]; [done|].
    rewrite repeatedIds_cons.
    destruct (Z.to_nat (Entry.count item)) eqn:Hn; [lia|done].
  - by apply repeatedIds_no_sep.
Qed.

(** X10. Export after import gives a code for the same deck: when a code
    of fewer than 2^32 pieces decodes to at least one entry, the decoded
    deck has a deck code, and that code decodes to the same deck, entry by
    entry. *)
Theorem decode_encode_decode (catalog : list Card.t) (code : string) :
  Z.of_nat (length (split "/" code)) < 2 ^ 32 →
  decodeDeckCode catalog code ≠ [] →
  ∃ code', encodeDeckCode (decodeDeckCode catalog code) = Return code' ∧
           decodeDeckCode catalog code' = decodeDeckCode catalog code.
Proof.
  intros Hshort Hsome.
  exists (join "/" (repeatedIds (decodeDeckCode catalog code))).
  assert (∀ item, item ∈ decodeDeckCode catalog code →
            1 ≤ Entry.count item < 2 ^ 32 ∧
            hasChar "/" (entryId item) = false ∧
            findCard catalog (entryId item) = Some (Entry.card item)) as Hitems.
  { intros item (id & Hin & Hcard & ->)%decodeDeckCode_elem_of.
    pose proof (occurrences_present _ _ Hin).
    pose proof (occurrences_le_length id (split "/" code)).
    pose proof (findCard_Some _ _ _ Hcard) as [Hid _].
    split; [lia|]. unfold entryId. rewrite Hid. split; [|done].
    pose proof (split_tokens_no_sep "/" code) as Hfree.
    rewrite Forall_forall in Hfree. by apply Hfree. }
  split.
  - apply encodeDeckCode_ok, Forall_forall. intros item Hitem.
    destruct (Hitems item Hitem) as [? _]. lia.
  - apply decode_encode_exact.
    + done.
    + apply Forall_forall. intros item Hitem. destruct (Hitems item Hitem) as [? _]. lia.
    + unfold decodeDeckCode. apply restoreCards_NoDup, countIds_NoDup.
    + apply Forall_forall. intros item Hitem. by destruct (Hitems item Hitem) as (_ & ? & _).
    + apply Forall_forall. intros item Hitem. by destruct (Hitems item Hitem) as (_ & _ & ?).
Qed.

Lemma decode_encode_decode_witness :
  Z.of_nat (length (split "/" "Q/Y-2/X-1/Y-2/Y-2")) < 2 ^ 32 ∧
  decodeDeckCode Sample.catalogXY "Q/Y-2/X-1/Y-2/Y-2" ≠ [] ∧
  ∃ code', encodeDeckCode (decodeDeckCode Sample.catalogXY "Q/Y-2/X-1/Y-2/Y-2") = Return code' ∧
           decodeDeckCode Sample.catalogXY code' =
             decodeDeckCode Sample.catalogXY "Q/Y-2/X-1/Y-2/Y-2".
Proof.
  assert (Z.of_nat (length (split "/" "Q/Y-2/X-1/Y-2/Y-2")) < 2 ^ 32) as Hshort
    by (vm_compute; reflexivity).
  assert (decodeDeckCode Sample.catalogXY "Q/Y-2/X-1/Y-2/Y-2" ≠ []) as Hsome
    by (vm_compute; discriminate).
  split; [exact Hshort|]. split; [exact Hsome|].
  exact (decode_encode_decode Sample.catalogXY _ Hshort Hsome).
Defined.

(** X11. Importing the code of the deck restores the deck.  Let the deck
    have at least one entry, counts from 1 to 2^32 - 1, one entry per id, no
    slash in an id, and for each entry the card that the catalog finds for
    its id.  Then the deck has a code, and [importDeckFromCode] on that code
    puts the same entries, in the same order, into the deck, empties the
    import field, closes the dialog and shows no message. *)
Theorem import_of_export (st : State) :
  deckCards st ≠ [] →
  Forall (λ item, 1 ≤ Entry.count item < 2 ^ 32) (deckCards st) →
  NoDup (entryId <$> deckCards st) →
  Forall (λ item, hasChar "/" (entryId item) = false) (deckCards st) →
  Forall (λ item, findCard (availableCards st) (entryId item) = Some (Entry.card item))
    (deckCards st) →
  ∃ code, encodeDeckCode (deckCards st) = Return code ∧
          ∀ other,
            availableCards other = availableCards st →
            importDeckCode other = code →
            deckCards (importDeckFromCode other) = deckCards st ∧
            importDeckCode (importDeckFromCode other) = "" ∧
            showDeckCodeModal (importDeckFromCode other) = false ∧
            alerts (importDeckFromCode other) = alerts other.
Proof.
  intros Hne Hcounts Hnd Hfree Hknown.
  exists (join "/" (repeatedIds (deckCards st))). split.
  - apply encodeDeckCode_ok. eapply Forall_impl; [exact Hcounts|]. simpl. lia.
  - intros other Hcatalog Hcode. unfold importDeckFromCode.
    rewrite Hcatalog, Hcode, decode_encode_exact; try done.
    + destruct (deckCards st); [done|].
      by rewrite bool_decide_eq_true_2 by (simpl; lia).
    + eapply Forall_impl; [exact Hcounts|]. simpl. lia.
Qed.

Lemma import_of_export_witness :
  let deck := [Entry.mk Sample.cardB 3; Entry.mk Sample.cardA 1] in
  let st := Sample.stateWith deck in
  deck ≠ [] ∧
  Forall (λ item, 1 ≤ Entry.count item < 2 ^ 32) deck ∧
  NoDup (entryId <$> deck) ∧
  Forall (λ item, hasChar "/" (entryId item) = false) deck ∧
  Forall (λ item, findCard Sample.catalog (entryId item) = Some (Entry.card item)) deck ∧
  ∃ code, encodeDeckCode deck = Return code ∧
          deckCards (importDeckFromCode
                       (mkState Sample.catalog [] "other" code true ∅ [])) = deck.
Proof.
  cbn zeta.
  assert ([Entry.mk Sample.cardB 3; Entry.mk Sample.cardA 1] ≠ []) as Hne by discriminate.
  assert (Forall (λ item, 1 ≤ Entry.count item < 2 ^ 32)
            [Entry.mk Sample.cardB 3; Entry.mk Sample.cardA 1]) as Hcounts
    by (repeat constructor; simpl; lia).
  assert (NoDup (entryId <$> [Entry.mk Sample.cardB 3; Entry.mk Sample.cardA 1])) as Hnd.
  { simpl. apply NoDup_cons. split; [|apply NoDup_singleton].
    intros Hsame%list_elem_of_singleton. discriminate. }
  assert (Forall (λ item, hasChar "/" (entryId item) = false)
            [Entry.mk Sample.cardB 3; Entry.mk Sample.cardA 1]) as Hfree
    by (repeat constructor).
  assert (Forall (λ item, findCard Sample.catalog (entryId item) = Some (Entry.card item))
            [Entry.mk Sample.cardB 3; Entry.mk Sample.cardA 1]) as Hknown
    by (repeat constructor).
  do 5 (split; [done|]).
  destruct (import_of_export
              (Sample.stateWith [Entry.mk Sample.cardB 3; Entry.mk Sample.cardA 1])
              Hne Hcounts Hnd Hfree Hknown) as (code & Hcode & Himport).
  exists code. split; [exact Hcode|].
  exact (proj1 (Himport (mkState Sample.catalog [] "other" code true ∅ []) eq_refl eq_refl)).
Defined.

(** ** Ordering: the comparators as orders *)

Lemma byteCompare_antisymmetric a b :
  Sample.byteCompare b a = - Sample.byteCompare a b.
Proof.
  revert b. induction a as [|x a IH]; intros [|y b]; simpl; try done.
  destruct (Nat.ltb_spec (nat_of_ascii x) (nat_of_ascii y)),
    (Nat.ltb_spec (nat_of_ascii y) (nat_of_ascii x)); try done; lia.
Qed.

Section OrderProperties.
Variable localeCompare : string → string → Z.
Hypothesis localeCompare_antisymmetric :
  ∀ a b, Z.sgn (localeCompare b a) = - Z.sgn (localeCompare a b).

Lemma naturalSortLoop_antisymmetric tokensA tokensB :
  match naturalSortLoop localeCompare tokensB tokensA,
        naturalSortLoop localeCompare tokensA tokensB with
  | Some r', Some r => Z.sgn r' = - Z.sgn r
  | None, None => True
  | _, _ => False
  end.
Proof.
  revert tokensB. induction tokensA as [|tA tokensA IH]; intros [|tB tokensB]; try done.
  specialize (IH tokensB). cbn [naturalSortLoop].
  assert (match
            (if negb (Bool.eqb (isUpperCode (charCodeAt0 tB)) (isUpperCode (charCodeAt0 tA)))
             then Some (if isUpperCode (charCodeAt0 tB) then -1 else 1)
             else if negb (bool_decide (tB = tA)) then Some (localeCompare tB tA)
                  else naturalSortLoop localeCompare tokensB tokensA),
            (if negb (Bool.eqb (isUpperCode (charCodeAt0 tA)) (isUpperCode (charCodeAt0 tB)))
             then Some (if isUpperCode (charCodeAt0 tA) then -1 else 1)
             else if negb (bool_decide (tA = tB)) then Some (localeCompare tA tB)
                  else naturalSortLoop localeCompare tokensA tokensB)
          with
          | Some r', Some r => Z.sgn r' = - Z.sgn r
          | None, None => True
          | _, _ => False
          end) as Hletters.
  { destruct (isUpperCode (charCodeAt0 tA)), (isUpperCode (charCodeAt0 tB)); try done;
      cbn [Bool.eqb negb];
      (destruct (bool_decide_reflect (tA = tB)) as [->|Hne];
       [by rewrite bool_decide_eq_true_2
       |rewrite bool_decide_eq_false_2 by congruence; cbn [negb];
        apply localeCompare_antisymmetric]). }
  destruct (parseInt tA) as [nA|], (parseInt tB) as [nB|]; try exact Hletters.
  rewrite (Z.eqb_sym nB nA). destruct (Z.eqb_spec nA nB); cbn [negb]; [exact IH|].
  rewrite subtract_opp by done. apply Z.sgn_opp.
Qed.

(** X12. The comparators are antisymmetric, given that [localeCompare]
    is: swapping the arguments of [naturalSort], of the comparator of the
    pool or of the comparator of the deck reverses the sign of the result;
    so a card compares as equal to itself. *)
Theorem comparators_antisymmetric :
  (∀ a b, Z.sgn (naturalSort localeCompare b a) = - Z.sgn (naturalSort localeCompare a b)) ∧
  (∀ a b, Z.sgn (availableCardsCompare localeCompare b a) =
          - Z.sgn (availableCardsCompare localeCompare a b)) ∧
  (∀ a b, Z.sgn (deckCardsCompare localeCompare b a) =
          - Z.sgn (deckCardsCompare localeCompare a b)) ∧
  (∀ a, availableCardsCompare localeCompare a a = 0).
Proof.
  assert (∀ a b, Z.sgn (naturalSort localeCompare b a) =
                 - Z.sgn (naturalSort localeCompare a b)) as Hnatural.
  { intros a b. unfold naturalSort.
    destruct (matchRuns a) as [tokensA|], (matchRuns b) as [tokensB|];
      try apply localeCompare_antisymmetric.
    pose proof (naturalSortLoop_antisymmetric tokensA tokensB) as Hloop.
    destruct (naturalSortLoop localeCompare tokensB tokensA),
      (naturalSortLoop localeCompare tokensA tokensB); try done.
    rewrite <- Z.sgn_opp. f_equal. lia. }
  assert (∀ a b, Z.sgn (availableCardsCompare localeCompare b a) =
                 - Z.sgn (availableCardsCompare localeCompare a b)) as Hpool.
  { intros a b. unfold availableCardsCompare.
    assert (kindSort b a = - kindSort a b) as -> by (unfold kindSort; lia).
    assert (typeSort b a = - typeSort a b) as -> by (unfold typeSort; lia).
    destruct (Z.eqb_spec (kindSort a b) 0) as [->|Hkind]; cbn [negb].
    - simpl. destruct (Z.eqb_spec (typeSort a b) 0) as [->|Htype]; cbn [negb].
      + simpl. apply Hnatural.
      + rewrite (proj2 (Z.eqb_neq _ _)) by lia. cbn [negb]. apply Z.sgn_opp.
    - rewrite (proj2 (Z.eqb_neq _ _)) by lia. cbn [negb]. apply Z.sgn_opp. }
  split; [done|]. split; [done|]. split.
  - intros a b. apply (Hpool (Entry.card a) (Entry.card b)).
  - intros a. specialize (Hpool a a).
    destruct (availableCardsCompare localeCompare a a); simpl in Hpool; lia.
Qed.
End OrderProperties.

Lemma comparators_antisymmetric_witness :
  (∀ a b, Z.sgn (Sample.byteCompare b a) = - Z.sgn (Sample.byteCompare a b)) ∧
  Z.sgn (naturalSort Sample.byteCompare "AA-10" "AA-2") =
    - Z.sgn (naturalSort Sample.byteCompare "AA-2" "AA-10") ∧
  Z.sgn (availableCardsCompare Sample.byteCompare Sample.cardB Sample.cardA) =
    - Z.sgn (availableCardsCompare Sample.byteCompare Sample.cardA Sample.cardB).
Proof.
  assert (∀ a b, Z.sgn (Sample.byteCompare b a) = - Z.sgn (Sample.byteCompare a b)) as Hanti.
  { intros a b. rewrite byteCompare_antisymmetric. apply Z.sgn_opp. }
  destruct (comparators_antisymmetric Sample.byteCompare Hanti) as (Hnatural & Hpool & _).
  split; [exact Hanti|]. split; [exact (Hnatural "AA-2" "AA-10")|].
  exact (Hpool Sample.cardA Sample.cardB).
Defined.

Lemma runs_single t : uniform t = true → runs t = [t].
Proof.
  induction t as [|c t IH]; [done|].
  unfold uniform. cbn [nonEmpty allChars headIsDigit andb].
  intros [_ Hall]%andb_true_iff. cbn [runs].
  destruct t as [|c' t]; [done|].
  assert (isDigit c' = isDigit c) as Hhead.
  { cbn [allChars] in Hall. apply andb_true_iff in Hall as [Hc' _].
    by apply Bool.eqb_prop in Hc'. }
  rewrite IH.
  - cbn [headIsDigit]. by rewrite Hhead, Bool.eqb_reflx.
  - unfold uniform. cbn [nonEmpty headIsDigit andb]. by rewrite Hhead.
Qed.

Lemma digitRun_uniform t : digitRun t = true → uniform t = true ∧ headIsDigit t = true.
Proof.
  unfold digitRun, uniform. intros [Hne Hall]%andb_true_iff. rewrite Hne. cbn [andb].
  destruct t as [|c t]; [done|]. cbn [headIsDigit].
  pose proof Hall as Hall'. cbn [allChars] in Hall'.
  apply andb_true_iff in Hall' as [-> _]. split; [|done].
  etrans; [|exact Hall]. apply allChars_ext. intros x. by destruct (isDigit x).
Qed.

Lemma nonDigitRun_uniform t :
  nonDigitRun t = true → uniform t = true ∧ headIsDigit t = false.
Proof.
  unfold nonDigitRun, uniform. intros [Hne Hall]%andb_true_iff. rewrite Hne. cbn [andb].
  destruct t as [|c t]; [done|]. cbn [headIsDigit].
  pose proof Hall as Hall'. cbn [allChars] in Hall'.
  apply andb_true_iff in Hall' as [Hc _]. apply negb_true_iff in Hc. rewrite Hc.
  split; [|done]. etrans; [|exact Hall].
  apply allChars_ext. intros x. by destruct (isDigit x).
Qed.

(** The runs of a stem without digits followed by a number. *)
Lemma runs_stem_number stem number :
  nonDigitRun stem = true → digitRun number = true →
  runs (stem +:+ number) = [stem; number].
Proof.
  intros Hstem Hnumber.
  destruct (digitRun_uniform _ Hnumber) as [Hun Hhead].
  induction stem as [|c stem IH]; [done|].
  rewrite append_cons. cbn [runs].
  unfold nonDigitRun in Hstem. cbn [nonEmpty allChars andb] in Hstem.
  apply andb_true_iff in Hstem as [Hc Hrest]. apply negb_true_iff in Hc.
  destruct stem as [|c' stem].
  - change ("" +:+ number) with number.
    rewrite (runs_single _ Hun), Hc, Hhead. done.
  - rewrite IH by done.
    cbn [headIsDigit]. cbn [allChars] in Hrest.
    apply andb_true_iff in Hrest as [Hc' _]. apply negb_true_iff in Hc'.
    by rewrite Hc, Hc'.
Qed.

Section SeriesProperties.
Variable localeCompare : string → string → Z.

(** X13. Ids of one series sort by their number: for a stem without
    digits and two numbers below 2^53, [naturalSort] of the stem followed
    by the one number and the stem followed by the other is the difference
    of the values of the numbers. *)
Theorem naturalSort_series (stem number1 number2 : string) :
  nonDigitRun stem = true → digitRun number1 = true → digitRun number2 = true →
  numericValue number1 < 2 ^ 53 → numericValue number2 < 2 ^ 53 →
  naturalSort localeCompare (stem +:+ number1) (stem +:+ number2) =
    numericValue number1 - numericValue number2.
Proof.
  intros Hstem H1 H2 Hsmall1 Hsmall2.
  assert (Forall2 sameNumber [stem] [stem]) as Htied
    by (constructor; [by left|constructor]).
  rewrite (naturalSort_at localeCompare _ _ [stem] [stem] number1 number2 [] []);
    [|by apply runs_stem_number|by apply runs_stem_number|done].
  rewrite !runs_stem_number by done.
  destruct (decide (numericValue number1 = numericValue number2)) as [Heq|Hne].
  - rewrite naturalSortLoop_tied by (right; done). simpl. lia.
  - by rewrite naturalSortLoop_digits.
Qed.

(** X14. [naturalSort] is 0 on ids whose runs are tied, pair by pair:
    equal runs, or runs of digits of one value.  So an id compares as equal
    to itself, and ids that differ only by leading zeros of a number compare
    as equal. *)
Theorem naturalSort_ties (a b : string) :
  a ≠ "" → Forall2 tied (runs a) (runs b) →
  naturalSort localeCompare a b = 0.
Proof.
  intros Ha Htied.
  assert (b ≠ "") as Hb.
  { intros ->. apply Forall2_length in Htied. simpl in Htied.
    apply length_zero_iff_nil in Htied. by apply runs_nil in Htied. }
  unfold naturalSort. rewrite (matchRuns_Some a Ha), (matchRuns_Some b Hb).
  pose proof (naturalSortLoop_tied_prefix localeCompare _ _ [] [] Htied) as Hloop.
  rewrite !app_nil_r in Hloop. rewrite Hloop. simpl.
  apply Forall2_length in Htied. lia.
Qed.
End SeriesProperties.

Lemma naturalSort_series_witness :
  nonDigitRun "AA-" = true ∧ digitRun "2" = true ∧ digitRun "10" = true ∧
  numericValue "2" < 2 ^ 53 ∧ numericValue "10" < 2 ^ 53 ∧
  naturalSort Sample.byteCompare ("AA-" +:+ "2") ("AA-" +:+ "10") =
    numericValue "2" - numericValue "10".
Proof.
  do 5 (split; [reflexivity|]).
  exact (naturalSort_series Sample.byteCompare "AA-" "2" "10" eq_refl eq_refl eq_refl
           eq_refl eq_refl).
Defined.

Lemma naturalSort_ties_witness :
  "AA-01" ≠ "" ∧ Forall2 tied (runs "AA-01") (runs "AA-1") ∧
  naturalSort Sample.byteCompare "AA-01" "AA-1" = 0.
Proof.
  assert ("AA-01" ≠ "") as Hne by discriminate.
  assert (Forall2 tied (runs "AA-01") (runs "AA-1")) as Htied.
  { change (Forall2 tied ["AA-"; "01"] ["AA-"; "1"]).
    constructor; [by left|]. constructor; [|constructor].
    right. by repeat split. }
  split; [exact Hne|]. split; [exact Htied|].
  exact (naturalSort_ties Sample.byteCompare "AA-01" "AA-1" Hne Htied).
Defined.

(** X15. The type index of a card depends on which types it carries, not
    on their order or on repetitions: two arrays with the same elements
    have the same [getEarliestTypeIndex].  A single truthy value that is
    not an array counts as the array of that one value. *)
Theorem getEarliestTypeIndex_set (order : list string) :
  (∀ types1 types2 : list jsval,
     (∀ t, t ∈ types1 ↔ t ∈ types2) →
     getEarliestTypeIndex order (JArr types1) = getEarliestTypeIndex order (JArr types2)) ∧
  (∀ v, truthy v = true → isArray v = false →
        getEarliestTypeIndex order v = getEarliestTypeIndex order (JArr [v])).
Proof.
  split.
  - intros types1 types2 Hsame.
    destruct (getEarliestTypeIndex_spec order (JArr types1)) as (Hle1 & Hwhich1 & Hleast1).
    destruct (getEarliestTypeIndex_spec order (JArr types2)) as (Hle2 & Hwhich2 & Hleast2).
    change (typesOf (JArr types1)) with types1 in *.
    change (typesOf (JArr types2)) with types2 in *.
    assert (getEarliestTypeIndex order (JArr types1) ≤
              getEarliestTypeIndex order (JArr types2)).
    { destruct Hwhich2 as [->|(t & Hin & Hrec & <-)]; [done|].
      apply Hleast1; [by apply Hsame|done]. }
    assert (getEarliestTypeIndex order (JArr types2) ≤
              getEarliestTypeIndex order (JArr types1)).
    { destruct Hwhich1 as [->|(t & Hin & Hrec & <-)]; [done|].
      apply Hleast2; [by apply Hsame|done]. }
    lia.
  - intros v Htruthy Harray. unfold getEarliestTypeIndex. rewrite Htruthy. simpl.
    by destruct v.
Qed.

Lemma getEarliestTypeIndex_set_witness :
  (∀ t, t ∈ [JStr "青"; JStr "赤"; JStr "青"] ↔ t ∈ [JStr "赤"; JStr "青"]) ∧
  getEarliestTypeIndex allTypes (JArr [JStr "青"; JStr "赤"; JStr "青"]) =
    getEarliestTypeIndex allTypes (JArr [JStr "赤"; JStr "青"]) ∧
  truthy (JStr "白") = true ∧ isArray (JStr "白") = false ∧
  getEarliestTypeIndex allTypes (JStr "白") =
    getEarliestTypeIndex allTypes (JArr [JStr "白"]).
Proof.
  assert (∀ t, t ∈ [JStr "青"; JStr "赤"; JStr "青"] ↔ t ∈ [JStr "赤"; JStr "青"]) as Hsame.
  { intros t. rewrite !elem_of_cons, !elem_of_nil. tauto. }
  destruct (getEarliestTypeIndex_set allTypes) as [Hset Hsingle].
  split; [exact Hsame|]. split; [exact (Hset _ _ Hsame)|].
  split; [reflexivity|]. split; [reflexivity|].
  exact (Hsingle (JStr "白") eq_refl eq_refl).
Defined.

(** ** Filter: order, exceptions and the displayed lists *)

Lemma filterM_sublist {A} (f : A → result bool) (l kept : list A) :
  filterM f l = Return kept → kept `sublist_of` l.
Proof.
  revert kept. induction l as [|x l IH]; intros kept; cbn [filterM].
  - by intros [= <-].
  - destruct (f x) as [b|e]; [|done]. cbn [bind].
    destruct (filterM f l) as [rest|e]; [|done]. cbn [bind].
    intros [= <-]. destruct b; [apply sublist_skip|apply sublist_cons]; by apply IH.
Qed.

Lemma filterM_throw {A} (f : A → result bool) (l : list A) e :
  filterM f l = Throw e → ∃ x, x ∈ l ∧ f x = Throw e.
Proof.
  induction l as [|x l IH]; cbn [filterM]; [done|].
  destruct (f x) as [b|e'] eqn:Hx.
  - cbn [bind]. destruct (filterM f l) as [rest|e'']; [done|]. cbn [bind].
    intros [= ->]. destruct (IH eq_refl) as (y & Hy & Hfy).
    exists y. split; [apply elem_of_cons; by right|done].
  - cbn [bind]. intros [= ->]. exists x. split; [apply elem_of_cons; by left|done].
Qed.

Lemma filterM_first_throw {A} (f : A → result bool) (before : list A) x after e :
  Forall (λ y, ∃ b, f y = Return b) before → f x = Throw e →
  filterM f (before ++ x :: after) = Throw e.
Proof.
  intros Hbefore Hx. induction Hbefore as [|y before [b Hy] _ IH]; cbn [filterM app].
  - by rewrite Hx.
  - by rewrite Hy, IH.
Qed.

Section FilterExceptions.
Variable toLowerCase : string → string.

Lemma some_tagIncludes_throw textLower tags e :
  some (tagIncludes toLowerCase textLower) tags = Throw e →
  e = TypeError ∧ ¬ Forall (λ tag, ∃ s, tag = JStr s) tags.
Proof.
  induction tags as [|tag tags IH]; cbn [some]; [done|].
  destruct tag as [| | | |s| |]; cbn [tagIncludes bind];
    try (intros [= <-]; split; [done|]; intros [[s Hs] _]%Forall_cons; discriminate).
  destruct (includes (toLowerCase s) textLower); [done|].
  intros Hthrow. destruct (IH Hthrow) as [-> Hbad]. split; [done|].
  intros [_ Hrest]%Forall_cons. by apply Hbad.
Qed.

Lemma some_tagIncludes_bad textLower strings bad rest :
  Forall (λ tag, ∃ s, tag = JStr s ∧ includes (toLowerCase s) textLower = false) strings →
  (∀ s, bad ≠ JStr s) →
  some (tagIncludes toLowerCase textLower) (strings ++ bad :: rest) = Throw TypeError.
Proof.
  intros Hstrings Hbad. induction Hstrings as [|tag strings (s & -> & Hs) _ IH].
  - cbn [app some]. destruct bad as [| | | |s| |]; try done. by destruct (Hbad s).
  - cbn [app some tagIncludes bind]. by rewrite Hs.
Qed.

Lemma keepCard_returns card criteria :
  toLowerCase (Criteria.text criteria) = "" ∨ tagsAreStrings card →
  ∃ b, keepCard toLowerCase (toLowerCase (Criteria.text criteria))
         (list_to_set (Criteria.kind criteria)) (list_to_set (Criteria.type criteria))
         (list_to_set (Criteria.tags criteria)) card = Return b.
Proof.
  intros Hsafe. rewrite keepCard_eq.
  destruct (bool_decide_reflect (toLowerCase (Criteria.text criteria) = "")) as [Hempty|Hfull].
  - cbn [negb bind]. by eexists.
  - destruct Hsafe as [?|Htags]; [done|]. cbn [negb].
    rewrite textMatches_strings by done. cbn [bind]. by eexists.
Qed.

(** X16. When [filterCards] returns, the cards it returns are cards of
    its input, in the order of the input.  With a text that is empty in
    lower case it returns whatever the cards are, and keeps the cards that
    pass the filters on kinds, types and tags. *)
Theorem filterCards_keeps_order (cards : list Card.t) (criteria : Criteria.t) :
  (∀ kept, filterCards toLowerCase cards criteria = Return kept →
           kept `sublist_of` cards) ∧
  (toLowerCase (Criteria.text criteria) = "" →
   filterCards toLowerCase cards criteria =
     Return (List.filter (λ card, setFilters card criteria) cards)).
Proof.
  split.
  - intros kept. unfold filterCards. apply filterM_sublist.
  - intros Hempty. unfold filterCards. apply filterM_pure, Forall_forall.
    intros card _. rewrite keepCard_eq, Hempty. done.
Qed.

(** X17. The only exception of [filterCards] is a [TypeError], and it
    needs a text that is not empty in lower case and a card with a tag that
    is not a string.  It is thrown when, the cards before it having strings
    as tags, a card does not hold the text in its name or id and has, after
    tags that are strings without the text, a tag that is not a string. *)
Theorem filterCards_exception (cards : list Card.t) (criteria : Criteria.t) :
  let textLower := toLowerCase (Criteria.text criteria) in
  (∀ e, filterCards toLowerCase cards criteria = Throw e →
        e = TypeError ∧ textLower ≠ "" ∧
        ∃ card, card ∈ cards ∧ ¬ tagsAreStrings card) ∧
  (∀ before card after strings bad rest,
     cards = before ++ card :: after →
     Forall tagsAreStrings before →
     textLower ≠ "" →
     includes (toLowerCase (Card.name card)) textLower = false →
     includes (toLowerCase (Card.id card)) textLower = false →
     Card.tags card = JArr (strings ++ bad :: rest) →
     Forall (λ tag, ∃ s, tag = JStr s ∧ includes (toLowerCase s) textLower = false)
       strings →
     (∀ s, bad ≠ JStr s) →
     filterCards toLowerCase cards criteria = Throw TypeError).
Proof.
  cbn zeta. split.
  - intros e Hthrow. unfold filterCards in Hthrow.
    apply filterM_throw in Hthrow as (card & Hin & Hcard).
    rewrite keepCard_eq in Hcard.
    destruct (bool_decide_reflect (toLowerCase (Criteria.text criteria) = ""))
      as [Hempty|Hfull]; [done|].
    cbn [negb] in Hcard. unfold textMatches in Hcard.
    destruct (includes (toLowerCase (Card.name card)) _); [done|].
    destruct (includes (toLowerCase (Card.id card)) _); [done|].
    destruct (Card.tags card) as [| | | | |tags|] eqn:Htags; try done.
    destruct (some _ tags) as [found|e'] eqn:Hsome; [done|].
    cbn [bind] in Hcard. injection Hcard as ->.
    apply some_tagIncludes_throw in Hsome as [-> Hbad].
    split; [done|]. split; [done|]. exists card. split; [done|].
    unfold tagsAreStrings. by rewrite Htags.
  - intros before card after strings bad rest -> Hbefore Hfull Hname Hid Htags Hstrings Hbad.
    unfold filterCards. apply filterM_first_throw.
    + eapply Forall_impl; [exact Hbefore|]. intros other Hother.
      apply keepCard_returns. by right.
    + rewrite keepCard_eq. rewrite bool_decide_eq_false_2 by done. cbn [negb].
      unfold textMatches. rewrite Hname, Hid, Htags.
      by rewrite some_tagIncludes_bad.
Qed.
End FilterExceptions.

Lemma filterCards_keeps_order_witness :
  Sample.asciiLower (Criteria.text (Criteria.mk "" ["Song"] [] [])) = "" ∧
  filterCards Sample.asciiLower
    [Sample.cardA; withTags (JArr [JNum 5]) Sample.cardB] (Criteria.mk "" ["Song"] [] []) =
    Return [withTags (JArr [JNum 5]) Sample.cardB].
Proof.
  split; [reflexivity|].
  exact (proj2 (filterCards_keeps_order Sample.asciiLower
                  [Sample.cardA; withTags (JArr [JNum 5]) Sample.cardB]
                  (Criteria.mk "" ["Song"] [] [])) eq_refl).
Defined.

Lemma filterCards_exception_witness :
  let bad := withTags (JArr [JStr "VALIS"; JNum 5; JStr "stage"]) Sample.cardC in
  let criteria := Criteria.mk "Kaf" [] [] [] in
  Forall tagsAreStrings [Sample.cardA] ∧
  Sample.asciiLower "Kaf" ≠ "" ∧
  includes (Sample.asciiLower (Card.name bad)) "kaf" = false ∧
  includes (Sample.asciiLower (Card.id bad)) "kaf" = false ∧
  filterCards Sample.asciiLower [Sample.cardA; bad; Sample.cardB] criteria = Throw TypeError.
Proof.
  cbn zeta.
  assert (Forall tagsAreStrings [Sample.cardA]) as Hbefore.
  { repeat constructor; unfold tagsAreStrings; simpl; by eexists. }
  assert (Sample.asciiLower "Kaf" ≠ "") as Hfull by discriminate.
  split; [exact Hbefore|]. split; [exact Hfull|].
  split; [reflexivity|]. split; [reflexivity|].
  refine (proj2 (filterCards_exception Sample.asciiLower _ (Criteria.mk "Kaf" [] [] []))
            [Sample.cardA] (withTags (JArr [JStr "VALIS"; JNum 5; JStr "stage"]) Sample.cardC)
            [Sample.cardB] [JStr "VALIS"] (JNum 5) [JStr "stage"]
            eq_refl Hbefore Hfull eq_refl eq_refl eq_refl _ _).
  - constructor; [|constructor]. by exists "VALIS".
  - discriminate.
Defined.

Lemma totalOf_Permutation deck1 deck2 : deck1 ≡ₚ deck2 → totalOf deck1 = totalOf deck2.
Proof.
  induction 1 as [|item deck1 deck2 _ IH|item1 item2 deck|deck1 deck2 deck3 _ IH1 _ IH2].
  - done.
  - by rewrite !totalOf_cons, IH.
  - rewrite !totalOf_cons. lia.
  - by rewrite IH1.
Qed.

Lemma sampleSort_Permutation (A : Type) (compare : A → A → Z) (arr : list A) :
  SampleSort.sort A compare arr ≡ₚ arr.
Proof.
  assert (∀ x sorted, SampleSort.insert compare x sorted ≡ₚ x :: sorted) as Hinsert.
  { intros x sorted. induction sorted as [|y rest IH]; [done|].
    cbn [SampleSort.insert]. destruct (compare x y <? 0); [done|].
    rewrite IH. apply perm_swap. }
  induction arr as [|x arr IH]; [done|].
  unfold SampleSort.sort in *. cbn [foldr]. by rewrite Hinsert, IH.
Qed.

Section DisplayedLists.
Variable localeCompare : string → string → Z.
Variable toLowerCase : string → string.
Variable sort : ∀ A : Type, (A → A → Z) → list A → list A.
Hypothesis sort_permutation : ∀ A compare (arr : list A), sort A compare arr ≡ₚ arr.

(** X18. The displayed lists hold what they are made from, given that
    [sort] reorders its array: the sorted deck has the entries of the deck,
    hence its total and its invariants; the sorted pool has the cards that
    [filterCards] returns, and throws what [filterCards] throws. *)
Theorem displayed_lists (deck : list Entry.t) (cards : list Card.t)
    (criteria : Criteria.t) :
  sortedDeckCards localeCompare sort deck ≡ₚ deck ∧
  totalOf (sortedDeckCards localeCompare sort deck) = totalOf deck ∧
  (deckInvariant deck → deckInvariant (sortedDeckCards localeCompare sort deck)) ∧
  (∀ kept, filterCards toLowerCase cards criteria = Return kept →
     ∃ shown,
       sortedAndFilteredAvailableCards toLowerCase localeCompare sort cards criteria =
         Return shown ∧
       shown ≡ₚ kept) ∧
  (∀ e, filterCards toLowerCase cards criteria = Throw e →
        sortedAndFilteredAvailableCards toLowerCase localeCompare sort cards criteria =
          Throw e).
Proof.
  assert (sortedDeckCards localeCompare sort deck ≡ₚ deck) as Hperm
    by apply sort_permutation.
  split; [done|]. split; [by apply totalOf_Permutation|]. split; [|split].
  - intros [Hc Ht Hz Hd]. split.
    + by rewrite Hperm.
    + by rewrite (totalOf_Permutation _ _ Hperm).
    + by rewrite Hperm.
    + by rewrite Hperm.
  - intros kept Hkept. unfold sortedAndFilteredAvailableCards. rewrite Hkept.
    eexists. split; [done|]. apply sort_permutation.
  - intros e Hthrow. unfold sortedAndFilteredAvailableCards. by rewrite Hthrow.
Qed.
End DisplayedLists.

Lemma displayed_lists_witness :
  (∀ A compare (arr : list A), SampleSort.sort A compare arr ≡ₚ arr) ∧
  sortedDeckCards Sample.byteCompare SampleSort.sort
    [Entry.mk Sample.cardC 1; Entry.mk Sample.cardB 4; Entry.mk Sample.cardA 2] ≡ₚ
    [Entry.mk Sample.cardC 1; Entry.mk Sample.cardB 4; Entry.mk Sample.cardA 2] ∧
  sortedDeckCards Sample.byteCompare SampleSort.sort
    [Entry.mk Sample.cardC 1; Entry.mk Sample.cardB 4; Entry.mk Sample.cardA 2] =
    [Entry.mk Sample.cardA 2; Entry.mk Sample.cardB 4; Entry.mk Sample.cardC 1].
Proof.
  split; [exact sampleSort_Permutation|].
  split; [|by vm_compute].
  exact (proj1 (displayed_lists Sample.byteCompare Sample.asciiLower SampleSort.sort
                  sampleSort_Permutation
                  [Entry.mk Sample.cardC 1; Entry.mk Sample.cardB 4; Entry.mk Sample.cardA 2]
                  [] (Criteria.mk "" [] [] []))).
Defined.

(** ** The tags offered by the filter dialog *)

Lemma sameValueZero_JStr s w : sameValueZero (JStr s) w = true ↔ w = JStr s.
Proof.
  destruct w; cbn; try (split; [done|intros [=]]).
  rewrite bool_decide_eq_true. split; [by intros ->|by intros [= ->]].
Qed.

Lemma setHas_JStr set s : setHas set (JStr s) = true ↔ JStr s ∈ set.
Proof.
  unfold setHas. rewrite existsb_exists. split.
  - intros (w & Hin & Hsame). apply sameValueZero_JStr in Hsame as ->.
    by apply list_elem_of_In.
  - intros Hin. exists (JStr s). split; [by apply list_elem_of_In|].
    by apply sameValueZero_JStr.
Qed.

Lemma elem_of_tagNames values s : s ∈ tagNames values ↔ JStr s ∈ values.
Proof.
  unfold tagNames. rewrite list_elem_of_omap. split.
  - intros (v & Hin & Hv). by destruct v; simplify_eq.
  - intros Hin. by exists (JStr s).
Qed.

Lemma elem_of_setAdd set v s : JStr s ∈ setAdd set v ↔ JStr s ∈ set ∨ v = JStr s.
Proof.
  unfold setAdd. destruct (setHas set v) eqn:Hhas.
  - split; [by left|]. intros [Hin| ->]; [done|]. by apply setHas_JStr.
  - rewrite elem_of_app, list_elem_of_singleton.
    split; (intros [?|?]; [by left|by right]).
Qed.

Lemma elem_of_foldl_setAdd values set s :
  JStr s ∈ foldl setAdd set values ↔ JStr s ∈ set ∨ JStr s ∈ values.
Proof.
  revert set. induction values as [|v values IH]; intros set; cbn [foldl].
  - rewrite elem_of_nil. tauto.
  - rewrite IH, elem_of_setAdd, elem_of_cons.
    split; [intros [[?|?]|?]|intros [?|[?|?]]]; auto.
Qed.

Lemma NoDup_tagNames_setAdd set v : NoDup (tagNames set) → NoDup (tagNames (setAdd set v)).
Proof.
  intros Hset. unfold setAdd. destruct (setHas set v) eqn:Hhas; [done|].
  unfold tagNames. rewrite omap_app. fold (tagNames set).
  destruct v as [| | | |s| |]; cbn; rewrite ?app_nil_r; try done.
  apply NoDup_app. split; [done|]. split; [|apply NoDup_singleton].
  intros x Hx ->%list_elem_of_singleton.
  apply elem_of_tagNames, setHas_JStr in Hx. congruence.
Qed.

Lemma NoDup_tagNames_foldl values set :
  NoDup (tagNames set) → NoDup (tagNames (foldl setAdd set values)).
Proof.
  revert set. induction values as [|v values IH]; intros set Hset; [done|].
  cbn [foldl]. by apply IH, NoDup_tagNames_setAdd.
Qed.

Lemma NoDup_tagNames_filter (keep : jsval → bool) values :
  NoDup (tagNames values) → NoDup (tagNames (List.filter keep values)).
Proof.
  induction values as [|v values IH]; [done|].
  intros Hvalues. cbn [List.filter]. destruct (keep v).
  - destruct v as [| | | |s| |]; cbn in *; try by apply IH.
    apply NoDup_cons in Hvalues as [Hnew Hrest]. apply NoDup_cons. split; [|by apply IH].
    rewrite elem_of_tagNames in *. intros Hin. apply Hnew.
    apply list_elem_of_In, filter_In in Hin as [Hin _]. by apply list_elem_of_In.
  - apply IH. destruct v; cbn in *; try done. by apply NoDup_cons in Hvalues as [_ ?].
Qed.

Lemma tagNames_strings (strings : list string) : tagNames (JStr <$> strings) = strings.
Proof.
  induction strings as [|s strings IH]; [done|]. cbn. by f_equal.
Qed.

Lemma priorityTags_NoDup : NoDup priorityTags.
Proof. apply (bool_decide_unpack _). by vm_compute. Qed.

Section AllTagsProperties.
Variable defaultSort : list jsval → list jsval.
Hypothesis defaultSort_permutation : ∀ values, defaultSort values ≡ₚ values.

Let collect (set : list jsval) (cards : list Card.t) : list jsval :=
  foldl (λ tags card,
           match Card.tags card with
           | JArr cardTags => foldl setAdd tags cardTags
           | _ => tags
           end) set cards.

Lemma elem_of_collect cards set s :
  JStr s ∈ collect set cards ↔ JStr s ∈ set ∨ ∃ card, card ∈ cards ∧ s ∈ tagStrings card.
Proof.
  revert set. induction cards as [|card cards IH]; intros set; unfold collect in *;
    cbn [foldl].
  - split; [by left|]. intros [?|(card & Hin & _)]; [done|]. by apply elem_of_nil in Hin.
  - rewrite IH. unfold tagStrings at 2.
    setoid_rewrite elem_of_cons.
    destruct (Card.tags card) as [| | | | |cardTags|] eqn:Htags.
    all: try (split; [intros [?|(c & Hc & Hs)]; [by left|right; exists c; by split; [right|]]
                     |intros [?|(c & [->|Hc] & Hs)];
                        [by left
                        |unfold tagStrings in Hs; rewrite Htags in Hs; by apply elem_of_nil in Hs
                        |right; by exists c]]).
    rewrite elem_of_foldl_setAdd. split.
    + intros [[?|Hin]|(c & Hc & Hs)].
      * by left.
      * right. exists card. split; [by left|]. unfold tagStrings. rewrite Htags.
        by apply elem_of_tagNames.
      * right. exists c. by split; [right|].
    + intros [?|(c & [->|Hc] & Hs)].
      * by left; left.
      * left; right. unfold tagStrings in Hs. rewrite Htags in Hs.
        by apply elem_of_tagNames in Hs.
      * right. by exists c.
Qed.

Lemma NoDup_collect cards set : NoDup (tagNames set) → NoDup (tagNames (collect set cards)).
Proof.
  revert set. induction cards as [|card cards IH]; intros set Hset; [done|].
  unfold collect in *. cbn [foldl]. apply IH.
  destruct (Card.tags card); try done. by apply NoDup_tagNames_foldl.
Qed.

Lemma allTags_parts (availableCards : list Card.t) :
  ∃ tags first others,
    allTags defaultSort availableCards = (JStr <$> first) ++ others ∧
    first = List.filter (λ tag, setHas tags (JStr tag)) priorityTags ∧
    NoDup (tagNames tags) ∧
    others ≡ₚ List.filter (λ tag, negb (setHas (newSet (JStr <$> priorityTags)) tag)) tags ∧
    (∀ s, JStr s ∈ tags ↔ ∃ card, card ∈ availableCards ∧ s ∈ tagStrings card) ∧
    (∀ s, s ∈ first ↔ s ∈ priorityTags ∧ JStr s ∈ tags) ∧
    (∀ s, JStr s ∈ others ↔ JStr s ∈ tags ∧ s ∉ priorityTags).
Proof.
  unfold allTags. fold (collect (newSet []) availableCards).
  set (tags := collect (newSet []) availableCards).
  set (first := List.filter (λ tag, setHas tags (JStr tag)) priorityTags).
  set (others := defaultSort
                   (List.filter (λ tag, negb (setHas (newSet (JStr <$> priorityTags)) tag))
                      tags)).
  exists tags, first, others.
  assert (∀ s, setHas (newSet (JStr <$> priorityTags)) (JStr s) = true ↔ s ∈ priorityTags)
    as Hpriority.
  { intros s. rewrite setHas_JStr. unfold newSet. rewrite elem_of_foldl_setAdd.
    rewrite elem_of_nil, list_elem_of_fmap. split.
    - intros [[]|(x & [= ->] & Hx)]. done.
    - intros Hs. right. by exists s. }
  split; [done|]. split; [done|]. split; [|split; [|split; [|split]]].
  - apply NoDup_collect. cbn. apply NoDup_nil_2.
  - apply defaultSort_permutation.
  - intros s. unfold tags. rewrite elem_of_collect. cbn. rewrite elem_of_nil. tauto.
  - intros s. unfold first. rewrite list_elem_of_In, filter_In, <- list_elem_of_In.
    by rewrite setHas_JStr.
  - intros s. unfold others. rewrite defaultSort_permutation.
    rewrite list_elem_of_In, filter_In, <- list_elem_of_In, negb_true_iff.
    rewrite <- Hpriority. destruct (setHas _ (JStr s)).
    + split; [intros [_ [=]]|by intros [_ []]].
    + split; (intros [? _]; split; [done|]); [by intros [=]|done].
Qed.

Lemma elem_of_allTags (availableCards : list Card.t) (tag : string) :
  tag ∈ tagNames (allTags defaultSort availableCards) ↔
  ∃ card, card ∈ availableCards ∧ tag ∈ tagStrings card.
Proof.
  destruct (allTags_parts availableCards)
    as (tags & first & others & -> & _ & _ & _ & Htags & Hfirst & Hothers).
  rewrite elem_of_tagNames, elem_of_app, list_elem_of_fmap, <- Htags.
  rewrite Hothers. split.
  - intros [(s & [= <-] & Hs)|[? _]]; [by apply Hfirst in Hs as [_ ?]|done].
  - intros Hin. destruct (decide (tag ∈ priorityTags)) as [Hp|Hp].
    + left. exists tag. split; [done|]. by apply Hfirst.
    + by right.
Qed.

(** X19. The tags of the filter dialog, given that [sort] reorders its
    array: a string is offered exactly when it is a tag of a card of the
    pool, and it is offered once; the list begins with the priority tags
    that are in use, in the order of [priorityTags], and no priority tag
    comes after them. *)
Theorem allTags_spec (availableCards : list Card.t) :
  (∀ tag, tag ∈ tagNames (allTags defaultSort availableCards) ↔
          ∃ card, card ∈ availableCards ∧ tag ∈ tagStrings card) ∧
  NoDup (tagNames (allTags defaultSort availableCards)) ∧
  ∃ first others,
    allTags defaultSort availableCards = (JStr <$> first) ++ others ∧
    first `sublist_of` priorityTags ∧
    (∀ tag, tag ∈ first ↔
            tag ∈ priorityTags ∧ ∃ card, card ∈ availableCards ∧ tag ∈ tagStrings card) ∧
    (∀ tag, tag ∈ priorityTags → JStr tag ∉ others).
Proof.
  split; [apply elem_of_allTags|].
  destruct (allTags_parts availableCards)
    as (tags & first & others & -> & Hdef & Hnodup & Hperm & Htags & Hfirst & Hothers).
  split.
  - unfold tagNames. rewrite omap_app. fold (tagNames (JStr <$> first)) (tagNames others).
    rewrite tagNames_strings. apply NoDup_app. split; [|split].
    + rewrite Hdef. apply NoDup_ListNoDup, List.NoDup_filter, NoDup_ListNoDup.
      apply priorityTags_NoDup.
    + intros s Hs Ho. apply Hfirst in Hs as [Hp _].
      apply elem_of_tagNames, Hothers in Ho as [_ Hn]. done.
    + unfold tagNames. rewrite Hperm. by apply NoDup_tagNames_filter.
  - exists first, others. split; [done|]. split; [|split].
    + rewrite Hdef. clear. induction priorityTags as [|s l IH]; [done|].
      cbn [List.filter]. destruct (setHas tags (JStr s)).
      * by apply sublist_skip.
      * by apply sublist_cons.
    + intros tag. by rewrite Hfirst, Htags.
    + intros tag Hp Ho. by apply Hothers in Ho as [_ Hn].
Qed.

Lemma existsb_singleton (tag : string) (strings : list string) :
  existsb (λ s, bool_decide (s ∈ [tag])) strings = bool_decide (tag ∈ strings).
Proof.
  induction strings as [|s strings IH]; [done|].
  cbn [existsb]. rewrite IH. destruct (decide (s = tag)) as [->|Hne].
  - rewrite (bool_decide_eq_true_2 (tag ∈ [tag])) by (by apply list_elem_of_singleton).
    by rewrite (bool_decide_eq_true_2 (tag ∈ tag :: strings)) by (by left).
  - rewrite (bool_decide_eq_false_2 (s ∈ [tag])) by (by rewrite list_elem_of_singleton).
    cbn [orb]. apply bool_decide_ext. rewrite elem_of_cons.
    split; [by right|]. intros [?|?]; [congruence|done].
Qed.

Section OfferedTags.
Variable toLowerCase : string → string.
Hypothesis toLowerCase_empty : toLowerCase "" = "".

(** X20. A tag that the filter dialog offers, chosen alone and with no
    text, selects the cards of the pool that carry it, and there is one. *)
Theorem offered_tag_selects_cards (availableCards : list Card.t) (tag : string) :
  tag ∈ tagNames (allTags defaultSort availableCards) →
  ∃ kept,
    filterCards toLowerCase availableCards (Criteria.mk "" [] [] [tag]) = Return kept ∧
    kept = List.filter (λ card, bool_decide (tag ∈ tagStrings card)) availableCards ∧
    kept ≠ [].
Proof.
  intros (card & Hin & Htag)%elem_of_allTags.
  eexists. split; [|split; [reflexivity|]].
  - unfold filterCards. apply filterM_pure, Forall_forall. intros c _.
    rewrite keepCard_eq. cbn [Criteria.text]. rewrite toLowerCase_empty.
    rewrite bool_decide_eq_true_2 by done. cbn [negb bind andb]. f_equal.
    unfold setFilters. cbn [Criteria.kind Criteria.type Criteria.tags isEmpty orb andb].
    apply existsb_singleton.
  - intros Hnil.
    assert (card ∈ List.filter (λ card, bool_decide (tag ∈ tagStrings card)) availableCards)
      as Hcard.
    { apply list_elem_of_In, filter_In. split; [by apply list_elem_of_In|].
      by apply bool_decide_eq_true. }
    rewrite Hnil in Hcard. by apply elem_of_nil in Hcard.
Qed.
End OfferedTags.
End AllTagsProperties.

Lemma allTags_spec_witness :
  (∀ values, SampleSort.defaultSort values ≡ₚ values) ∧
  NoDup (tagNames (allTags SampleSort.defaultSort SampleSort.taggedCards)) ∧
  allTags SampleSort.defaultSort SampleSort.taggedCards =
    [JStr "V.W.P"; JStr "花譜"; JStr "alpha"; JStr "zeta"].
Proof.
  split; [intros values; apply sampleSort_Permutation|].
  split; [|by vm_compute].
  exact (proj1 (proj2 (allTags_spec SampleSort.defaultSort
                         (λ values, sampleSort_Permutation _ _ values)
                         SampleSort.taggedCards))).
Defined.

Lemma offered_tag_selects_cards_witness :
  (∀ values, SampleSort.defaultSort values ≡ₚ values) ∧
  Sample.asciiLower "" = "" ∧
  "花譜" ∈ tagNames (allTags SampleSort.defaultSort SampleSort.taggedCards) ∧
  ∃ kept,
    filterCards Sample.asciiLower SampleSort.taggedCards (Criteria.mk "" [] [] ["花譜"]) =
      Return kept ∧
    kept = List.filter (λ card, bool_decide ("花譜" ∈ tagStrings card))
             SampleSort.taggedCards ∧
    kept ≠ [].
Proof.
  split; [intros values; apply sampleSort_Permutation|].
  split; [done|].
  assert ("花譜" ∈ tagNames (allTags SampleSort.defaultSort SampleSort.taggedCards))
    as Hoffered by (apply (bool_decide_unpack _); by vm_compute).
  split; [exact Hoffered|].
  exact (offered_tag_selects_cards SampleSort.defaultSort
           (λ values, sampleSort_Permutation _ _ values)
           Sample.asciiLower eq_refl SampleSort.taggedCards "花譜" Hoffered).
Defined.

(** ** Keeping the deck in the storage of the browser *)

Lemma restoreSaved_simpleDeckOf (catalog : list Card.t) (deck : list Entry.t) :
  Forall (λ item, findCard catalog (entryId item) = Some (Entry.card item)) deck →
  restoreSaved catalog (simpleDeckOf deck) = deck.
Proof.
  induction 1 as [|item deck Hitem _ IH]; [done|].
  unfold restoreSaved, simpleDeckOf in *. cbn [fmap list_fmap omap list_omap Saved.id].
  unfold entryId in Hitem. rewrite Hitem, IH. cbn. by destruct item.
Qed.

Lemma restoreSaved_elem_of (catalog : list Card.t) (simpleDeck : list Saved.t) entry :
  entry ∈ restoreSaved catalog simpleDeck ↔
  ∃ item, item ∈ simpleDeck ∧
          findCard catalog (Saved.id item) = Some (Entry.card entry) ∧
          Entry.count entry = Saved.count item.
Proof.
  unfold restoreSaved. rewrite list_elem_of_omap. split.
  - intros (item & Hin & Hentry). exists item. split; [done|].
    destruct (findCard catalog (Saved.id item)) as [card|]; [|done].
    by injection Hentry as <-.
  - intros (item & Hin & Hcard & Hcount). exists item. split; [done|].
    rewrite Hcard, <- Hcount. by destruct entry.
Qed.

Lemma restoreSaved_ids (catalog : list Card.t) (simpleDeck : list Saved.t) :
  entryId <$> restoreSaved catalog simpleDeck =
  List.filter (λ id, bool_decide (is_Some (findCard catalog id))) (Saved.id <$> simpleDeck).
Proof.
  induction simpleDeck as [|item simpleDeck IH]; [done|].
  unfold restoreSaved in *. cbn [fmap list_fmap omap list_omap List.filter].
  destruct (findCard catalog (Saved.id item)) as [card|] eqn:Hcard.
  - rewrite bool_decide_eq_true_2 by (by eexists). cbn [fmap list_fmap]. f_equal; [|exact IH].
    unfold entryId. cbn. by apply findCard_Some in Hcard as [? _].
  - rewrite bool_decide_eq_false_2 by (by intros [? ?]). exact IH.
Qed.

Section PersistenceProperties.
Variable stringify : list Saved.t → string.
Variable parse : string → string + list Saved.t.
Variable setItemError : string → string → option string.

(** X21. Saving the deck and loading it again, when the storage takes
    the text and the text is read back as written: the deck comes back with
    the entries whose id the pool knows, each with the card that the pool
    has for the id; it comes back as it was when every card of the deck is
    the first card of the pool with its id.  Nothing is shown, and the pool
    is left alone. *)
Theorem saved_deck_restored (deck : list Entry.t) (st : State) :
  let text := stringify (simpleDeckOf deck) in
  setItemError "deckCards_k" text = None →
  text ≠ "" →
  parse text = inr (simpleDeckOf deck) →
  let st' := loadDeckFromLocalStorage parse
               (saveDeckToLocalStorage stringify setItemError deck st) in
  deckCards st' = restoreSaved (availableCards st) (simpleDeckOf deck) ∧
  (Forall (λ item, findCard (availableCards st) (entryId item) = Some (Entry.card item))
     deck → deckCards st' = deck) ∧
  alerts st' = alerts st ∧
  availableCards st' = availableCards st.
Proof.
  cbn zeta. intros Hroom Htext Hparse.
  unfold saveDeckToLocalStorage. rewrite Hroom.
  unfold loadDeckFromLocalStorage.
  replace (localStorage (setItem "deckCards_k" (stringify (simpleDeckOf deck)) st)
             !! "deckCards_k") with (Some (stringify (simpleDeckOf deck)))
    by (cbn; by rewrite lookup_insert_eq).
  rewrite (bool_decide_eq_false_2 _ Htext), Hparse.
  assert (∀ st0 : State,
            availableCards st0 = availableCards st → alerts st0 = alerts st →
            let st1 := match localStorage (setItem "deckCards_k"
                                             (stringify (simpleDeckOf deck)) st)
                             !! "deckName_k" with
                       | Some name => if bool_decide (name = "") then st0
                                      else setDeckName name st0
                       | None => st0
                       end in
            availableCards st1 = availableCards st ∧ alerts st1 = alerts st) as Hname.
  { intros st0 Hcards Halerts. cbn zeta.
    destruct (_ !! "deckName_k") as [name|]; [|done].
    by destruct (bool_decide (name = "")). }
  destruct (Hname (setItem "deckCards_k" (stringify (simpleDeckOf deck)) st))
    as [Hcards Halerts]; [done..|].
  cbn [deckCards setDeckCards alerts availableCards]. rewrite Hcards.
  split; [done|]. split; [apply restoreSaved_simpleDeckOf|]. by split.
Qed.

(** X22. Loading a saved deck that can be read: the deck is replaced by
    the saved items whose id the pool knows, in their order, each with the
    card that the pool has for its id and with its count as saved, whatever
    the count is; items with other ids are dropped, so with an empty pool
    the deck becomes empty.  Nothing is shown and the storage is not
    written. *)
Theorem loadDeck_restores_known_cards (st : State) (text : string)
    (simpleDeck : list Saved.t) :
  localStorage st !! "deckCards_k" = Some text →
  text ≠ "" →
  parse text = inr simpleDeck →
  let st' := loadDeckFromLocalStorage parse st in
  entryId <$> deckCards st' =
    List.filter (λ id, bool_decide (is_Some (findCard (availableCards st) id)))
      (Saved.id <$> simpleDeck) ∧
  (∀ entry, entry ∈ deckCards st' ↔
            ∃ item, item ∈ simpleDeck ∧
                    findCard (availableCards st) (Saved.id item) = Some (Entry.card entry) ∧
                    Entry.count entry = Saved.count item) ∧
  Forall (λ entry, Entry.card entry ∈ availableCards st) (deckCards st') ∧
  (availableCards st = [] → deckCards st' = []) ∧
  alerts st' = alerts st ∧
  localStorage st' = localStorage st ∧
  availableCards st' = availableCards st.
Proof.
  cbn zeta. intros Hsaved Htext Hparse.
  unfold loadDeckFromLocalStorage. rewrite Hsaved.
  rewrite (bool_decide_eq_false_2 _ Htext), Hparse.
  set (st0 := match localStorage st !! "deckName_k" with
              | Some name => if bool_decide (name = "") then st else setDeckName name st
              | None => st
              end).
  assert (availableCards st0 = availableCards st ∧ alerts st0 = alerts st ∧
          localStorage st0 = localStorage st) as (Hcards & Halerts & Hstorage).
  { unfold st0. destruct (_ !! "deckName_k") as [name|]; [|done].
    by destruct (bool_decide (name = "")). }
  cbn [deckCards setDeckCards alerts availableCards localStorage]. rewrite Hcards.
  split; [apply restoreSaved_ids|]. split; [apply restoreSaved_elem_of|].
  split; [|split; [|done]].
  - apply Forall_forall. intros entry (item & _ & Hcard & _)%restoreSaved_elem_of.
    by apply findCard_Some in Hcard as [_ ?].
  - intros ->. unfold restoreSaved. clear. by induction simpleDeck.
Qed.

Lemma load_nothing_saved (st : State) :
  localStorage st !! "deckCards_k" = None →
  localStorage st !! "deckName_k" = None →
  loadDeckFromLocalStorage parse st = st.
Proof. intros Hdeck Hname. unfold loadDeckFromLocalStorage. by rewrite Hdeck, Hname. Qed.

(** X23. Loading a saved deck that cannot be read: the deck stays as it
    is, one message with the text of the exception is shown, and both keys
    are removed from the storage, the other keys staying; the name is the
    saved name when there is one.  Loading again changes nothing more. *)
Theorem loadDeck_failure (st : State) (text message : string) :
  localStorage st !! "deckCards_k" = Some text →
  text ≠ "" →
  parse text = inl message →
  let st' := loadDeckFromLocalStorage parse st in
  deckCards st' = deckCards st ∧
  alerts st' = alerts st ++ [loadFailedMessage +:+ newline +:+ message] ∧
  localStorage st' = delete "deckName_k" (delete "deckCards_k" (localStorage st)) ∧
  (∀ name, localStorage st !! "deckName_k" = Some name → name ≠ "" → deckName st' = name) ∧
  ((localStorage st !! "deckName_k" = None ∨ localStorage st !! "deckName_k" = Some "") →
   deckName st' = deckName st) ∧
  loadDeckFromLocalStorage parse st' = st'.
Proof.
  cbn zeta. intros Hsaved Htext Hparse.
  set (st0 := match localStorage st !! "deckName_k" with
              | Some name => if bool_decide (name = "") then st else setDeckName name st
              | None => st
              end).
  assert (loadDeckFromLocalStorage parse st =
          removeItem "deckName_k"
            (removeItem "deckCards_k" (handleError message loadFailedMessage st0))) as ->.
  { unfold loadDeckFromLocalStorage. rewrite Hsaved.
    by rewrite (bool_decide_eq_false_2 _ Htext), Hparse. }
  assert (deckCards st0 = deckCards st ∧ alerts st0 = alerts st ∧
          localStorage st0 = localStorage st) as (Hcards & Halerts & Hstorage).
  { unfold st0. destruct (_ !! "deckName_k") as [name|]; [|done].
    by destruct (bool_decide (name = "")). }
  split; [exact Hcards|]. split; [cbn; by rewrite Halerts|].
  split; [cbn; by rewrite Hstorage|]. split; [|split].
  - intros name Hname Hfull. cbn. unfold st0. rewrite Hname.
    by rewrite (bool_decide_eq_false_2 _ Hfull).
  - intros [Hnone|Hempty]; cbn; unfold st0.
    + by rewrite Hnone.
    + by rewrite Hempty.
  - apply load_nothing_saved; cbn.
    + rewrite lookup_delete_ne by done. by rewrite lookup_delete_eq.
    + by rewrite lookup_delete_eq.
Qed.

End PersistenceProperties.

Lemma saved_deck_restored_witness :
  SampleStorage.setItemError "deckCards_k"
    (SampleStorage.stringify (simpleDeckOf Sample.smallDeck)) = None ∧
  SampleStorage.stringify (simpleDeckOf Sample.smallDeck) ≠ "" ∧
  SampleStorage.parse (SampleStorage.stringify (simpleDeckOf Sample.smallDeck)) =
    inr (simpleDeckOf Sample.smallDeck) ∧
  deckCards (loadDeckFromLocalStorage SampleStorage.parse
               (saveDeckToLocalStorage SampleStorage.stringify SampleStorage.setItemError
                  Sample.smallDeck (Sample.stateWith []))) = Sample.smallDeck.
Proof.
  do 3 (split; [done|]).
  apply (saved_deck_restored SampleStorage.stringify SampleStorage.parse
           SampleStorage.setItemError Sample.smallDeck (Sample.stateWith [])); [done..|].
  by repeat constructor.
Defined.

Lemma loadDeck_restores_known_cards_witness :
  localStorage (stateWithSaved [] SampleStorage.smallDeckText) !! "deckCards_k" =
    Some SampleStorage.smallDeckText ∧
  SampleStorage.smallDeckText ≠ "" ∧
  SampleStorage.parse SampleStorage.smallDeckText = inr (simpleDeckOf Sample.smallDeck) ∧
  deckCards (loadDeckFromLocalStorage SampleStorage.parse
               (stateWithSaved [] SampleStorage.smallDeckText)) = [].
Proof.
  do 3 (split; [done|]).
  apply (loadDeck_restores_known_cards SampleStorage.parse
           (stateWithSaved [] SampleStorage.smallDeckText) SampleStorage.smallDeckText
           (simpleDeckOf Sample.smallDeck)); done.
Defined.

Lemma loadDeck_failure_witness :
  localStorage (stateWithSaved Sample.catalog "AA-1/AA-2") !! "deckCards_k" =
    Some "AA-1/AA-2" ∧
  "AA-1/AA-2" ≠ "" ∧
  SampleStorage.parse "AA-1/AA-2" = inl "Unexpected token" ∧
  alerts (loadDeckFromLocalStorage SampleStorage.parse
            (stateWithSaved Sample.catalog "AA-1/AA-2")) =
    [loadFailedMessage +:+ newline +:+ "Unexpected token"].
Proof.
  do 3 (split; [done|]).
  exact (proj1 (proj2 (loadDeck_failure SampleStorage.parse
                         (stateWithSaved Sample.catalog "AA-1/AA-2") "AA-1/AA-2"
                         "Unexpected token" eq_refl ltac:(done) eq_refl))).
Defined.

(** ** Loading the pictures ahead *)

Lemma string_length_append (a s : string) :
  String.length (a +:+ s) = (String.length a + String.length s)%nat.
Proof.
  induction a as [|c a IH]; [done|].
  rewrite append_cons. cbn [String.length]. by rewrite IH.
Qed.

Lemma append_inj_r (a b s : string) : a +:+ s = b +:+ s → a = b.
Proof.
  revert b. induction a as [|c a IH]; intros [|d b] Heq; [done|..].
  - apply (f_equal String.length) in Heq. rewrite append_cons in Heq.
    change ("" +:+ s) with s in Heq. cbn [String.length] in Heq.
    rewrite string_length_append in Heq. lia.
  - apply (f_equal String.length) in Heq. rewrite append_cons in Heq.
    change ("" +:+ s) with s in Heq. cbn [String.length] in Heq.
    rewrite string_length_append in Heq. lia.
  - rewrite !append_cons in Heq. injection Heq as -> Heq. f_equal. by apply IH.
Qed.

Lemma getCardImageUrl_inj (id1 id2 : string) :
  getCardImageUrl id1 = getCardImageUrl id2 → id1 = id2.
Proof.
  unfold getCardImageUrl. intros Heq%String.app_inj. by apply append_inj_r in Heq.
Qed.

Lemma slice_from (cards : list Card.t) (start end_ : nat) :
  slice cards (Z.of_nat start) (Z.of_nat end_) = take (end_ - start) (drop start cards).
Proof. unfold slice. by rewrite !Nat2Z.id. Qed.

Lemma runBatches_prefix (timers : nat) (cards : list Card.t) (start : nat) (p : Preload) :
  (start ≤ length cards)%nat →
  let done_ := Nat.min (length cards) (start + 10 * (timers + 1)) in
  runBatches timers cards (Z.of_nat start) p =
    (foldl preloadCard p (take (done_ - start) (drop start cards)),
     if (done_ <? length cards)%nat then Some (Z.of_nat done_) else None).
Proof.
  revert start p. induction timers as [|timers IH]; intros start p Hstart; cbn zeta.
  - cbn [runBatches]. unfold loadBatch, batchSize.
    replace (Z.min (Z.of_nat start + 10) (Z.of_nat (length cards)))
      with (Z.of_nat (Nat.min (length cards) (start + 10 * (0 + 1)))) by lia.
    set (done_ := Nat.min (length cards) (start + 10 * (0 + 1))).
    rewrite slice_from.
    destruct (Nat.ltb_spec done_ (length cards)) as [Hlt|Hge].
    + by rewrite (proj2 (Z.ltb_lt _ _)) by lia.
    + by rewrite (proj2 (Z.ltb_ge _ _)) by lia.
  - cbn [runBatches]. unfold loadBatch, batchSize.
    replace (Z.min (Z.of_nat start + 10) (Z.of_nat (length cards)))
      with (Z.of_nat (Nat.min (length cards) (start + 10))) by lia.
    set (next := Nat.min (length cards) (start + 10)).
    set (done_ := Nat.min (length cards) (start + 10 * (S timers + 1))).
    rewrite slice_from.
    destruct (Z.ltb_spec (Z.of_nat next) (Z.of_nat (length cards))) as [Hlt|Hge].
    + rewrite IH by lia. cbn zeta.
      replace (Nat.min (length cards) (next + 10 * (timers + 1))) with done_ by lia.
      f_equal. rewrite <- foldl_app. f_equal.
      replace (done_ - start)%nat with ((next - start) + (done_ - next))%nat by lia.
      rewrite <- take_take_drop. f_equal. rewrite drop_drop. do 2 f_equal. lia.
    + replace done_ with next by lia.
      by rewrite (proj2 (Nat.ltb_ge _ _)) by lia.
Qed.

Lemma preloadCard_cache (p : Preload) (card : Card.t) (id : string) :
  cardCache (preloadCard p card) !! id =
    match cardCache p !! id with
    | Some src => Some src
    | None => if bool_decide (id = Card.id card) then Some (getCardImageUrl id) else None
    end.
Proof.
  unfold preloadCard. destruct (bool_decide_reflect (is_Some (cardCache p !! Card.id card)))
    as [[src Hsrc]|Hnone].
  - destruct (cardCache p !! id) as [src'|] eqn:Hid; [done|].
    rewrite bool_decide_eq_false_2; [done|]. intros ->. congruence.
  - cbn [cardCache]. destruct (decide (id = Card.id card)) as [->|Hne].
    + rewrite lookup_insert_eq. destruct (cardCache p !! Card.id card) eqn:Hid.
      * exfalso. apply Hnone. by eexists.
      * by rewrite bool_decide_eq_true_2.
    + rewrite lookup_insert_ne by done. rewrite bool_decide_eq_false_2 by done.
      by destruct (cardCache p !! id).
Qed.

Lemma preload_cache (cards : list Card.t) (p : Preload) (id : string) :
  cardCache (foldl preloadCard p cards) !! id =
    match cardCache p !! id with
    | Some src => Some src
    | None => if bool_decide (id ∈ Card.id <$> cards) then Some (getCardImageUrl id) else None
    end.
Proof.
  revert p. induction cards as [|card cards IH]; intros p.
  - cbn. by destruct (cardCache p !! id).
  - cbn [foldl]. rewrite IH, preloadCard_cache.
    destruct (cardCache p !! id) as [src|]; [done|].
    cbn [fmap list_fmap]. destruct (bool_decide_reflect (id = Card.id card)) as [->|Hne].
    + by rewrite bool_decide_eq_true_2 by (by left).
    + apply (f_equal (λ b : bool, if b then Some (getCardImageUrl id) else None)).
      apply bool_decide_ext. rewrite elem_of_cons. split; [by right|].
      by intros [?|?].
Qed.

Lemma preload_requested (cards : list Card.t) (p : Preload) :
  ∃ new,
    requested (foldl preloadCard p cards) = requested p ++ (getCardImageUrl <$> new) ∧
    NoDup new ∧
    new `sublist_of` (Card.id <$> cards) ∧
    ∀ id, id ∈ new ↔ id ∈ Card.id <$> cards ∧ cardCache p !! id = None.
Proof.
  revert p. induction cards as [|card cards IH]; intros p.
  - exists []. cbn. rewrite app_nil_r. split; [done|]. split; [constructor|].
    split; [done|]. intros id. rewrite elem_of_nil. tauto.
  - cbn [foldl]. destruct (IH (preloadCard p card)) as (new & Hreq & Hnodup & Hsub & Hnew).
    unfold preloadCard in Hreq, Hnew |- *.
    destruct (bool_decide_reflect (is_Some (cardCache p !! Card.id card)))
      as [[src Hsrc]|Hnone].
    + exists new. split; [done|]. split; [done|].
      split; [by apply sublist_cons|]. intros id. rewrite Hnew. cbn [fmap list_fmap].
      rewrite elem_of_cons. split; [intros [? ?]; by split; [right|]|].
      intros [[->|?] Hid]; [congruence|done].
    + cbn [requested cardCache] in *. exists (Card.id card :: new).
      split; [by rewrite Hreq, <- app_assoc|]. split; [|split].
      * apply NoDup_cons. split; [|done]. intros [_ Hin]%Hnew.
        by rewrite lookup_insert_eq in Hin.
      * by apply sublist_skip.
      * intros id. cbn [fmap list_fmap]. rewrite !elem_of_cons, Hnew.
        destruct (decide (id = Card.id card)) as [->|Hne].
        -- split; [intros _; split; [by left|]|by left].
           destruct (cardCache p !! Card.id card) eqn:Hid; [|done].
           exfalso. apply Hnone. by eexists.
        -- rewrite lookup_insert_ne by done. tauto.
Qed.

(** X25. Loading the pictures ahead comes to an end: with [timers]
    timers fired no timer is pending exactly when there are at most
    [10 * (timers + 1)] cards.  Then every card has an image in the cache;
    an image that was in the cache is kept; and an image is requested, once
    and at the address of its id, for exactly the ids of the cards that the
    cache did not hold, the requests following the order of the cards. *)
Theorem preloadImages_spec (timers : nat) (cards : list Card.t) (p : Preload) :
  let after := (preloadImages timers cards p).1 in
  let pending := (preloadImages timers cards p).2 in
  (pending = None ↔ (length cards ≤ 10 * (timers + 1))%nat) ∧
  (pending = None →
   (∀ card, card ∈ cards → is_Some (cardCache after !! Card.id card)) ∧
   (∀ id src, cardCache p !! id = Some src → cardCache after !! id = Some src) ∧
   (∀ id, cardCache p !! id = None →
          cardCache after !! id =
            if bool_decide (id ∈ Card.id <$> cards) then Some (getCardImageUrl id)
            else None) ∧
   ∃ new,
     requested after = requested p ++ (getCardImageUrl <$> new) ∧
     NoDup (getCardImageUrl <$> new) ∧
     new `sublist_of` (Card.id <$> cards) ∧
     ∀ id, id ∈ new ↔ id ∈ Card.id <$> cards ∧ cardCache p !! id = None).
Proof.
  cbn zeta. unfold preloadImages.
  pose proof (runBatches_prefix timers cards 0 p ltac:(lia)) as Hrun.
  cbn zeta in Hrun. change (Z.of_nat 0) with 0 in Hrun. rewrite Hrun. cbn [fst snd].
  rewrite Nat.sub_0_r, drop_0, Nat.add_0_l.
  destruct (Nat.ltb_spec (Nat.min (length cards) (10 * (timers + 1))) (length cards))
    as [Hlt|Hge].
  - split; [split; [done|lia]|done].
  - split; [split; [lia|done]|]. intros _.
    rewrite Nat.min_l by lia. rewrite firstn_all.
    split; [|split; [|split]].
    + intros card Hin. rewrite preload_cache.
      destruct (cardCache p !! Card.id card); [by eexists|].
      rewrite bool_decide_eq_true_2; [by eexists|]. by apply list_elem_of_fmap_2.
    + intros id src Hid. by rewrite preload_cache, Hid.
    + intros id Hid. by rewrite preload_cache, Hid.
    + destruct (preload_requested cards p) as (new & Hreq & Hnodup & Hsub & Hnew).
      exists new. split; [done|]. split; [|done].
      apply NoDup_fmap_2; [|done]. intros id1 id2. apply getCardImageUrl_inj.
Qed.

Lemma preloadImages_spec_witness :
  (preloadImages 0 Sample.catalog (mkPreload ∅ [])).2 = None ∧
  ∀ card, card ∈ Sample.catalog →
          is_Some (cardCache (preloadImages 0 Sample.catalog (mkPreload ∅ [])).1
                     !! Card.id card).
Proof.
  split; [by vm_compute|].
  exact (proj1 (proj2 (preloadImages_spec 0 Sample.catalog (mkPreload ∅ []))
                  ltac:(by vm_compute))).
Defined.

(** ** Showing the code of the deck *)

Lemma run_invariant (ops : list Op) (st : State) :
  deckInvariant (deckCards st) → deckInvariant (deckCards (run ops st)).
Proof.
  revert st. induction ops as [|op ops IH]; intros st Hinv; [done|].
  unfold run in *. cbn [foldl]. by apply IH, step_invariant.
Qed.

Lemma generate_valid (deckCode : string) (st : State) :
  Forall (λ item, 0 ≤ Entry.count item < 2 ^ 32) (deckCards st) →
  generateAndShowDeckCode deckCode st =
    (join "/" (repeatedIds (deckCards st)), setShowDeckCodeModal true st).
Proof.
  intros Hvalid. unfold generateAndShowDeckCode. by rewrite encodeDeckCode_ok.
Qed.

(** X26. [generateAndShowDeckCode] leaves the deck, the pool, the name,
    the import field and the storage alone.  When every count is a valid
    array length the code of the deck is shown in the dialog and no message
    appears; otherwise one message appears, the dialog is left as it is and
    the code keeps its former value. *)
Theorem generateAndShowDeckCode_spec (deckCode : string) (st : State) :
  let result := generateAndShowDeckCode deckCode st in
  (deckCards result.2 = deckCards st ∧
   availableCards result.2 = availableCards st ∧
   deckName result.2 = deckName st ∧
   importDeckCode result.2 = importDeckCode st ∧
   localStorage result.2 = localStorage st) ∧
  (Forall (λ item, 0 ≤ Entry.count item < 2 ^ 32) (deckCards st) →
   encodeDeckCode (deckCards st) = Return result.1 ∧
   showDeckCodeModal result.2 = true ∧
   alerts result.2 = alerts st) ∧
  (¬ Forall (λ item, 0 ≤ Entry.count item < 2 ^ 32) (deckCards st) →
   result.1 = deckCode ∧
   showDeckCodeModal result.2 = showDeckCodeModal st ∧
   alerts result.2 = alerts st ++ [generateFailedMessage]).
Proof.
  cbn zeta. split; [|split].
  - unfold generateAndShowDeckCode. by destruct (encodeDeckCode (deckCards st)).
  - intros Hvalid. rewrite generate_valid by done. cbn [fst snd].
    by rewrite encodeDeckCode_ok.
  - intros Hbad. unfold generateAndShowDeckCode, encodeDeckCode.
    by rewrite flatMap_arrayFill_throws.
Qed.

Lemma generateAndShowDeckCode_spec_witness :
  let bad := Sample.stateWith [Entry.mk Sample.cardA 2; Entry.mk Sample.cardB (-1)] in
  (¬ Forall (λ item, 0 ≤ Entry.count item < 2 ^ 32) (deckCards bad)) ∧
  (generateAndShowDeckCode "AA-1" bad).1 = "AA-1" ∧
  showDeckCodeModal (generateAndShowDeckCode "AA-1" bad).2 = false ∧
  alerts (generateAndShowDeckCode "AA-1" bad).2 = [generateFailedMessage].
Proof.
  cbn zeta.
  assert (¬ Forall (λ item, 0 ≤ Entry.count item < 2 ^ 32)
              (deckCards (Sample.stateWith
                            [Entry.mk Sample.cardA 2; Entry.mk Sample.cardB (-1)]))) as Hbad.
  { intros Hall. apply Forall_cons in Hall as [_ Hall].
    apply Forall_cons in Hall as [Hcount _]. cbn in Hcount. lia. }
  split; [exact Hbad|].
  exact (proj2 (proj2 (generateAndShowDeckCode_spec "AA-1"
                         (Sample.stateWith
                            [Entry.mk Sample.cardA 2; Entry.mk Sample.cardB (-1)]))) Hbad).
Defined.

(** X27. A deck that the operations of the store made of a deck within
    the invariants always has a code: showing it opens the dialog without a
    message.  If the deck is not empty, its ids hold no slash and its cards
    are those that the pool finds for their ids, then importing the code
    that is shown gives the same deck. *)
Theorem deck_code_after_operations (ops : list Op) (deckCode : string) (st : State) :
  deckInvariant (deckCards st) →
  let st1 := run ops st in
  let result := generateAndShowDeckCode deckCode st1 in
  encodeDeckCode (deckCards st1) = Return result.1 ∧
  showDeckCodeModal result.2 = true ∧
  alerts result.2 = alerts st1 ∧
  (deckCards st1 ≠ [] →
   Forall (λ item, hasChar "/" (entryId item) = false) (deckCards st1) →
   Forall (λ item, findCard (availableCards st1) (entryId item) = Some (Entry.card item))
     (deckCards st1) →
   let st2 := importDeckFromCode (setImportDeckCode result.1 result.2) in
   deckCards st2 = deckCards st1 ∧
   showDeckCodeModal st2 = false ∧
   alerts st2 = alerts st1).
Proof.
  intros Hinv. cbn zeta.
  pose proof (run_invariant ops st Hinv) as [Hcounts _ _ Hnodup].
  set (st1 := run ops st) in *.
  assert (Forall (λ item, 0 ≤ Entry.count item < 2 ^ 32) (deckCards st1)) as Hvalid.
  { eapply Forall_impl; [exact Hcounts|]. cbn. lia. }
  rewrite generate_valid by done. cbn [fst snd].
  split; [by apply encodeDeckCode_ok|]. split; [done|]. split; [done|].
  intros Hne Hfree Hknown. unfold importDeckFromCode.
  cbn [availableCards importDeckCode setImportDeckCode setShowDeckCodeModal].
  rewrite decode_encode_exact; try done.
  - destruct (deckCards st1); [done|].
    by rewrite bool_decide_eq_true_2 by (cbn; lia).
  - eapply Forall_impl; [exact Hcounts|]. cbn. lia.
Qed.

Lemma deck_code_after_operations_witness :
  let st := Sample.stateWith [] in
  let ops := [AddCard Sample.cardB; AddCard Sample.cardA; AddCard Sample.cardB] in
  deckInvariant (deckCards st) ∧
  (generateAndShowDeckCode "" (run ops st)).1 = "AA-2/AA-2/AA-1" ∧
  showDeckCodeModal (generateAndShowDeckCode "" (run ops st)).2 = true.
Proof.
  cbn zeta. split; [apply deckInvariant_nil|]. split; [by vm_compute|].
  exact (proj1 (proj2 (deck_code_after_operations
                         [AddCard Sample.cardB; AddCard Sample.cardA; AddCard Sample.cardB]
                         "" (Sample.stateWith []) deckInvariant_nil))).
Defined.
